(** * Amqp-prtcl/log: a shallow embedding of the logging pipeline

    The development follows the package file by file:
    - levels, output types and flag bits (the constants file);
    - the log entry with its compiled-output cache and the buffer pool
      (entry.go);
    - the ordered map [M] (map.go) and the two renderers (output.go);
    - the [Output] interface and its stock implementation
      [outputWrapper] (output.go);
    - the manager: registry, bounded channel, worker goroutine and the
      calls [log], [addOutput], [removeOutput], [Close].

    Go's [int] is a machine integer; the values that occur here (flag words,
    levels, calendar fields) are modelled in [Z], with the bit operations of
    [Z] for [&] and [|].  A Go [string] is a byte string and is modelled by
    [string]; a [[]byte] likewise.  A [nil] error is [None]. *)

From Stdlib Require Import ZArith String Ascii List Lia Bool Sorted.
From stdpp Require Import base option list gmap strings.
Import ListNotations.

Local Open Scope string_scope.
Local Open Scope list_scope.
Local Open Scope Z_scope.

(** ** Levels, output types, flags *)

Definition LogLevel := Z.

Definition LogLevel_String (l : LogLevel) : string :=
  match l with
  | 0 => "DEGUB"
  | 1 => "INFO"
  | 2 => "WARN"
  | 3 => "ERROR"
  | 4 => "FATAL"
  | _ => "UNKNOWN"
  end.

Definition Lower (l : LogLevel) : LogLevel := if 0 <? l then l - 1 else l.

Definition Restrict (l : LogLevel) : LogLevel := if l <? 3 then l + 1 else l.

Definition Permits (l level : LogLevel) : bool := l <=? level.

Definition OutputType := Z.

Definition T_Text : OutputType := 0.
Definition T_JSON : OutputType := 1.

Definition L_Debug : LogLevel := 0.
Definition L_Info : LogLevel := 1.
Definition L_Warn : LogLevel := 2.
Definition L_Error : LogLevel := 3.
Definition L_Fatal : LogLevel := 4.

(** [1 << iota], in declaration order. *)
Definition F_Time : Z := Z.shiftl 1 0.
Definition F_Micro : Z := Z.shiftl 1 1.
Definition F_Prefix : Z := Z.shiftl 1 2.
Definition F_LastPrefix : Z := Z.shiftl 1 3.
Definition F_Level : Z := Z.shiftl 1 4.
Definition F_NewLine : Z := Z.shiftl 1 5.
Definition F_Fields : Z := Z.shiftl 1 6.
Definition F_Fields_A : Z := Z.shiftl 1 7.
Definition F_Fields_B : Z := Z.shiftl 1 8.
Definition F_NotSave : Z := Z.shiftl 1 9.
Definition F_Std : Z :=
  Z.lor F_Time (Z.lor F_Prefix (Z.lor F_Level (Z.lor F_NewLine F_Fields))).

(** [flags&bit != 0] *)
Definition has (flags bit : Z) : bool := negb (Z.land flags bit =? 0).

(** ** Errors *)

(** The two package-level error values are compared by identity; every other
    error is some other value. *)
Inductive error : Type :=
  | ErrOutputClosed
  | ErrManagerClosed
  | ErrOther (msg : string).

#[global] Instance error_eq_dec : EqDecision error.
Proof. solve_decision. Defined.

(** ** Times and field values *)

(** What the renderers read off a [time.Time]. *)
Record Time : Type := mkTime {
  Year : Z; Month : Z; Day : Z;
  Hour : Z; Minute : Z; Second : Z; Nanosecond : Z
}.

(** The fields are Go [int]s. *)
Definition is_int (x : Z) : Prop := - 2 ^ 63 <= x < 2 ^ 63.

Definition Time_ok (t : Time) : Prop :=
  is_int (Year t) /\ is_int (Month t) /\ is_int (Day t) /\ is_int (Hour t) /\
  is_int (Minute t) /\ is_int (Second t) /\ is_int (Nanosecond t).

(** The values put in an ordered map: the ones the JSON renderer stores
    itself, and [VOther] for any value a caller supplies (kept as an opaque
    tag).  [VM] is a nested [M], [VArray] the same entries as [[]MapEntry]. *)
#[warnings="-register-all"]
Inductive value : Type :=
  | VTime (t : Time)
  | VString (s : string)
  | VStrings (l : list string)
  | VOther (tag : string)
  | VM (m : list (string * value))
  | VArray (m : list (string * value)).

Definition MapEntry : Type := string * value.
Definition Key (e : MapEntry) : string := fst e.
Definition Val (e : MapEntry) : value := snd e.

Definition M : Type := list MapEntry.

(** ** Log entries, compiled-output cache, buffer pool (entry.go) *)

(** A [*[]byte]: the address of the slice variable and the bytes it holds. *)
Record bufref : Type := mkBuf { addr : nat; bytes : string }.

Record Compiled : Type := mkCompiled {
  Flag : Z;
  OutputTypeOf : OutputType;
  Buf : bufref
}.

Record LogEntry : Type := mkEntry {
  Time_ : Time;
  Prefixes : list string;
  Level : LogLevel;
  Msg : string;
  Fields : M;
  CompiledOf : list Compiled
}.

Definition set_Compiled (entry : LogEntry) (c : list Compiled) : LogEntry :=
  {| Time_ := Time_ entry; Prefixes := Prefixes entry; Level := Level entry;
     Msg := Msg entry; Fields := Fields entry; CompiledOf := c |}.

(** The [sync.Pool] together with the allocator behind its [New]: the buffers
    that have been put back (newest first) and the next unused address. *)
Record Pool : Type := mkPool { free : list bufref; fresh : nat }.

Definition putBuf (b : bufref) (pool : Pool) : Pool :=
  mkPool (b :: free pool) (fresh pool).

(** [new([]byte)] *)
Definition newBuf (pool : Pool) : bufref * Pool :=
  (mkBuf (fresh pool) "", mkPool (free pool) (S (fresh pool))).

(** [pool.Get()] hands out a pooled buffer, or a new one when none is left;
    [getBuf] then truncates it to length 0. *)
Definition getBuf (pool : Pool) : bufref * Pool :=
  match free pool with
  | b :: rest => (mkBuf (addr b) "", mkPool rest (fresh pool))
  | [] => newBuf pool
  end.

(** The scan of both [AddCompiled] and [GetCompiled]: the first cached entry
    with these flags and this output type.  Either call holds the entry's
    mutex from before the scan to its return, so that each is one step. *)
Fixpoint find_compiled (flags : Z) (outputType : OutputType)
    (cs : list Compiled) : option Compiled :=
  match cs with
  | [] => None
  | v :: cs' =>
      if (Flag v =? flags) && (OutputTypeOf v =? outputType)
      then Some v
      else find_compiled flags outputType cs'
  end.

Definition AddCompiled (flags : Z) (outputType : OutputType) (buf : bufref)
    (entry : LogEntry) (pool : Pool) : LogEntry * Pool :=
  if has flags F_NotSave then (entry, putBuf buf pool)
  else
    match find_compiled flags outputType (CompiledOf entry) with
    | Some _ => (entry, putBuf buf pool)
    | None =>
        (set_Compiled entry
           (CompiledOf entry ++ [mkCompiled flags outputType buf]), pool)
    end.

Definition GetCompiled (flags : Z) (outputType : OutputType)
    (entry : LogEntry) : option bufref :=
  if has flags F_NotSave then None
  else Buf <$> find_compiled flags outputType (CompiledOf entry).

(** The cache invariant: no two cached entries have the same flags and output
    type. *)
Definition cache_key (c : Compiled) : Z * OutputType :=
  (Flag c, OutputTypeOf c).

Definition cache_ok (cs : list Compiled) : Prop := NoDup (cache_key <$> cs).

(** ** The ordered map (map.go) *)

Definition Add (m : M) (key : string) (val : value) : M := m ++ [(key, val)].

Definition AddE (m : M) (e : list MapEntry) : M := m ++ e.

Definition AsArray (m : M) : list MapEntry := m.

(** ** Writers *)

(** An [io.Writer] as far as the package uses one: [Write] is recorded and
    answered with the writer's error; [closer] says whether the value also
    implements [io.Closer], and [closes] counts the calls of its [Close]. *)
Record Writer : Type := mkWriter {
  written : list string;
  write_err : option error;
  closer : bool;
  close_err : option error;
  closes : nat
}.

Definition Write (w : Writer) (p : string) : Writer * option error :=
  (mkWriter (written w ++ [p]) (write_err w) (closer w) (close_err w)
     (closes w), write_err w).

Definition Writer_Close (w : Writer) : Writer * option error :=
  (mkWriter (written w) (write_err w) (closer w) (close_err w)
     (S (closes w)), close_err w).

(** ** Renderers (output.go) *)

(** [byte(x)]: the low eight bits. *)
Definition byte_of (x : Z) : ascii := ascii_of_N (Z.to_N (x mod 256)).

(** [*buf = append( *buf, s...)] *)
Definition append (buf : bufref) (s : string) : bufref :=
  mkBuf (addr buf) (bytes buf ++ s)%string.

(** [s[i]], which panics outside [0 <= i < len(s)]. *)
Definition str_index (s : string) (i : Z) : option ascii :=
  if i <? 0 then None else String.get (Z.to_nat i) s.

Definition len (s : string) : Z := Z.of_nat (String.length s).

(** An [int] is 64 bits wide and its arithmetic wraps around. *)
Definition wrap64 (x : Z) : Z := (x + 2 ^ 63) mod 2 ^ 64 - 2 ^ 63.

(** The loop of [appendInt] and the write after it. [room] is [ind + 1], the
    number of cells of [b] still unwritten, and [acc] is [b[ind+1:]]; with no
    cell left, [b[ind]] is out of range.  [w--] wraps at the least [int]; the
    digit goes through [byte], which keeps the low eight bits, so that a
    wrap of ['0' + n - r*10] does not show. *)
Fixpoint appendInt_loop (room : nat) (n w : Z) (acc : string) : option string :=
  match room with
  | O => None
  | S room' =>
      if (10 <=? n) || (1 <? w) then
        let r := Z.quot n 10 in
        appendInt_loop room' r (wrap64 (w - 1))
          (String (byte_of (48 + n - r * 10)) acc)
      else Some (String (byte_of (48 + n)) acc)
  end.

Definition appendInt (buf : bufref) (n w : Z) : option bufref :=
  append buf <$> appendInt_loop 20 n w "".

Definition newline : ascii := ascii_of_nat 10.

(** [for _, v := range entry.Prefixes { "[" v "] " }] *)
Fixpoint append_prefixes (buf : bufref) (ps : list string) : bufref :=
  match ps with
  | [] => buf
  | v :: ps' => append_prefixes (append (append (append buf "[") v) "] ") ps'
  end.

(** The result of a render function: the entry (its cache may have grown), the
    pool, the writer, and the error of the write.  [None] is a panic. *)
Definition rendered : Type := LogEntry * Pool * Writer * option error.

(** [TextLogFunc] up to the prefixes: date and time. *)
Definition Text_time (buf : bufref) (t : Time) (flags : Z) : option bufref :=
  if has flags (Z.lor F_Time F_Micro) then
    buf ← appendInt buf (Day t) 2;
    buf ← appendInt (append buf "/") (Month t) 2;
    buf ← appendInt (append buf "/") (Year t) 4;
    buf ← appendInt (append buf " ") (Hour t) 2;
    buf ← appendInt (append buf ":") (Minute t) 2;
    buf ← appendInt (append buf ":") (Second t) 2;
    buf ← (if has flags F_Micro then
             appendInt (append buf ".") (Z.quot (Nanosecond t) 1000) 6
           else Some buf);
    Some (append buf " ")
  else Some buf.

(** [if flags&F_NewLine != 0 && entry.Msg[len(entry.Msg)-1] != '\n'] *)
Definition Text_newline (buf : bufref) (msg : string) (flags : Z)
    : option bufref :=
  if has flags F_NewLine then
    c ← str_index msg (len msg - 1);
    Some (if Ascii.eqb c newline then buf else append buf (String newline ""))
  else Some buf.

Definition TextLogFunc (buf : bufref) (entry : LogEntry) (flags : Z)
    (w : Writer) (pool : Pool) : option rendered :=
  buf ← Text_time buf (Time_ entry) flags;
  let buf :=
    if negb (length (Prefixes entry) =? 0)%nat
       && has flags (Z.lor F_Prefix F_LastPrefix) then
      if has flags F_LastPrefix then
        append (append (append buf "[") (List.last (Prefixes entry) "")) "] "
      else append_prefixes buf (Prefixes entry)
    else buf in
  let buf :=
    if has flags F_Level then
      append (append (append buf "[") (LogLevel_String (Level entry))) "] "
    else buf in
  let buf := append buf (Msg entry) in
  buf ← Text_newline buf (Msg entry) flags;
  let '(entry, pool) := AddCompiled flags T_Text buf entry pool in
  let '(w, err) := Write w (bytes buf) in
  Some (entry, pool, w, err).

(** The map [m] of [JSONLogFunc] in three stages: before the fields block,
    the fields block, and the message; [JSONLogFunc_m] is [m] as it reaches
    [json.Marshal]. *)
Definition JSON_head (entry : LogEntry) (flags : Z) : M :=
  let m : M := [] in
  let m := if has flags F_Time then Add m "time" (VTime (Time_ entry)) else m in
  let m :=
    if negb (length (Prefixes entry) =? 0)%nat
       && has flags (Z.lor F_Prefix F_LastPrefix) then
      if has flags F_LastPrefix then
        Add m "prefix" (VString (List.last (Prefixes entry) ""))
      else Add m "prefix" (VStrings (Prefixes entry))
    else m in
  if has flags F_Level then
    Add m "level" (VString (LogLevel_String (Level entry)))
  else m.

Definition JSON_fields (entry : LogEntry) (flags : Z) (m : M) : M :=
  if negb (length (Fields entry) =? 0)%nat
     && has flags (Z.lor F_Fields (Z.lor F_Fields_A F_Fields_B)) then
    if has flags F_Fields_A then Add m "fields" (VM (Fields entry))
    else if has flags F_Fields then AddE m (Fields entry)
    else if has flags F_Fields_B then
      Add m "fields" (VArray (AsArray (Fields entry)))
    else m
  else m.

Definition JSONLogFunc_m (entry : LogEntry) (flags : Z) : M :=
  let m := JSON_head entry flags in
  let m := JSON_fields entry flags m in
  Add m "msg" (VString (Msg entry)).

(** The three ways of putting the fields into the object. *)
Inductive embedding : Type := TopLevel | NestedObject | NestedArray.

Definition embed (st : embedding) (fields : M) (m : M) : M :=
  match st with
  | TopLevel => AddE m fields
  | NestedObject => Add m "fields" (VM fields)
  | NestedArray => Add m "fields" (VArray (AsArray fields))
  end.

(** The order of precedence in the words of the flag documentation:
    "the priority is F_Fields_A -> F_Fields -> F_Fields_B". *)
Definition precedence_doc (flags : Z) : option embedding :=
  if has flags F_Fields_A then Some NestedObject
  else if has flags F_Fields then Some TopLevel
  else if has flags F_Fields_B then Some NestedArray
  else None.

(** The order of precedence in the words of the specification: "top-level >
    nested-object > nested-array". *)
Definition precedence_spec (flags : Z) : option embedding :=
  if has flags F_Fields then Some TopLevel
  else if has flags F_Fields_A then Some NestedObject
  else if has flags F_Fields_B then Some NestedArray
  else None.

(** More than one of the three field bits. *)
Definition several_styles (flags : Z) : bool :=
  (has flags F_Fields && has flags F_Fields_A)
  || (has flags F_Fields && has flags F_Fields_B)
  || (has flags F_Fields_A && has flags F_Fields_B).

(** [JSONLogFunc], over the standard library's [json.Marshal]: [marshal m] is
    the [data] that [json.Marshal(m)] hands back (empty when it answers an
    error, which the code drops), and [None] when the call panics, as it does
    when the [MarshalJSON] of a field value panics.  The cached reference is
    [&data], the local slice variable itself, so the cache sees the newline
    appended to [data] afterwards; [buf] goes straight back to the pool. *)
Definition JSONLogFunc (marshal : M -> option string) (buf : bufref)
    (entry : LogEntry) (flags : Z) (w : Writer) (pool : Pool)
    : option rendered :=
  let m := JSONLogFunc_m entry flags in
  json ← marshal m;
  let '(data, pool) := newBuf pool in
  let data := append data json in
  let data :=
    if has flags F_NewLine then append data (String newline "") else data in
  let '(entry, pool) := AddCompiled flags T_JSON data entry pool in
  let '(entry, pool) := AddCompiled F_NotSave T_JSON buf entry pool in
  let '(w, err) := Write w (bytes data) in
  Some (entry, pool, w, err).

(** ** Outputs (output.go) *)

(** The [Output] interface.  [Log] may touch the entry's cache and the buffer
    pool besides the output itself; [None] is a panic of the call. *)
Class Output (O : Type) : Type := {
  OnAdd : O -> O;
  Log : O -> LogEntry -> Pool -> option (O * LogEntry * Pool * option error);
  GetFlags : O -> Z;
  SetFlags : O -> Z -> O;
  SetLogLevel : O -> LogLevel -> O;
  GetLogLevel : O -> LogLevel;
  GetOutputType : O -> OutputType;
  LogClose : O -> O * option error
}.

Record outputWrapper : Type := mkWrapper {
  ow_add : Z;
  ow_w : Writer;
  ow_close : bool;
  ow_flags : Z;
  ow_logLevel : LogLevel;
  ow_outputType : OutputType;
  ow_LogFunc :
    option (bufref -> LogEntry -> Z -> Writer -> Pool -> option rendered);
  ow_CloseFunc : option (Writer -> bool -> Writer * option error)
}.

Definition set_add (o : outputWrapper) (n : Z) : outputWrapper :=
  mkWrapper n (ow_w o) (ow_close o) (ow_flags o) (ow_logLevel o)
    (ow_outputType o) (ow_LogFunc o) (ow_CloseFunc o).

Definition set_w (o : outputWrapper) (w : Writer) : outputWrapper :=
  mkWrapper (ow_add o) w (ow_close o) (ow_flags o) (ow_logLevel o)
    (ow_outputType o) (ow_LogFunc o) (ow_CloseFunc o).

Definition set_flags (o : outputWrapper) (f : Z) : outputWrapper :=
  mkWrapper (ow_add o) (ow_w o) (ow_close o) f (ow_logLevel o)
    (ow_outputType o) (ow_LogFunc o) (ow_CloseFunc o).

Definition set_logLevel (o : outputWrapper) (l : LogLevel) : outputWrapper :=
  mkWrapper (ow_add o) (ow_w o) (ow_close o) (ow_flags o) l
    (ow_outputType o) (ow_LogFunc o) (ow_CloseFunc o).

Definition outputWrapper_OnAdd (o : outputWrapper) : outputWrapper :=
  set_add o (ow_add o + 1).

Definition outputWrapper_LogClose (o : outputWrapper)
    : outputWrapper * option error :=
  if 1 <? ow_add o then (set_add o (ow_add o - 1), None)
  else
    match ow_CloseFunc o with
    | Some closeFunc =>
        let '(w, e) := closeFunc (ow_w o) (ow_close o) in (set_w o w, e)
    | None => (o, None)
    end.

Definition outputWrapper_Log (o : outputWrapper) (entry : LogEntry)
    (pool : Pool) : option (outputWrapper * LogEntry * Pool * option error) :=
  match ow_LogFunc o with
  | Some logFunc =>
      if Permits (ow_logLevel o) (Level entry) then
        match GetCompiled (ow_flags o) (ow_outputType o) entry with
        | None =>
            let '(buf, pool) := getBuf pool in
            '(entry, pool, w, e) ← logFunc buf entry (ow_flags o) (ow_w o) pool;
            Some (set_w o w, entry, pool, e)
        | Some buf =>
            let '(w, e) := Write (ow_w o) (bytes buf) in
            Some (set_w o w, entry, pool, e)
        end
      else Some (o, entry, pool, None)
  | None => Some (o, entry, pool, None)
  end.

#[global] Instance outputWrapper_Output : Output outputWrapper := {|
  OnAdd := outputWrapper_OnAdd;
  Log := outputWrapper_Log;
  GetFlags := ow_flags;
  SetFlags := set_flags;
  SetLogLevel := set_logLevel;
  GetLogLevel := ow_logLevel;
  GetOutputType := ow_outputType;
  LogClose := outputWrapper_LogClose
|}.

Definition DefaultCloseFunc (w : Writer) (close : bool)
    : Writer * option error :=
  if close && closer w then Writer_Close w else (w, None).

Definition NewOutputWrapper (w : Writer) (close : bool) (flags : Z)
    (output : OutputType) (logLevel : LogLevel)
    (logFunc :
       option (bufref -> LogEntry -> Z -> Writer -> Pool -> option rendered))
    (closeFunc : option (Writer -> bool -> Writer * option error))
    : outputWrapper :=
  mkWrapper 0 w close flags logLevel 0 logFunc closeFunc.

Definition NewJSONOutput (marshal : M -> option string) (w : Writer)
    (flags : Z)
    (close : bool) : outputWrapper :=
  mkWrapper 0 w close flags L_Info T_JSON (Some (JSONLogFunc marshal))
    (Some DefaultCloseFunc).

Definition NewTextOutput (w : Writer) (flags : Z) (close : bool)
    : outputWrapper :=
  mkWrapper 0 w close flags L_Info T_Text (Some TextLogFunc)
    (Some DefaultCloseFunc).

(** ** The manager *)

(** What a call can come to: it returns, it panics, or it waits for something
    that no other party of the model will do. *)
Inductive outcome (A : Type) : Type :=
  | Returns (a : A)
  | Panics
  | Blocks.

Arguments Returns {A} a.
Arguments Panics {A}.
Arguments Blocks {A}.

#[global] Instance outcome_ret : MRet outcome := fun A a => Returns a.

#[global] Instance outcome_bind : MBind outcome := fun A B f x =>
  match x with
  | Returns a => f a
  | Panics => Panics
  | Blocks => Blocks
  end.

(** A panic of the worker goroutine takes the whole program down. *)
Definition of_option {A : Type} (x : option A) : outcome A :=
  match x with
  | Some a => Returns a
  | None => Panics
  end.

(** Outputs are interface values holding pointers and are compared by
    identity; done channels are identified by the order of their [make]. *)
Definition ptr : Type := nat.
Definition chan : Type := nat.

(** A [nil] [entry] is the drain marker, a [nil] [done] a non-blocking call. *)
Record managerEntry : Type := mkItem {
  entry : option LogEntry;
  done : option chan
}.

(** Where the worker goroutine stands in its loop: waiting on the channel;
    holding an item it has received; or past [m.mu.Unlock()] for an item, with
    the cached buffers it has yet to give back before it closes the item's
    done channel. *)
Inductive phase : Type :=
  | Idle
  | Holding (e : managerEntry)
  | Delivered (e : managerEntry) (cs : list Compiled).

(** What the outputs and the callers get to see.  [Handled e outs]: the
    worker, holding the mutex, has called [Log] with the entry of [e] on
    [outs], in this order (on no output, and without the mutex, when [e] is a
    drain marker). *)
Inductive event : Type :=
  | Handled (e : managerEntry) (outs : list ptr)
  | Added (p : ptr)
  | Closed (p : ptr) (err : option error).

(** The calls of the manager and what each hands back to its caller:
    [log] and [Close] an error, [removeOutput] a boolean, [addOutput]
    nothing. *)
Inductive call : Type :=
  | CLog (en : option LogEntry) (block : bool)
  | CAdd (p : ptr)
  | CRemove (p : ptr)
  | CClose.

Inductive reply : Type :=
  | RError (e : option error)
  | RBool (x : bool)
  | RNothing.

(** The capacity of [m.ch]. *)
Definition capacity : nat := 10%nat.

Section Manager.
Context {O : Type} `{!Output O}.

(** The [manager] struct with the state of its channel, followed by the
    rest of the world it acts on: where the worker goroutine stands, the
    objects behind the registered pointers, the buffer pool, the done
    channels that have been closed, the next channel to be made, and the
    record of events. *)
Record manager : Type := mkManager {
  outputs : list ptr;
  mu : bool;
  b : bool;
  ch : list managerEntry;
  ch_closed : bool;
  worker : phase;
  objs : gmap ptr O;
  pool : Pool;
  signalled : list chan;
  next_chan : chan;
  history : list event
}.

Definition set_outputs (s : manager) (x : list ptr) : manager :=
  mkManager x (mu s) (b s) (ch s) (ch_closed s) (worker s) (objs s)
    (pool s) (signalled s) (next_chan s) (history s).

Definition set_mu (s : manager) (x : bool) : manager :=
  mkManager (outputs s) x (b s) (ch s) (ch_closed s) (worker s) (objs s)
    (pool s) (signalled s) (next_chan s) (history s).

Definition set_b (s : manager) (x : bool) : manager :=
  mkManager (outputs s) (mu s) x (ch s) (ch_closed s) (worker s) (objs s)
    (pool s) (signalled s) (next_chan s) (history s).

Definition set_ch (s : manager) (x : list managerEntry) : manager :=
  mkManager (outputs s) (mu s) (b s) x (ch_closed s) (worker s) (objs s)
    (pool s) (signalled s) (next_chan s) (history s).

Definition set_ch_closed (s : manager) (x : bool) : manager :=
  mkManager (outputs s) (mu s) (b s) (ch s) x (worker s) (objs s)
    (pool s) (signalled s) (next_chan s) (history s).

Definition set_worker (s : manager) (x : phase) : manager :=
  mkManager (outputs s) (mu s) (b s) (ch s) (ch_closed s) x (objs s)
    (pool s) (signalled s) (next_chan s) (history s).

Definition set_objs (s : manager) (x : gmap ptr O) : manager :=
  mkManager (outputs s) (mu s) (b s) (ch s) (ch_closed s) (worker s) x
    (pool s) (signalled s) (next_chan s) (history s).

Definition set_pool (s : manager) (x : Pool) : manager :=
  mkManager (outputs s) (mu s) (b s) (ch s) (ch_closed s) (worker s)
    (objs s) x (signalled s) (next_chan s) (history s).

Definition set_signalled (s : manager) (x : list chan) : manager :=
  mkManager (outputs s) (mu s) (b s) (ch s) (ch_closed s) (worker s)
    (objs s) (pool s) x (next_chan s) (history s).

Definition set_next_chan (s : manager) (x : chan) : manager :=
  mkManager (outputs s) (mu s) (b s) (ch s) (ch_closed s) (worker s)
    (objs s) (pool s) (signalled s) x (history s).

Definition record (s : manager) (ev : event) : manager :=
  mkManager (outputs s) (mu s) (b s) (ch s) (ch_closed s) (worker s)
    (objs s) (pool s) (signalled s) (next_chan s) (history s ++ [ev]).

(** [newManager], in a world with the given objects and pool. *)
Definition newManager (os : gmap ptr O) (pl : Pool) : manager :=
  mkManager [] false false [] false Idle os pl [] 0%nat [].

(** *** The worker goroutine *)

(** [l[i]] and [l[i] = x] with Go's bounds check. *)
Definition index {A : Type} (l : list A) (i : Z) : option A :=
  if i <? 0 then None else l !! Z.to_nat i.

Definition store {A : Type} (l : list A) (i : Z) (x : A) : option (list A) :=
  if (0 <=? i) && (i <? Z.of_nat (length l))
  then Some (<[Z.to_nat i := x]> l) else None.

(** [for i, output := range m.outputs], collecting in [rm] the indices
    whose [Log] answered [ErrOutputClosed].  A pointer with no object
    behind it is a nil interface value: calling it panics. *)
Fixpoint sweep (outs : list ptr) (i : Z) (en : LogEntry)
    (os : gmap ptr O) (pl : Pool) (rm : list Z)
    : option (LogEntry * gmap ptr O * Pool * list Z) :=
  match outs with
  | [] => Some (en, os, pl, rm)
  | p :: outs' =>
      o ← os !! p;
      '(o', en', pl', e) ← Log o en pl;
      sweep outs' (i + 1) en' (<[p := o']> os) pl'
        (if decide (e = Some ErrOutputClosed) then rm ++ [i] else rm)
  end.

(** [for _, i := range rm], with [r] counting the removals made. *)
Fixpoint compact (rm : list Z) (r : Z) (outs : list ptr)
    : option (list ptr) :=
  match rm with
  | [] => Some outs
  | i :: rm' =>
      let n := Z.of_nat (length outs) in
      x ← index outs (n - 1);
      outs1 ← store outs (i - r) x;
      compact rm' (r + 1) (take (Z.to_nat (n - 1)) outs1)
  end.

(** [for _, entry := range e.entry.Compiled { putBuf(entry.Buf) }] *)
Definition release (cs : list Compiled) (pl : Pool) : Pool :=
  fold_left (fun pl c => putBuf (Buf c) pl) cs pl.

(** The body of [for e := range m.ch] down to [m.mu.Unlock()], for the item
    [e]; a drain marker skips all of it.  The mutex is taken and released
    inside, so that nobody else touches the registry or calls an output in
    between; whoever calls [pass] sees to it that the mutex is free when [e]
    carries an entry.  The answer has the cache of the entry as the outputs
    left it. *)
Definition pass (e : managerEntry) (s : manager)
    : option (manager * list Compiled) :=
  match entry e with
  | Some en =>
      '(en', os, pl, rm) ← sweep (outputs s) 0 en (objs s) (pool s) [];
      outs ← compact rm 0 (outputs s);
      Some (record (set_pool (set_objs (set_outputs s outs) os) pl)
              (Handled e (outputs s)),
            CompiledOf en')
  | None => Some (record s (Handled e []), [])
  end.

(** The rest of the body: the cached buffers go back to the pool, then the
    done channel is closed, and the worker is back at the channel. *)
Definition finish (e : managerEntry) (cs : list Compiled) (s : manager)
    : manager :=
  let s := set_pool s (release cs (pool s)) in
  let s :=
    match done e with
    | Some d => set_signalled s (signalled s ++ [d])
    | None => s
    end in
  set_worker s Idle.

(** The whole body. *)
Definition handle (e : managerEntry) (s : manager) : option manager :=
  '(s1, cs) ← pass e s; Some (finish e cs s1).

(** The mutex is needed for an item with an entry only. *)
Definition can_handle (e : managerEntry) (s : manager) : bool :=
  match entry e with
  | Some _ => negb (mu s)
  | None => true
  end.

(** The worker receives the oldest item of the channel, if it holds none
    and there is one. *)
Definition recv (s : manager) : manager :=
  match worker s, ch s with
  | Idle, e :: rest => set_worker (set_ch s rest) (Holding e)
  | _, _ => s
  end.

(** The worker goes on with the item it holds, to the end of the body. *)
Definition work (s : manager) : outcome manager :=
  match worker s with
  | Holding e => if can_handle e s then of_option (handle e s) else Blocks
  | Delivered e cs => Returns (finish e cs s)
  | Idle => Returns s
  end.

(** *** The calls, read sequentially

    One caller at a time; the worker goroutine runs when the caller has to
    wait for it, and as far as that takes. *)

Definition enqueue (e : managerEntry) (s : manager) : manager :=
  set_ch s (ch s ++ [e]).

(** [make(chan struct{})] *)
Definition make_chan (s : manager) : chan * manager :=
  (next_chan s, set_next_chan s (S (next_chan s))).

(** [m.ch <- e]: on a full channel the sender sleeps until the worker has
    received an item. *)
Definition send (e : managerEntry) (s : manager) : outcome manager :=
  if ch_closed s then Panics
  else if (length (ch s) <? capacity)%nat then Returns (enqueue e s)
  else s ← work s; Returns (enqueue e (recv s)).

(** [<-d]: the worker goes on until it has closed [d].  Each round brings
    one item to its end, so that more rounds than there are items cannot
    help. *)
Fixpoint wait (rounds : nat) (d : chan) (s : manager) : outcome manager :=
  if decide (d ∈ signalled s) then Returns s
  else
    match rounds with
    | 0%nat => Blocks
    | S rounds' => s ← work (recv s); wait rounds' d s
    end.

Definition pending (s : manager) : nat :=
  (length (ch s) + match worker s with Idle => 0 | _ => 1 end)%nat.

Definition log (en : option LogEntry) (block : bool) (s : manager)
    : outcome (manager * option error) :=
  let '(e, s) :=
    if block then let '(d, s) := make_chan s in (mkItem en (Some d), s)
    else (mkItem en None, s) in
  if b s then Returns (s, Some ErrManagerClosed)
  else
    s ← send e s;
    match done e with
    | Some d => s ← wait (pending s) d s; Returns (s, None)
    | None => Returns (s, None)
    end.

(** [for _, v := range m.outputs { v.LogClose() }] *)
Fixpoint close_all (outs : list ptr) (s : manager) : option manager :=
  match outs with
  | [] => Some s
  | p :: outs' =>
      o ← objs s !! p;
      let '(o', err) := LogClose o in
      close_all outs' (record (set_objs s (<[p := o']> (objs s)))
                         (Closed p err))
  end.

Definition Close (s : manager) : outcome (manager * option error) :=
  let '(d, s) := make_chan s in
  let e := mkItem None (Some d) in
  if b s then Returns (s, Some ErrManagerClosed)
  else
    let s := set_b s true in
    s ← send e s;
    s ← (if ch_closed s then Panics else Returns (set_ch_closed s true));
    s ← wait (pending s) d s;
    if mu s then Blocks
    else
      s ← of_option (close_all (outputs s) s);
      Returns (set_outputs s [], None).

(** The locked part of [addOutput]. *)
Definition add_locked (p : ptr) (s : manager) : option manager :=
  let s := set_outputs s (outputs s ++ [p]) in
  o ← objs s !! p;
  Some (record (set_objs s (<[p := OnAdd o]> (objs s))) (Added p)).

Definition addOutput (p : ptr) (s : manager) : outcome manager :=
  if b s then Returns s
  else if mu s then Blocks
  else of_option (add_locked p s).

(** [for i, v := range m.outputs { if v == o ...]: the first index of [p]. *)
Fixpoint position (p : ptr) (outs : list ptr) (i : Z) : option Z :=
  match outs with
  | [] => None
  | v :: outs' => if decide (v = p) then Some i else position p outs' (i + 1)
  end.

(** The locked part of [removeOutput]. *)
Definition remove_locked (p : ptr) (s : manager) : option (manager * bool) :=
  match position p (outputs s) 0 with
  | Some i =>
      let n := Z.of_nat (length (outputs s)) in
      x ← index (outputs s) (n - 1);
      outs1 ← store (outputs s) i x;
      Some (set_outputs s (take (Z.to_nat (n - 1)) outs1), true)
  | None => Some (s, false)
  end.

Definition removeOutput (p : ptr) (s : manager) : outcome (manager * bool) :=
  if mu s then Blocks else of_option (remove_locked p s).

Definition Lock (s : manager) : outcome manager :=
  if mu s then Blocks else Returns (set_mu s true).

Definition Unlock (s : manager) : outcome manager :=
  if mu s then Returns (set_mu s false) else Panics.

Definition perform (c : call) (s : manager) : outcome (manager * reply) :=
  match c with
  | CLog en block => '(s, e) ← log en block s; Returns (s, RError e)
  | CAdd p => s ← addOutput p s; Returns (s, RNothing)
  | CRemove p => '(s, x) ← removeOutput p s; Returns (s, RBool x)
  | CClose => '(s, e) ← Close s; Returns (s, RError e)
  end.

(** *** The calls, interleaved

    Any number of callers and the worker, one shared-memory action at a
    time: a send on the channel ([log], [Close]), the worker's receive, its
    pass over the outputs under the mutex, the end of its loop body, the
    return from [<-d] of a blocked caller, the store of the closed flag,
    [close(m.ch)], the locked part of [Close], of [addOutput] and of
    [removeOutput], [Lock] and [Unlock].  Reading the closed flag changes
    nothing and is left out, so that an action is possible here whenever
    some caller could have got to it.  A done channel gets its number when
    its item is sent.  [None]: the action cannot be taken (or would panic)
    in this state. *)
Inductive label : Type :=
  | LSend (e : managerEntry)
  | LRecv
  | LPass
  | LFinish
  | LReturn (d : chan)
  | LStore
  | LCloseChan
  | LCloseOutputs
  | LAdd (p : ptr)
  | LRemove (p : ptr)
  | LLock
  | LUnlock.

Definition step (l : label) (s : manager) : option manager :=
  match l with
  | LSend e =>
      if ch_closed s || negb (length (ch s) <? capacity)%nat then None
      else
        match done e with
        | Some d =>
            if decide (d = next_chan s)
            then Some (enqueue e (snd (make_chan s))) else None
        | None => Some (enqueue e s)
        end
  | LRecv =>
      match worker s, ch s with
      | Idle, _ :: _ => Some (recv s)
      | _, _ => None
      end
  | LPass =>
      match worker s with
      | Holding e =>
          if can_handle e s
          then '(s1, cs) ← pass e s; Some (set_worker s1 (Delivered e cs))
          else None
      | _ => None
      end
  | LFinish =>
      match worker s with
      | Delivered e cs => Some (finish e cs s)
      | _ => None
      end
  | LReturn d => if decide (d ∈ signalled s) then Some s else None
  | LStore => Some (set_b s true)
  | LCloseChan => if ch_closed s then None else Some (set_ch_closed s true)
  | LCloseOutputs =>
      if mu s then None
      else s' ← close_all (outputs s) s; Some (set_outputs s' [])
  | LAdd p => if mu s then None else add_locked p s
  | LRemove p => if mu s then None else fst <$> remove_locked p s
  | LLock => if mu s then None else Some (set_mu s true)
  | LUnlock => if mu s then Some (set_mu s false) else None
  end.

Fixpoint exec (run : list label) (s : manager) : option manager :=
  match run with
  | [] => Some s
  | l :: run' => s' ← step l s; exec run' s'
  end.

(** The items sent in a run, in the order of their arrival on the channel. *)
Definition sent (run : list label) : list managerEntry :=
  omap (fun l => match l with LSend e => Some e | _ => None end) run.

(** The items the worker has handled, in the order of handling. *)
Definition handled (h : list event) : list managerEntry :=
  omap (fun ev => match ev with Handled e _ => Some e | _ => None end) h.

(** *** What the proofs speak about *)

(** The fields that say who may do what next. *)
Definition same_control (s s' : manager) : Prop :=
  mu s' = mu s /\ b s' = b s /\ ch s' = ch s /\
  ch_closed s' = ch_closed s /\ worker s' = worker s /\
  next_chan s' = next_chan s.

(** The item the worker has received and not taken through the outputs, and
    the done channel it has yet to close. *)
Definition held (w : phase) : list managerEntry :=
  match w with
  | Holding e => [e]
  | _ => []
  end.

Definition owed (w : phase) : list chan :=
  match w with
  | Delivered e _ => option_list (done e)
  | _ => []
  end.

(** What a run keeps true: the items handled, the one in the worker's hands
    and the ones in the channel are, in this order, the items sent; the
    closed done channels, with the one the worker is about to close, are
    those of the handled items; and every done channel was made once. *)
Definition fifo (run : list label) (s : manager) : Prop :=
  handled (history s) ++ held (worker s) ++ ch s = sent run /\
  signalled s ++ owed (worker s) = omap done (handled (history s)) /\
  Forall (fun e => forall d, done e = Some d -> (d < next_chan s)%nat)
    (sent run) /\
  NoDup (omap done (sent run)).
End Manager.

Arguments manager O : clear implicits.

(** ** Reading the renderers' output *)

(** The writer and the error in the result of a render function. *)
Definition rendered_writer (r : rendered) : Writer := r.1.2.
Definition rendered_error (r : rendered) : option error := r.2.

(** A decimal digit, and the number a string of digits stands for. *)
Definition is_digit (c : ascii) : bool :=
  (48 <=? Z.of_N (N_of_ascii c)) && (Z.of_N (N_of_ascii c) <=? 57).

Fixpoint digits_value_from (acc : Z) (s : string) : Z :=
  match s with
  | EmptyString => acc
  | String c s' => digits_value_from (10 * acc + (Z.of_N (N_of_ascii c) - 48)) s'
  end.

Definition digits_value (s : string) : Z := digits_value_from 0 s.

Fixpoint all_digits (s : string) : bool :=
  match s with
  | EmptyString => true
  | String c s' => is_digit c && all_digits s'
  end.


(** ** Calling an output several times *)

(** [LogClose] called [k] times in a row, with what each call answered. *)
Fixpoint LogClose_times (k : nat) (o : outputWrapper)
    : outputWrapper * list (option error) :=
  match k with
  | O => (o, [])
  | S k' =>
      let '(o1, e) := outputWrapper_LogClose o in
      let '(o2, es) := LogClose_times k' o1 in
      (o2, e :: es)
  end.

(** ** Removing from an ordered map (map.go) *)

(** [for i, entry := range *m { if entry.Key == key {...} }]: the first entry
    with the key, and its index. *)
Fixpoint find_key (key : string) (m : M) (i : Z) : option (Z * MapEntry) :=
  match m with
  | [] => None
  | entry :: m' =>
      if decide (Key entry = key) then Some (i, entry)
      else find_key key m' (i + 1)
  end.

(** [Remove]: the map afterwards with the two results, [(entry, true)] or
    [(nil, false)]; [None] would be a panic of a slice access. *)
Definition Remove (m : M) (key : string) : option (M * option MapEntry) :=
  match find_key key m 0 with
  | Some (i, entry) =>
      let n := Z.of_nat (length m) in
      x ← index m (n - 1);
      m1 ← store m i x;
      Some (take (Z.to_nat (n - 1)) m1, Some entry)
  | None => Some (m, None)
  end.

(** ** Answers of the outputs *)

(** The places, counted from [i], of the answers that are [ErrOutputClosed]. *)
Fixpoint closed_at (i : Z) (errs : list (option error)) : list Z :=
  match errs with
  | [] => []
  | e :: errs' =>
      (if decide (e = Some ErrOutputClosed) then [i] else [])
      ++ closed_at (i + 1) errs'
  end.


(** ** The Logger (its derivation and its calls of the manager) *)

(** [duplicate(slices...)]: one fresh slice with the contents of all. *)
Definition duplicate {A : Type} (slices : list (list A)) : list A :=
  fold_left (fun s v => s ++ v) slices [].

(** A [Logger] value without its pointer to the manager, which is the state
    the calls below act on. *)
Record Logger : Type := mkLogger {
  lg_block : bool;
  lg_prefix : list string;
  lg_fields : M
}.

Definition NewLogger : Logger := mkLogger false [] [].

Definition Sync (l : Logger) : Logger :=
  mkLogger true (duplicate [lg_prefix l]) (duplicate [lg_fields l]).




Definition AddPrefix (l : Logger) (prefixes : list string) : Logger :=
  mkLogger (lg_block l) (duplicate [lg_prefix l; prefixes])
    (duplicate [lg_fields l]).




Section Facade.
Context {O : Type} `{!Output O}.

(** [for i, v := range m.outputs { fn(i, v) }], for an [fn] that calls
    methods of [v] and does nothing else; on a nil interface value such a
    call panics. *)
Fixpoint forEach_loop (fn : Z -> O -> O) (outs : list ptr) (i : Z)
    (os : gmap ptr O) : option (gmap ptr O) :=
  match outs with
  | [] => Some os
  | p :: outs' =>
      o ← os !! p;
      forEach_loop fn outs' (i + 1) (<[p := fn i o]> os)
  end.

Definition forEach (fn : Z -> O -> O) (s : manager O) : outcome (manager O) :=
  if mu s then Blocks
  else
    os ← of_option (forEach_loop fn (outputs s) 0 (objs s));
    Returns (set_objs s os).

(** [Logger.Log], with [time.Now()] and the formatted message given. *)
Definition Logger_Log (l : Logger) (now : Time) (level : LogLevel)
    (msg : string) (s : manager O)
    : outcome (manager O * (Z * option error)) :=
  let entry := mkEntry now (lg_prefix l) level msg (lg_fields l) [] in
  '(s, err) ← log (Some entry) (lg_block l) s;
  Returns (s, (len (Msg entry), err)).

Definition Logger_SetLogLevel (level : LogLevel) (s : manager O)
    : outcome (manager O) :=
  forEach (fun _ o => SetLogLevel o level) s.

Definition Logger_SetFlags (flags : Z) (s : manager O) : outcome (manager O) :=
  forEach (fun _ o => SetFlags o flags) s.

(** [addOutput] called [n] times in a row with the same output. *)
Fixpoint addOutput_times (n : nat) (p : ptr) (s : manager O)
    : outcome (manager O) :=
  match n with
  | 0%nat => Returns s
  | S n' => s ← addOutput_times n' p s; addOutput p s
  end.

(** What holds of the registry in every state a run gets to from
    [newManager os pl]: the channel is within its capacity; behind every
    registered pointer there is an object, whose registration is on the
    record; and the pointers with an object are those of [os]. *)
Definition well_registered (os : gmap ptr O) (s : manager O) : Prop :=
  (length (ch s) <= capacity)%nat /\
  (forall p, p ∈ outputs s -> is_Some (objs s !! p) /\ Added p ∈ history s) /\
  (forall p, is_Some (objs s !! p) <-> is_Some (os !! p)).

(** [Log] called on the outputs [outs] one after the other, each call with
    the entry and the pool as the call before left them, and the object it
    leaves put back behind its pointer; [errs] are the answers. *)
Inductive logged_in_turn
  : list ptr -> LogEntry -> gmap ptr O -> Pool ->
    LogEntry -> gmap ptr O -> Pool -> list (option error) -> Prop :=
  | logged_nil en os pl : logged_in_turn [] en os pl en os pl []
  | logged_cons p outs en os pl o o' en1 pl1 e en' os' pl' errs :
      os !! p = Some o ->
      Log o en pl = Some (o', en1, pl1, e) ->
      logged_in_turn outs en1 (<[p := o']> os) pl1 en' os' pl' errs ->
      logged_in_turn (p :: outs) en os pl en' os' pl' (e :: errs).


(** The passes of the worker in a run from [s]: for each, the item, the
    state before and the state after. *)
Fixpoint passes (run : list label) (s : manager O)
    : list (managerEntry * manager O * manager O) :=
  match run with
  | [] => []
  | l :: run' =>
      match step l s with
      | Some s' =>
          match l, worker s with
          | LPass, Holding e => (e, s, s') :: passes run' s'
          | _, _ => passes run' s'
          end
      | None => []
      end
  end.

(** A pass has delivered: the entry of its item went through [Log] of every
    output that was registered when the pass began, in the order of the
    registry, and the objects and the pool after the pass are what these
    calls left.  A drain marker goes to no output. *)
Definition delivered (x : managerEntry * manager O * manager O) : Prop :=
  match entry x.1.1 with
  | Some en =>
      exists en' errs,
        logged_in_turn (outputs x.1.2) en (objs x.1.2) (pool x.1.2)
          en' (objs x.2) (pool x.2) errs
  | None => objs x.2 = objs x.1.2
  end.
End Facade.

(** ** Sample values *)

Definition sample_time : Time := mkTime 2024 1 2 3 4 5 0.

Definition sample_entry (msg : string) : LogEntry :=
  mkEntry sample_time [] L_Info msg [] [].

(** A writer that can be closed, and one whose [Close] fails. *)
Definition sample_writer : Writer := mkWriter [] None true None 0.

Definition failing_writer : Writer :=
  mkWriter [] None true (Some (ErrOther "close failed")) 0.

(** A render function of an output that has been torn down: whatever it is
    given, it answers [ErrOutputClosed]. *)
Definition closedLogFunc (buf : bufref) (entry : LogEntry) (flags : Z)
    (w : Writer) (pool : Pool) : option rendered :=
  Some (entry, pool, w, Some ErrOutputClosed).

Definition closed_output : outputWrapper :=
  NewOutputWrapper sample_writer false F_Std T_Text L_Debug
    (Some closedLogFunc) (Some DefaultCloseFunc).

Definition text_output : outputWrapper :=
  NewTextOutput sample_writer F_Std true.

Definition failing_output : outputWrapper :=
  NewTextOutput failing_writer F_Std true.

Definition sample_pool : Pool := mkPool [] 0.

(** * Properties *)

(** ** Strings *)

Lemma str_app_assoc (s1 s2 s3 : string) :
  (s1 ++ (s2 ++ s3))%string = ((s1 ++ s2) ++ s3)%string.
Proof.
  induction s1 as [|c s1 IH]; [reflexivity|].
  change (String c (s1 ++ (s2 ++ s3)) = String c ((s1 ++ s2) ++ s3))%string.
  now rewrite IH.
Qed.

(** ** Levels *)

(** C10: [LogLevel.String] answers "DEGUB" for Debug, "INFO", "WARN", "ERROR"
    and "FATAL" for the next four levels and "UNKNOWN" for every ordinal
    outside 0-4; it is this label that the JSON renderer stores under "level"
    and that the text renderer puts between brackets before the message. *)
Theorem LogLevel_String_table :
  LogLevel_String L_Debug = "DEGUB" /\
  LogLevel_String L_Info = "INFO" /\
  LogLevel_String L_Warn = "WARN" /\
  LogLevel_String L_Error = "ERROR" /\
  LogLevel_String L_Fatal = "FATAL" /\
  (forall l : LogLevel, l < 0 \/ 4 < l -> LogLevel_String l = "UNKNOWN") /\
  (forall entry flags,
     has flags F_Level = true ->
     ("level", VString (LogLevel_String (Level entry)))
       ∈ JSONLogFunc_m entry flags) /\
  (forall buf entry w pool,
     exists entry' pool' w' err,
       TextLogFunc buf entry F_Level w pool = Some (entry', pool', w', err) /\
       written w' =
         written w ++
           [(bytes buf ++ "[" ++ LogLevel_String (Level entry) ++ "] "
               ++ Msg entry)%string]).
Proof.
  repeat split.
  - intros l Hl. unfold LogLevel_String.
    destruct l as [|p|p]; try reflexivity; try lia.
    do 3 (destruct p as [p|p|]; try reflexivity; try lia).
  - intros entry flags Hf. unfold JSONLogFunc_m, Add.
    apply elem_of_app; left.
    assert (Hin : ("level", VString (LogLevel_String (Level entry)))
                    ∈ JSON_head entry flags).
    { unfold JSON_head, Add. rewrite Hf.
      apply elem_of_app; right. apply list_elem_of_singleton. reflexivity. }
    unfold JSON_fields, Add, AddE.
    repeat match goal with
           | |- context [if ?c then _ else _] => destruct c
           end;
      try apply elem_of_app; auto.
  - intros buf entry w pool. unfold TextLogFunc.
    unfold Text_time, Text_newline.
    change (has F_Level (Z.lor F_Time F_Micro)) with false.
    change (has F_Level (Z.lor F_Prefix F_LastPrefix)) with false.
    change (has F_Level F_Level) with true.
    change (has F_Level F_NewLine) with false.
    rewrite andb_false_r. cbn [mbind option_bind].
    destruct (AddCompiled F_Level T_Text _ entry pool) as [entry' pool'] eqn:E.
    eexists _, _, _, _. split; [reflexivity|].
    cbn. rewrite <- !str_app_assoc. reflexivity.
Qed.

Lemma LogLevel_String_table_witness :
  (7 < 0 \/ 4 < 7) /\ LogLevel_String 7 = "UNKNOWN".
Proof.
  split; [right; lia|].
  apply (proj1 (proj2 (proj2 (proj2 (proj2 (proj2 LogLevel_String_table)))))).
  right; lia.
Defined.

(** ** The compiled-output cache *)

Lemma find_compiled_None flags outputType cs :
  find_compiled flags outputType cs = None <->
  (flags, outputType) ∉ cache_key <$> cs.
Proof.
  induction cs as [|v cs IH]; cbn.
  - split; [intros _; apply not_elem_of_nil | reflexivity].
  - rewrite not_elem_of_cons, <- IH. unfold cache_key at 1.
    destruct (Z.eqb_spec (Flag v) flags) as [Ef|Ef];
      destruct (Z.eqb_spec (OutputTypeOf v) outputType) as [Et|Et]; cbn.
    + subst. split; [discriminate | intros [H _]; now contradiction H].
    + split; [intros H; split; [congruence | exact H] | tauto].
    + split; [intros H; split; [congruence | exact H] | tauto].
    + split; [intros H; split; [congruence | exact H] | tauto].
Qed.

Lemma find_compiled_Some flags outputType cs c :
  find_compiled flags outputType cs = Some c ->
  c ∈ cs /\ Flag c = flags /\ OutputTypeOf c = outputType.
Proof.
  induction cs as [|v cs IH]; cbn; [discriminate|].
  destruct (Z.eqb_spec (Flag v) flags) as [Ef|Ef];
    destruct (Z.eqb_spec (OutputTypeOf v) outputType) as [Et|Et]; cbn;
    try (intros H; destruct (IH H) as (?&?&?); repeat split; auto;
         now apply list_elem_of_further).
  intros [= <-]. repeat split; auto. apply list_elem_of_here.
Qed.

Lemma cache_ok_empty : cache_ok [].
Proof. apply NoDup_nil_2. Qed.

Lemma AddCompiled_cache_ok flags outputType buf entry pool :
  cache_ok (CompiledOf entry) ->
  cache_ok (CompiledOf (AddCompiled flags outputType buf entry pool).1).
Proof.
  intros Hok. unfold AddCompiled.
  destruct (has flags F_NotSave); [exact Hok|].
  destruct (find_compiled flags outputType (CompiledOf entry)) as [c|] eqn:Hf;
    [exact Hok|].
  pose proof (proj1 (find_compiled_None _ _ _) Hf) as Hnot.
  cbn. unfold cache_ok. rewrite fmap_app. apply NoDup_app. repeat split.
  - exact Hok.
  - intros k Hk Hk'. cbn in Hk'. apply list_elem_of_singleton in Hk'.
    subst k. exact (Hnot Hk).
  - cbn. apply NoDup_singleton.
Qed.

(** Both renderers and the stock output reach the cache through
    [AddCompiled] only. *)
Lemma TextLogFunc_cache_ok buf entry flags w pool entry' pool' w' err :
  TextLogFunc buf entry flags w pool = Some (entry', pool', w', err) ->
  cache_ok (CompiledOf entry) -> cache_ok (CompiledOf entry').
Proof.
  unfold TextLogFunc. intros H Hok.
  destruct (Text_time _ _ _) as [b1|]; [|discriminate]. cbn [mbind option_bind] in H.
  destruct (Text_newline _ _ _) as [b2|]; [|discriminate].
  cbn [mbind option_bind] in H.
  pose proof (AddCompiled_cache_ok flags T_Text b2 entry pool Hok) as Hok'.
  destruct (AddCompiled flags T_Text b2 entry pool) as [en pl].
  destruct (Write w (bytes b2)) as [w1 e1]. injection H as <- _ _ _. exact Hok'.
Qed.

Lemma JSONLogFunc_cache_ok marshal buf entry flags w pool entry' pool' w' err :
  JSONLogFunc marshal buf entry flags w pool = Some (entry', pool', w', err) ->
  cache_ok (CompiledOf entry) -> cache_ok (CompiledOf entry').
Proof.
  unfold JSONLogFunc. intros H Hok.
  destruct (marshal _) as [json|]; [|discriminate]. cbn [mbind option_bind] in H.
  destruct (newBuf pool) as [data pl0].
  match type of H with
  | context [AddCompiled flags T_JSON ?d entry pl0] =>
      pose proof (AddCompiled_cache_ok flags T_JSON d entry pl0 Hok) as Hok1;
      destruct (AddCompiled flags T_JSON d entry pl0) as [en1 pl1];
      set (dd := d) in *
  end.
  pose proof (AddCompiled_cache_ok F_NotSave T_JSON buf en1 pl1 Hok1) as Hok2.
  destruct (AddCompiled F_NotSave T_JSON buf en1 pl1) as [en2 pl2].
  destruct (Write w (bytes dd)) as [w1 e1]. injection H as <- _ _ _. exact Hok2.
Qed.

(** C6: [AddCompiled] keeps the cache free of duplicate (flags, output type)
    pairs; when the pair is already cached the entry is left as it is and the
    new buffer goes to the pool, so that a lookup still answers the buffer
    that was cached first. *)
Theorem AddCompiled_cache_invariant flags outputType buf entry pool :
  cache_ok (CompiledOf entry) ->
  cache_ok (CompiledOf (AddCompiled flags outputType buf entry pool).1) /\
  ((flags, outputType) ∈ cache_key <$> CompiledOf entry ->
   AddCompiled flags outputType buf entry pool = (entry, putBuf buf pool)) /\
  (forall first,
     GetCompiled flags outputType entry = Some first ->
     GetCompiled flags outputType
       (AddCompiled flags outputType buf entry pool).1 = Some first).
Proof.
  intros Hok. split; [now apply AddCompiled_cache_ok|].
  unfold AddCompiled.
  destruct (has flags F_NotSave) eqn:Hns.
  { cbn. split; auto. }
  destruct (find_compiled flags outputType (CompiledOf entry)) as [c|] eqn:Hf.
  { cbn. split; auto. }
  pose proof (proj1 (find_compiled_None _ _ _) Hf) as Hnot.
  cbn. split.
  - intros Hin. contradiction.
  - intros first. unfold GetCompiled. rewrite Hns, Hf. discriminate.
Qed.

Lemma AddCompiled_cache_invariant_witness :
  let old := mkCompiled 5 T_Text (mkBuf 0 "first") in
  let entry := mkEntry (mkTime 2024 1 2 3 4 5 0) [] L_Info "hello" [] [old] in
  let pool := mkPool [] 1 in
  let buf := mkBuf 7 "second" in
  cache_ok (CompiledOf entry) /\
  AddCompiled 5 T_Text buf entry pool = (entry, putBuf buf pool).
Proof.
  intros old entry pool buf.
  assert (Hok : cache_ok (CompiledOf entry)).
  { unfold cache_ok. cbn. apply NoDup_singleton. }
  split; [exact Hok|].
  apply (proj1 (proj2 (AddCompiled_cache_invariant 5 T_Text buf entry pool Hok))).
  cbn. apply list_elem_of_here.
Defined.

(** C7: on a record with an empty cache, [AddCompiled(5, Text, buf)] followed
    by [GetCompiled(5, Text)] answers [buf], and [GetCompiled(5, JSON)]
    answers nothing. *)
Theorem cache_round_trip t prefixes level msg fields buf pool :
  let entry := mkEntry t prefixes level msg fields [] in
  let entry' := (AddCompiled 5 T_Text buf entry pool).1 in
  GetCompiled 5 T_Text entry' = Some buf /\
  GetCompiled 5 T_JSON entry' = None.
Proof. split; reflexivity. Qed.

(** ** The text renderer *)

Lemma quot_lt_bound (n k q : Z) : 0 < k -> 0 < q -> n < k * q -> Z.quot n k < q.
Proof.
  intros Hk Hq Hn. destruct (Z.lt_ge_cases n 0) as [Hneg|Hpos].
  - assert (Z.quot n k <= Z.quot 0 k) by (apply Z.quot_le_mono; lia).
    rewrite Z.quot_0_l in H by lia. lia.
  - rewrite Z.quot_div_nonneg by lia. apply Z.div_lt_upper_bound; lia.
Qed.

(** With a cell of [b] for every digit and every place of the width, the
    index never leaves the array. *)
Lemma wrap64_small (x : Z) : - 2 ^ 63 <= x < 2 ^ 63 -> wrap64 x = x.
Proof. intros H. unfold wrap64. rewrite Z.mod_small; lia. Qed.

(** With a cell of [b] for every digit and every place of the width, and a
    width that the countdown does not take below the least [int], the index
    never leaves the array. *)
Lemma appendInt_loop_Some (room : nat) : forall n w acc,
  (1 <= room)%nat -> n < 10 ^ Z.of_nat room ->
  - 2 ^ 63 + Z.of_nat room <= w <= Z.of_nat room ->
  Z.of_nat room <= 2 ^ 63 ->
  is_Some (appendInt_loop room n w acc).
Proof.
  induction room as [|room IH]; intros n w acc Hroom Hn Hw Hbig; [lia|].
  cbn [appendInt_loop].
  destruct ((10 <=? n) || (1 <? w)) eqn:Hc; [|eauto].
  destruct room as [|room'].
  - exfalso. change (10 ^ Z.of_nat 1) with 10 in Hn.
    apply orb_true_iff in Hc as [Hc|Hc]; [apply Z.leb_le in Hc | apply Z.ltb_lt in Hc]; lia.
  - rewrite wrap64_small by lia.
    apply IH; [lia| |lia|lia].
    apply quot_lt_bound; [lia | apply Z.pow_pos_nonneg; lia |].
    rewrite <- Z.pow_succ_r by lia. rewrite <- Nat2Z.inj_succ. exact Hn.
Qed.

Lemma appendInt_Some buf n w :
  n < 2 ^ 63 -> - 2 ^ 63 + 20 <= w <= 20 -> is_Some (appendInt buf n w).
Proof.
  intros Hn Hw. unfold appendInt.
  destruct (appendInt_loop_Some 20 n w "") as [x Hx]; [lia| |lia|lia|].
  - assert (2 ^ 63 < 10 ^ Z.of_nat 20) by reflexivity. lia.
  - rewrite Hx. eauto.
Qed.

Lemma Text_time_Some buf t flags :
  Time_ok t -> is_Some (Text_time buf t flags).
Proof.
  intros (Hy & Hmo & Hd & Hh & Hmi & Hs & Hn). unfold is_int in *.
  unfold Text_time. destruct (has flags (Z.lor F_Time F_Micro)); [|eauto].
  destruct (appendInt_Some buf (Day t) 2) as [b1 ->]; [lia..|].
  cbn [mbind option_bind].
  destruct (appendInt_Some (append b1 "/") (Month t) 2) as [b2 ->]; [lia..|].
  cbn [mbind option_bind].
  destruct (appendInt_Some (append b2 "/") (Year t) 4) as [b3 ->]; [lia..|].
  cbn [mbind option_bind].
  destruct (appendInt_Some (append b3 " ") (Hour t) 2) as [b4 ->]; [lia..|].
  cbn [mbind option_bind].
  destruct (appendInt_Some (append b4 ":") (Minute t) 2) as [b5 ->]; [lia..|].
  cbn [mbind option_bind].
  destruct (appendInt_Some (append b5 ":") (Second t) 2) as [b6 ->]; [lia..|].
  cbn [mbind option_bind].
  destruct (has flags F_Micro); cbn [mbind option_bind]; [|eauto].
  destruct (appendInt_Some (append b6 ".") (Z.quot (Nanosecond t) 1000) 6)
    as [b7 ->]; [|lia|cbn; eauto].
  apply quot_lt_bound; lia.
Qed.

Lemma get_last_Some (s : string) : forall a,
  is_Some (String.get (String.length s) (String a s)).
Proof.
  induction s as [|c s IH]; intros a; [cbn; eauto|].
  change (is_Some (String.get (String.length s) (String c s))). apply IH.
Qed.

Lemma last_byte_in_range (msg : string) :
  msg <> "" -> is_Some (str_index msg (len msg - 1)).
Proof.
  destruct msg as [|a s]; [congruence|]. intros _.
  unfold str_index, len. cbn [String.length].
  replace (Z.of_nat (S (String.length s)) - 1) with (Z.of_nat (String.length s))
    by lia.
  destruct (Z.ltb_spec (Z.of_nat (String.length s)) 0) as [H|_]; [lia|].
  rewrite Nat2Z.id. apply get_last_Some.
Qed.

(** The rendering of the package's own example: time, level and newline. *)
Example TextLogFunc_sample :
  (fun r : rendered => written r.1.2) <$>
    TextLogFunc (mkBuf 0 "") (sample_entry "hello")
      (Z.lor F_Time (Z.lor F_Level F_NewLine))
      (mkWriter [] None false None 0) sample_pool
  = Some ["02/01/2024 03:04:05 [INFO] hello" ++ String newline ""]%string.
Proof. vm_compute. reflexivity. Qed.

(** C9: with the newline flag set the text renderer indexes the last byte of
    the message whatever the message is; the index is out of range for the
    empty message and in range for every other one, and this is the only way
    for [TextLogFunc] to panic. *)
Theorem TextLogFunc_newline_index buf entry flags w pool :
  Time_ok (Time_ entry) ->
  (forall b, has flags F_NewLine = true ->
     Text_newline b (Msg entry) flags =
       c ← str_index (Msg entry) (len (Msg entry) - 1);
       Some (if Ascii.eqb c newline then b else append b (String newline ""))) /\
  (Msg entry = "" -> str_index (Msg entry) (len (Msg entry) - 1) = None) /\
  (Msg entry <> "" -> is_Some (str_index (Msg entry) (len (Msg entry) - 1))) /\
  (TextLogFunc buf entry flags w pool = None <->
   has flags F_NewLine = true /\ Msg entry = "").
Proof.
  intros Ht. split; [|split; [|split]].
  - intros b Hnl. unfold Text_newline. now rewrite Hnl.
  - intros ->. reflexivity.
  - apply last_byte_in_range.
  - unfold TextLogFunc.
    destruct (Text_time_Some buf (Time_ entry) flags Ht) as [b1 ->].
    cbn [mbind option_bind].
    match goal with
    | |- context [Text_newline ?b _ _] => generalize b
    end.
    intros b2. unfold Text_newline.
    destruct (has flags F_NewLine) eqn:Hnl.
    + destruct (string_dec (Msg entry) "") as [Hm|Hm].
      * rewrite Hm. cbn. tauto.
      * destruct (last_byte_in_range _ Hm) as [c ->]. cbn [mbind option_bind].
        destruct (AddCompiled _ _ _ _ _) as [en pl].
        destruct (Write _ _) as [w' err].
        split; [discriminate | tauto].
    + cbn [mbind option_bind].
      destruct (AddCompiled _ _ _ _ _) as [en pl].
      destruct (Write _ _) as [w' err].
      split; [discriminate | intros [? _]; discriminate].
Qed.

Lemma TextLogFunc_newline_index_witness :
  let entry := mkEntry (mkTime 2024 1 2 3 4 5 0) [] L_Info "" [] [] in
  let w := mkWriter [] None false None 0 in
  Time_ok (Time_ entry) /\
  (TextLogFunc (mkBuf 0 "") entry F_NewLine w (mkPool [] 1) = None <->
   has F_NewLine F_NewLine = true /\ Msg entry = "").
Proof.
  intros entry w.
  assert (Ht : Time_ok (Time_ entry)).
  { unfold Time_ok, is_int. cbn. lia. }
  split; [exact Ht|].
  apply (proj2 (proj2 (proj2
    (TextLogFunc_newline_index (mkBuf 0 "") entry F_NewLine w (mkPool [] 1) Ht)))).
Defined.

(** ** The JSON renderer *)

(** Without a field bit the fields are left out. *)
Example JSONLogFunc_m_sample :
  JSONLogFunc_m
    (mkEntry sample_time [] L_Info "hello" [("a", VOther "1")] []) F_Level
  = [("level", VString "INFO"); ("msg", VString "hello")].
Proof. reflexivity. Qed.

(** C5, as the code has it: on a record with fields and a flag word with any
    of the three field bits, the fields are embedded in exactly one style, the
    first one set in the order nested object ([F_Fields_A]), top-level keys
    ([F_Fields]), nested array ([F_Fields_B]). *)
Theorem JSON_fields_precedence entry flags st :
  Fields entry <> [] ->
  precedence_doc flags = Some st ->
  JSONLogFunc_m entry flags =
    Add (embed st (Fields entry) (JSON_head entry flags))
      "msg" (VString (Msg entry)).
Proof.
  intros Hf Hst. unfold JSONLogFunc_m. f_equal.
  unfold JSON_fields, precedence_doc in *.
  assert (Hlen : negb (length (Fields entry) =? 0)%nat = true).
  { destruct (Fields entry); [congruence | reflexivity]. }
  rewrite Hlen. cbn [andb].
  assert (Hany : has flags (Z.lor F_Fields (Z.lor F_Fields_A F_Fields_B)) = true).
  { unfold has in *. apply negb_true_iff, Z.eqb_neq. intros Hz.
    assert (Ha : Z.land flags F_Fields_A = 0).
    { apply Z.bits_inj'. intros n Hn. rewrite Z.bits_0.
      apply (f_equal (fun x => Z.testbit x n)) in Hz.
      rewrite Z.bits_0, Z.land_spec, !Z.lor_spec in Hz.
      rewrite Z.land_spec.
      destruct (Z.testbit flags n); cbn in *; [|reflexivity].
      apply orb_false_iff in Hz as [_ Hz]. apply orb_false_iff in Hz as [Hz _].
      exact Hz. }
    assert (Hb : Z.land flags F_Fields = 0).
    { apply Z.bits_inj'. intros n Hn. rewrite Z.bits_0.
      apply (f_equal (fun x => Z.testbit x n)) in Hz.
      rewrite Z.bits_0, Z.land_spec, !Z.lor_spec in Hz.
      rewrite Z.land_spec.
      destruct (Z.testbit flags n); cbn in *; [|reflexivity].
      apply orb_false_iff in Hz as [Hz _]. exact Hz. }
    assert (Hc : Z.land flags F_Fields_B = 0).
    { apply Z.bits_inj'. intros n Hn. rewrite Z.bits_0.
      apply (f_equal (fun x => Z.testbit x n)) in Hz.
      rewrite Z.bits_0, Z.land_spec, !Z.lor_spec in Hz.
      rewrite Z.land_spec.
      destruct (Z.testbit flags n); cbn in *; [|reflexivity].
      apply orb_false_iff in Hz as [_ Hz]. apply orb_false_iff in Hz as [_ Hz].
      exact Hz. }
    rewrite Ha, Hb, Hc in Hst. cbn in Hst. discriminate. }
  rewrite Hany.
  destruct (has flags F_Fields_A); [injection Hst as <-; reflexivity|].
  destruct (has flags F_Fields); [injection Hst as <-; reflexivity|].
  destruct (has flags F_Fields_B); [injection Hst as <-; reflexivity|].
  discriminate.
Qed.

Lemma JSON_fields_precedence_witness :
  let entry :=
    mkEntry (mkTime 2024 1 2 3 4 5 0) [] L_Info "hello" [("a", VOther "1")] [] in
  let flags := Z.lor F_Fields (Z.lor F_Fields_A F_Fields_B) in
  several_styles flags = true /\
  Fields entry <> [] /\
  precedence_doc flags = Some NestedObject /\
  JSONLogFunc_m entry flags =
    [("fields", VM [("a", VOther "1")]); ("msg", VString "hello")].
Proof.
  intros entry flags.
  assert (Hf : Fields entry <> []) by discriminate.
  assert (Hp : precedence_doc flags = Some NestedObject) by reflexivity.
  split; [reflexivity|]. split; [exact Hf|]. split; [exact Hp|].
  exact (JSON_fields_precedence entry flags NestedObject Hf Hp).
Defined.

(** C5, as the specification words it (top-level keys over nested object over
    nested array), fails: with both [F_Fields] and [F_Fields_A] set the
    fields come out as a nested object, not as top-level keys. *)
Lemma spec_precedence_counterexample :
  let entry :=
    mkEntry (mkTime 2024 1 2 3 4 5 0) [] L_Info "hello" [("a", VOther "1")] [] in
  let flags := Z.lor F_Fields F_Fields_A in
  several_styles flags = true /\
  Fields entry <> [] /\
  precedence_spec flags = Some TopLevel /\
  JSONLogFunc_m entry flags =
    [("fields", VM [("a", VOther "1")]); ("msg", VString "hello")] /\
  JSONLogFunc_m entry flags <>
    Add (embed TopLevel (Fields entry) (JSON_head entry flags))
      "msg" (VString (Msg entry)).
Proof.
  intros entry flags. repeat split; discriminate.
Qed.

(** ** The manager *)

Lemma outcome_bind_Returns {A B : Type} (x : outcome A) (f : A -> outcome B) y :
  x ≫= f = Returns y -> exists a, x = Returns a /\ f a = Returns y.
Proof. destruct x as [a| |]; cbn; [eauto | discriminate..]. Qed.

Lemma of_option_Returns {A : Type} (x : option A) a :
  of_option x = Returns a -> x = Some a.
Proof. destruct x; cbn; congruence. Qed.

Section ManagerFacts.
Context {O : Type} `{!Output O}.
Implicit Types s : manager O.

Lemma pass_spec e s s' cs :
  pass e s = Some (s', cs) ->
  same_control s s' /\
  signalled s' = signalled s /\
  history s' =
    history s ++ [Handled e (if entry e is Some _ then outputs s else [])].
Proof.
  unfold pass, same_control. destruct (entry e) as [en|].
  - destruct (sweep _ _ _ _ _ _) as [[[[en' os] pl] rm]|]; [|discriminate].
    cbn [mbind option_bind].
    destruct (compact _ _ _) as [outs|]; [|discriminate].
    cbn [mbind option_bind]. intros [= <- _]. cbn. auto 10.
  - intros [= <- _]. cbn. auto 10.
Qed.

Lemma finish_spec e cs s :
  mu (finish e cs s) = mu s /\ b (finish e cs s) = b s /\
  ch (finish e cs s) = ch s /\ ch_closed (finish e cs s) = ch_closed s /\
  next_chan (finish e cs s) = next_chan s /\
  outputs (finish e cs s) = outputs s /\
  worker (finish e cs s) = Idle /\
  signalled (finish e cs s) = signalled s ++ option_list (done e) /\
  history (finish e cs s) = history s.
Proof.
  unfold finish. destruct (done e); cbn; rewrite ?app_nil_r; auto 10.
Qed.

Lemma handle_spec e s s' :
  handle e s = Some s' ->
  (mu s' = mu s /\ b s' = b s /\ ch s' = ch s /\
   ch_closed s' = ch_closed s /\ next_chan s' = next_chan s) /\
  worker s' = Idle /\
  signalled s' = signalled s ++ option_list (done e) /\
  history s' =
    history s ++ [Handled e (if entry e is Some _ then outputs s else [])].
Proof.
  unfold handle. destruct (pass e s) as [[s1 cs]|] eqn:Hp; [|discriminate].
  cbn [mbind option_bind]. intros [= <-].
  apply pass_spec in Hp as ((Hm & Hb & Hch & Hcc & _ & Hn) & Hsg & Hh).
  destruct (finish_spec e cs s1) as (F1 & F2 & F3 & F4 & F5 & _ & F7 & F8 & F9).
  rewrite F1, F2, F3, F4, F5, F7, F8, F9, Hm, Hb, Hch, Hcc, Hn, Hsg, Hh.
  auto 10.
Qed.

Lemma close_all_spec outs : forall s s',
  close_all outs s = Some s' ->
  same_control s s' /\ outputs s' = outputs s /\
  signalled s' = signalled s /\
  exists errs,
    length errs = length outs /\
    history s' = history s ++ zip_with Closed outs errs.
Proof.
  induction outs as [|p outs IH]; intros s s'; cbn [close_all].
  - intros [= <-]. unfold same_control. repeat split; auto.
    exists []. cbn. now rewrite app_nil_r.
  - destruct (objs s !! p) as [o|]; [|discriminate]. cbn [mbind option_bind].
    destruct (LogClose o) as [o' err].
    intros Hc. destruct (IH _ _ Hc) as (Hs & Ho & Hsg & errs & Hl & Hh).
    unfold same_control in *. cbn in *. repeat split; try tauto.
    exists (err :: errs). cbn. split; [lia|].
    rewrite Hh, <- app_assoc. reflexivity.
Qed.

Lemma work_flags s s' :
  work s = Returns s' -> mu s' = mu s /\ b s' = b s.
Proof.
  unfold work. destruct (worker s) as [|e|e cs].
  - intros [= <-]; auto.
  - destruct (can_handle e s); [|discriminate].
    intros H. apply of_option_Returns, handle_spec in H.
    destruct H as ((Hm & Hb & _) & _). auto.
  - intros [= <-]. destruct (finish_spec e cs s) as (F1 & F2 & _). auto.
Qed.

Lemma recv_flags s : mu (recv s) = mu s /\ b (recv s) = b s.
Proof. unfold recv. destruct (worker s), (ch s); auto. Qed.

Lemma send_flags e s s' :
  send e s = Returns s' -> mu s' = mu s /\ b s' = b s.
Proof.
  unfold send. destruct (ch_closed s); [discriminate|].
  destruct (length (ch s) <? capacity)%nat; [intros [= <-]; auto|].
  intros H. apply outcome_bind_Returns in H as (s1 & Hw & H).
  injection H as <-. apply work_flags in Hw.
  destruct (recv_flags s1). cbn. intuition congruence.
Qed.

Lemma wait_flags n d : forall s s',
  wait n d s = Returns s' -> mu s' = mu s /\ b s' = b s.
Proof.
  induction n as [|n IH]; intros s s'; cbn [wait];
    destruct (decide (d ∈ signalled s)); try (intros [= <-]; auto; fail);
    try discriminate.
  intros H. apply outcome_bind_Returns in H as (s1 & Hw & H).
  apply work_flags in Hw. apply IH in H. destruct (recv_flags s).
  intuition congruence.
Qed.

Lemma Close_reply s s' r :
  Close s = Returns (s', r) -> r = None \/ r = Some ErrManagerClosed.
Proof.
  unfold Close, make_chan. cbn [fst snd].
  destruct (b (set_next_chan s (S (next_chan s)))); [intros [= _ <-]; auto|].
  intros H.
  apply outcome_bind_Returns in H as (s1 & _ & H).
  apply outcome_bind_Returns in H as (s2 & _ & H).
  apply outcome_bind_Returns in H as (s3 & _ & H).
  destruct (mu s3); [discriminate|].
  apply outcome_bind_Returns in H as (s4 & _ & H).
  injection H as _ <-. auto.
Qed.

Lemma Close_done s s' :
  Close s = Returns (s', None) ->
  b s' = true /\ mu s' = false /\ outputs s' = [].
Proof.
  unfold Close, make_chan. cbn [fst snd].
  destruct (b (set_next_chan s (S (next_chan s)))); [discriminate|].
  intros H.
  apply outcome_bind_Returns in H as (s1 & H1 & H).
  apply outcome_bind_Returns in H as (s2 & H2 & H).
  apply outcome_bind_Returns in H as (s3 & H3 & H).
  destruct (mu s3) eqn:Hmu; [discriminate|].
  apply outcome_bind_Returns in H as (s4 & H4 & H).
  injection H as <-.
  apply send_flags in H1. apply wait_flags in H3.
  apply of_option_Returns, close_all_spec in H4.
  destruct H4 as ((Hm4 & Hb4 & _) & _).
  assert (b s2 = b s1 /\ mu s2 = mu s1) as [Hb2 Hm2].
  { destruct (ch_closed s1); [discriminate|]. injection H2 as <-. auto. }
  cbn in *. intuition congruence.
Qed.

(** C4, as the code has it: once [Close] has succeeded, [log] and a second
    [Close] answer [ErrManagerClosed] and leave the registry, the outputs,
    the channel and the record of events as they are; [addOutput] does
    nothing and has nothing to answer with; [removeOutput] answers [false],
    the registry being empty. *)
Theorem after_Close s s' en block p :
  Close s = Returns (s', None) ->
  (exists s'',
     perform (CLog en block) s' =
       Returns (s'', RError (Some ErrManagerClosed)) /\
     outputs s'' = outputs s' /\ objs s'' = objs s' /\ pool s'' = pool s' /\
     ch s'' = ch s' /\ worker s'' = worker s' /\ history s'' = history s') /\
  (exists s'',
     perform CClose s' = Returns (s'', RError (Some ErrManagerClosed)) /\
     outputs s'' = outputs s' /\ objs s'' = objs s' /\ pool s'' = pool s' /\
     ch s'' = ch s' /\ worker s'' = worker s' /\ history s'' = history s') /\
  perform (CAdd p) s' = Returns (s', RNothing) /\
  perform (CRemove p) s' = Returns (s', RBool false).
Proof.
  intros H. apply Close_done in H as (Hb & Hmu & Houts).
  split; [|split; [|split]].
  - unfold perform, log, make_chan. destruct block.
    + exists (set_next_chan s' (S (next_chan s'))). cbn. rewrite Hb. cbn. auto 10.
    + exists s'. rewrite Hb. cbn. auto 10.
  - exists (set_next_chan s' (S (next_chan s'))).
    unfold perform, Close, make_chan. cbn. rewrite Hb. cbn. auto 10.
  - unfold perform, addOutput. rewrite Hb. reflexivity.
  - unfold perform, removeOutput, remove_locked. rewrite Hmu, Houts. reflexivity.
Qed.

(** *** Arrival order *)

Lemma handled_app h1 h2 : handled (h1 ++ h2) = handled h1 ++ handled h2.
Proof. unfold handled. apply omap_app. Qed.

Lemma handled_Closed ps errs : handled (zip_with Closed ps errs) = [].
Proof.
  revert errs. induction ps as [|p ps IH]; intros [|err errs]; cbn; auto.
Qed.

Lemma handled_split h : forall l1 e l2,
  handled h = l1 ++ e :: l2 ->
  exists h1 outs h2,
    h = h1 ++ Handled e outs :: h2 /\ handled h1 = l1 /\ handled h2 = l2.
Proof.
  induction h as [|ev h IH]; intros l1 e l2 Hh.
  - destruct l1; discriminate.
  - destruct ev as [e' outs|p|p err].
    + change (e' :: handled h = l1 ++ e :: l2) in Hh.
      destruct l1 as [|x l1].
      * injection Hh as -> Hh. exists [], outs, h. auto.
      * injection Hh as -> Hh. destruct (IH _ _ _ Hh) as (h1 & o & h2 & -> & <- & <-).
        exists (Handled x outs :: h1), o, h2. auto.
    + change (handled h = l1 ++ e :: l2) in Hh.
      destruct (IH _ _ _ Hh) as (h1 & o & h2 & -> & <- & <-).
      exists (Added p :: h1), o, h2. auto.
    + change (handled h = l1 ++ e :: l2) in Hh.
      destruct (IH _ _ _ Hh) as (h1 & o & h2 & -> & <- & <-).
      exists (Closed p err :: h1), o, h2. auto.
Qed.

Lemma sent_app r1 r2 : sent (r1 ++ r2) = sent r1 ++ sent r2.
Proof. unfold sent. apply omap_app. Qed.

Lemma exec_app r1 : forall r2 s,
  exec (r1 ++ r2) s = (s' ← exec r1 s; exec r2 s').
Proof.
  induction r1 as [|l r1 IH]; intros r2 s; cbn; [reflexivity|].
  destruct (step l s) as [s1|]; cbn; [apply IH | reflexivity].
Qed.

(** An item whose done channel occurs once in a list has one place in it. *)
Lemma unique_place {A : Type} (f : A -> option chan) (l1 : list A) :
  forall l1' x x' l2 l2' d,
    NoDup (omap f (l1 ++ x :: l2)) ->
    l1 ++ x :: l2 = l1' ++ x' :: l2' ->
    f x = Some d -> f x' = Some d ->
    l1 = l1' /\ x = x' /\ l2 = l2'.
Proof.
  induction l1 as [|y l1 IH]; intros l1' x x' l2 l2' d Hnd Heq Hx Hx'.
  - destruct l1' as [|y' l1'].
    + injection Heq as -> ->. auto.
    + injection Heq as -> ->. exfalso.
      cbn in Hnd. rewrite Hx in Hnd. apply NoDup_cons in Hnd as [Hnot _].
      apply Hnot. apply list_elem_of_omap. exists x'. split; [|exact Hx'].
      apply elem_of_app. right. apply list_elem_of_here.
  - destruct l1' as [|y' l1'].
    + injection Heq as -> <-. exfalso.
      cbn in Hnd. rewrite Hx' in Hnd. apply NoDup_cons in Hnd as [Hnot _].
      apply Hnot. apply list_elem_of_omap. exists x. split; [|exact Hx].
      apply elem_of_app. right. apply list_elem_of_here.
    + injection Heq as -> Heq.
      assert (Hnd' : NoDup (omap f (l1 ++ x :: l2))).
      { cbn in Hnd. destruct (f y'); [apply NoDup_cons in Hnd as [_ Hnd]|]; exact Hnd. }
      destruct (IH _ _ _ _ _ _ Hnd' Heq Hx Hx') as (-> & -> & ->). auto.
Qed.

Lemma fifo_init (os : gmap ptr O) pl : fifo [] (newManager os pl).
Proof.
  unfold fifo. cbn. repeat split; [constructor | apply NoDup_nil_2].
Qed.

Lemma fifo_same run s s' :
  fifo run s -> same_control s s' ->
  handled (history s') = handled (history s) -> signalled s' = signalled s ->
  fifo run s'.
Proof.
  unfold fifo, same_control.
  intros (H1 & H2 & H3 & H4) (_ & _ & Hch & _ & Hw & Hn) Hh Hs.
  rewrite Hh, Hs, Hch, Hw, Hn. auto.
Qed.

Lemma fifo_other run l s :
  fifo run s ->
  match l with LSend _ => False | _ => True end ->
  fifo (run ++ [l]) s.
Proof.
  unfold fifo. rewrite sent_app. intros H Hl.
  destruct l; try contradiction; cbn; rewrite app_nil_r; exact H.
Qed.

Lemma fifo_step run l s s' :
  fifo run s -> step l s = Some s' -> fifo (run ++ [l]) s'.
Proof.
  intros Hinv Hstep. destruct l as [e| | | |d| | | |p|p| |]; cbn [step] in Hstep.
  - (* LSend *)
    destruct (ch_closed s || negb (length (ch s) <? capacity)%nat); [discriminate|].
    destruct Hinv as (H1 & H2 & H3 & H4). unfold fifo. rewrite sent_app.
    change (sent [LSend e]) with [e].
    destruct (done e) as [d|] eqn:Hd.
    + destruct (decide (d = next_chan s)) as [->|]; [|discriminate].
      injection Hstep as <-. cbn. repeat split.
      * rewrite <- H1, <- !app_assoc. reflexivity.
      * exact H2.
      * apply Forall_app. split.
        -- eapply Forall_impl; [exact H3|]. cbn. intros x Hx d' Hd'.
           specialize (Hx d' Hd'). lia.
        -- apply Forall_singleton. intros d' Hd'. rewrite Hd in Hd'.
           injection Hd' as <-. lia.
      * rewrite omap_app. cbn. rewrite Hd. cbn. apply NoDup_app. repeat split.
        -- exact H4.
        -- intros d' Hin Hd'. apply list_elem_of_singleton in Hd'. subst d'.
           apply list_elem_of_omap in Hin as (x & Hx & Hdx).
           rewrite Forall_forall in H3. specialize (H3 x Hx _ Hdx). lia.
        -- apply NoDup_singleton.
    + injection Hstep as <-. cbn. repeat split.
      * rewrite <- H1, <- !app_assoc. reflexivity.
      * exact H2.
      * apply Forall_app. split; [exact H3|].
        apply Forall_singleton. intros d' Hd'. congruence.
      * rewrite omap_app. cbn. rewrite Hd. cbn. rewrite app_nil_r. exact H4.
  - (* LRecv *)
    apply fifo_other; [|exact I].
    destruct (worker s) eqn:Hw; try discriminate.
    destruct (ch s) as [|e rest] eqn:Hc; [discriminate|].
    injection Hstep as <-. unfold recv. rewrite Hw, Hc.
    destruct Hinv as (H1 & H2 & H3 & H4). unfold fifo. cbn.
    rewrite Hw, Hc in H1. rewrite Hw in H2. cbn in H1, H2. auto.
  - (* LPass *)
    apply fifo_other; [|exact I].
    destruct (worker s) as [|e|] eqn:Hw; try discriminate.
    destruct (can_handle e s); [|discriminate].
    destruct (pass e s) as [[s1 cs]|] eqn:Hp; [|discriminate].
    cbn in Hstep. injection Hstep as <-.
    apply pass_spec in Hp as ((_ & _ & Hch & _ & _ & Hn) & Hsg & Hh).
    destruct Hinv as (H1 & H2 & H3 & H4). unfold fifo. cbn.
    rewrite Hh, Hsg, Hch, Hn, handled_app. cbn.
    rewrite Hw in H1, H2. cbn in H1, H2. rewrite app_nil_r in H2.
    repeat split; auto.
    + rewrite <- H1, <- !app_assoc. reflexivity.
    + rewrite omap_app, H2. cbn. destruct (done e); reflexivity.
  - (* LFinish *)
    apply fifo_other; [|exact I].
    destruct (worker s) as [| |e cs] eqn:Hw; try discriminate.
    injection Hstep as <-.
    destruct (finish_spec e cs s) as (_ & _ & F3 & _ & F5 & _ & F7 & F8 & F9).
    destruct Hinv as (H1 & H2 & H3 & H4). unfold fifo.
    rewrite F3, F5, F7, F8, F9. rewrite Hw in H1, H2. cbn in *.
    rewrite app_nil_r. auto.
  - (* LReturn *)
    apply fifo_other; [|exact I].
    destruct (decide (d ∈ signalled s)); [|discriminate].
    injection Hstep as <-. exact Hinv.
  - (* LStore *)
    apply fifo_other; [|exact I]. injection Hstep as <-. exact Hinv.
  - (* LCloseChan *)
    apply fifo_other; [|exact I].
    destruct (ch_closed s); [discriminate|]. injection Hstep as <-. exact Hinv.
  - (* LCloseOutputs *)
    apply fifo_other; [|exact I].
    destruct (mu s); [discriminate|].
    destruct (close_all (outputs s) s) as [s1|] eqn:Hc; [|discriminate].
    injection Hstep as <-.
    apply close_all_spec in Hc as (Hsame & _ & Hsg & errs & _ & Hh).
    eapply fifo_same; [exact Hinv | exact Hsame | | exact Hsg].
    cbn. rewrite Hh, handled_app, handled_Closed, app_nil_r. reflexivity.
  - (* LAdd *)
    apply fifo_other; [|exact I].
    destruct (mu s); [discriminate|]. unfold add_locked in Hstep. cbn in Hstep.
    destruct (objs s !! p) as [o|]; [|discriminate]. injection Hstep as <-.
    eapply fifo_same; [exact Hinv | | | ].
    + unfold same_control. cbn. auto 10.
    + cbn. rewrite handled_app. cbn. apply app_nil_r.
    + reflexivity.
  - (* LRemove *)
    apply fifo_other; [|exact I].
    destruct (mu s); [discriminate|]. unfold remove_locked in Hstep.
    destruct (position p (outputs s) 0) as [i|].
    + destruct (index _ _) as [x|]; [|discriminate]. cbn in Hstep.
      destruct (store _ _ _) as [outs1|]; [|discriminate]. injection Hstep as <-.
      exact Hinv.
    + injection Hstep as <-. exact Hinv.
  - (* LLock *)
    apply fifo_other; [|exact I].
    destruct (mu s); [discriminate|]. injection Hstep as <-. exact Hinv.
  - (* LUnlock *)
    apply fifo_other; [|exact I].
    destruct (mu s); [|discriminate]. injection Hstep as <-. exact Hinv.
Qed.

Lemma fifo_exec (os : gmap ptr O) pl run : forall s,
  exec run (newManager os pl) = Some s -> fifo run s.
Proof.
  induction run as [|l run IH] using rev_ind; intros s.
  - intros [= <-]. apply fifo_init.
  - rewrite exec_app. intros H. apply bind_Some in H as (s1 & H1 & H2).
    cbn in H2. destruct (step l s1) as [s2|] eqn:Hs; [|discriminate].
    injection H2 as <-. eapply fifo_step; eauto.
Qed.

Lemma Closed_not_handled ps errs :
  Forall (fun ev => handled [ev] = []) (zip_with Closed ps errs).
Proof.
  revert errs.
  induction ps as [|q ps IH]; intros [|err errs]; cbn; constructor; auto.
Qed.

Lemma step_history l s s' :
  step l s = Some s' ->
  exists evs,
    history s' = history s ++ evs /\
    ((exists e,
        l = LPass /\ worker s = Holding e /\
        evs = [Handled e (if entry e is Some _ then outputs s else [])]) \/
     Forall (fun ev => handled [ev] = []) evs).
Proof.
  intros Hstep. destruct l as [e| | | |d| | | |p|p| |]; cbn [step] in Hstep.
  - exists []. rewrite app_nil_r. split; [|right; constructor].
    destruct (ch_closed s || negb (length (ch s) <? capacity)%nat); [discriminate|].
    destruct (done e) as [d|].
    + destruct (decide (d = next_chan s)); [|discriminate].
      injection Hstep as <-. reflexivity.
    + injection Hstep as <-. reflexivity.
  - exists []. rewrite app_nil_r. split; [|right; constructor].
    destruct (worker s); try discriminate.
    destruct (ch s) eqn:Hc; [discriminate|]. injection Hstep as <-.
    unfold recv. destruct (worker s); rewrite ?Hc; reflexivity.
  - destruct (worker s) as [|e|] eqn:Hw; try discriminate.
    destruct (can_handle e s); [|discriminate].
    destruct (pass e s) as [[s1 cs]|] eqn:Hp; [|discriminate].
    cbn in Hstep. injection Hstep as <-.
    apply pass_spec in Hp as (_ & _ & Hh).
    eexists. split; [exact Hh|]. left. exists e. auto.
  - exists []. rewrite app_nil_r. split; [|right; constructor].
    destruct (worker s) as [| |e cs]; try discriminate. injection Hstep as <-.
    apply finish_spec.
  - exists []. rewrite app_nil_r. split; [|right; constructor].
    destruct (decide (d ∈ signalled s)); [|discriminate].
    injection Hstep as <-. reflexivity.
  - exists []. rewrite app_nil_r. split; [|right; constructor].
    injection Hstep as <-. reflexivity.
  - exists []. rewrite app_nil_r. split; [|right; constructor].
    destruct (ch_closed s); [discriminate|]. injection Hstep as <-. reflexivity.
  - destruct (mu s); [discriminate|].
    destruct (close_all (outputs s) s) as [s1|] eqn:Hc; [|discriminate].
    injection Hstep as <-.
    apply close_all_spec in Hc as (_ & _ & _ & errs & _ & Hh).
    eexists. split; [exact Hh|]. right. apply Closed_not_handled.
  - destruct (mu s); [discriminate|]. unfold add_locked in Hstep. cbn in Hstep.
    destruct (objs s !! p) as [o|]; [|discriminate]. injection Hstep as <-.
    exists [Added p]. split; [reflexivity|]. right. repeat constructor.
  - exists []. rewrite app_nil_r. split; [|right; constructor].
    destruct (mu s); [discriminate|]. unfold remove_locked in Hstep.
    destruct (position p (outputs s) 0) as [i|].
    + destruct (index _ _) as [x|]; [|discriminate]. cbn in Hstep.
      destruct (store _ _ _) as [outs1|]; [|discriminate]. injection Hstep as <-.
      reflexivity.
    + injection Hstep as <-. reflexivity.
  - exists []. rewrite app_nil_r. split; [|right; constructor].
    destruct (mu s); [discriminate|]. injection Hstep as <-. reflexivity.
  - exists []. rewrite app_nil_r. split; [|right; constructor].
    destruct (mu s); [|discriminate]. injection Hstep as <-. reflexivity.
Qed.

(** An element of [l ++ evs] that cannot be in [evs] is in [l]. *)
Lemma split_in_front (l evs h1 h2 : list event) e outs :
  l ++ evs = h1 ++ Handled e outs :: h2 ->
  Forall (fun ev => handled [ev] = []) evs ->
  exists h2', l = h1 ++ Handled e outs :: h2'.
Proof.
  revert h1. induction l as [|x l IH]; intros h1 Heq Hevs.
  - exfalso. cbn in Heq. subst evs. apply Forall_app in Hevs as [_ Hevs].
    apply Forall_cons in Hevs as [Hx _]. discriminate Hx.
  - destruct h1 as [|y h1]; cbn in Heq; injection Heq as -> Heq.
    + exists l. reflexivity.
    + destruct (IH _ Heq Hevs) as (h2' & ->). exists h2'. reflexivity.
Qed.

(** Every [Handled] event of a run was recorded by a pass of the worker, over
    the registry as it was at that moment. *)
Lemma history_origin (os : gmap ptr O) pl run : forall s h1 e outs h2,
  exec run (newManager os pl) = Some s ->
  history s = h1 ++ Handled e outs :: h2 ->
  exists run1 run2 s1,
    run = run1 ++ LPass :: run2 /\
    exec run1 (newManager os pl) = Some s1 /\
    worker s1 = Holding e /\ history s1 = h1 /\
    outs = (if entry e is Some _ then outputs s1 else []).
Proof.
  induction run as [|l run IH] using rev_ind; intros s h1 e outs h2 Hexec Hh.
  - injection Hexec as <-. destruct h1; discriminate.
  - rewrite exec_app in Hexec. apply bind_Some in Hexec as (s0 & Hrun & Hl).
    cbn in Hl. destruct (step l s0) as [s'|] eqn:Hstep; [|discriminate].
    injection Hl as ->.
    destruct (step_history _ _ _ Hstep) as (evs & Hev & Hkind).
    rewrite Hev in Hh.
    assert (Hold : (exists h2', history s0 = h1 ++ Handled e outs :: h2') ->
                   exists run1 run2 s1,
                     run ++ [l] = run1 ++ LPass :: run2 /\
                     exec run1 (newManager os pl) = Some s1 /\
                     worker s1 = Holding e /\ history s1 = h1 /\
                     outs = (if entry e is Some _ then outputs s1 else [])).
    { intros (h2' & H0).
      destruct (IH _ _ _ _ _ Hrun H0) as (run1 & run2 & s1 & -> & H1 & H2 & H3 & H4).
      exists run1, (run2 ++ [l]), s1. rewrite <- app_assoc. auto. }
    destruct Hkind as [(e' & -> & Hw & ->)|Hnone].
    + destruct (decide (length h1 = length (history s0))) as [Hlen|Hlen].
      * apply app_inj_1 in Hh as [<- Hh]; [|symmetry; exact Hlen].
        injection Hh as <- <- _.
        exists run, [], s0. auto.
      * apply Hold. destruct h2 as [|z h2] using rev_ind.
        -- exfalso. apply Hlen.
           apply (f_equal length) in Hh. rewrite !length_app in Hh. cbn in Hh. lia.
        -- clear IHh2. rewrite app_comm_cons, app_assoc in Hh.
           apply app_inj_tail in Hh as [Hh _]. eauto.
    + apply Hold. eapply split_in_front; eauto.
Qed.

End ManagerFacts.

(** ** The manager on sample values *)

(** C1 fails on the code: with three outputs registered, of which the first
    two answer [ErrOutputClosed] and the third delivers, a non-blocking [log]
    followed by a blocking [log] both return nil, and the two records are
    handled in the order of their arrival; but the pass for the first record
    leaves the second output alone in the registry (the compaction of C2), so
    that the pass for the record of the blocking call goes over that output
    only: the third output, which is alive and was never removed, has been
    given the first record and not the second when the blocking call
    returns.  So it is for the calls read one after the other and for the
    same calls as a run of single actions. *)
Theorem blocking_record_misses_live_output :
  let os : gmap ptr outputWrapper :=
    list_to_map [(0%nat, closed_output); (1%nat, closed_output);
                 (2%nat, text_output)] in
  let e1 := mkItem (Some (sample_entry "first")) None in
  let eB := mkItem (Some (sample_entry "second")) (Some 0%nat) in
  let seen (s : manager outputWrapper) :=
    (omap (fun ev => match ev with
                     | Handled e outs => Some (Msg <$> entry e, outs)
                     | _ => None
                     end) (history s),
     (written ∘ ow_w) <$> objs s !! 2%nat) in
  let found :=
    ([(Some "first", [0%nat; 1%nat; 2%nat]); (Some "second", [1%nat])],
     Some [("02/01/2024 03:04:05 [INFO] first" ++ String newline "")%string]) in
  (s ← addOutput 0%nat (newManager os sample_pool);
   s ← addOutput 1%nat s;
   s ← addOutput 2%nat s;
   '(s, r1) ← log (entry e1) false s;
   '(s, r2) ← log (entry eB) true s;
   Returns (r1, r2, seen s))
  = Returns (None, None, found) /\
  seen <$>
    exec [LAdd 0%nat; LAdd 1%nat; LAdd 2%nat; LSend e1; LSend eB;
          LRecv; LPass; LFinish; LRecv; LPass; LFinish; LReturn 0%nat]
      (newManager os sample_pool)
  = Some found.
Proof. split; vm_compute; reflexivity. Qed.

Lemma after_Close_witness :
  let s := newManager (∅ : gmap ptr outputWrapper) sample_pool in
  let s' :=
    mkManager [] false true [] true Idle (∅ : gmap ptr outputWrapper)
      sample_pool [0%nat] 1%nat [Handled (mkItem None (Some 0%nat)) []] in
  Close s = Returns (s', None) /\
  perform (CLog (Some (sample_entry "late")) true) s' =
    Returns (set_next_chan s' 2%nat, RError (Some ErrManagerClosed)) /\
  perform (CAdd 0%nat) s' = Returns (s', RNothing).
Proof.
  intros s s'.
  assert (Hc : Close s = Returns (s', None)) by (vm_compute; reflexivity).
  split; [exact Hc|]. split; [vm_compute; reflexivity|].
  exact (proj1 (proj2 (proj2
    (after_Close s s' (Some (sample_entry "late")) true 0%nat Hc)))).
Defined.

(** C4, as the specification words it, fails for [addOutput] and
    [removeOutput]: on a closed manager the first hands back nothing and the
    second hands back [false]; neither reports [ErrManagerClosed]. *)
Lemma closed_manager_add_remove_counterexample :
  let s := newManager (∅ : gmap ptr outputWrapper) sample_pool in
  exists s',
    Close s = Returns (s', None) /\
    perform (CAdd 0%nat) s' = Returns (s', RNothing) /\
    perform (CRemove 0%nat) s' = Returns (s', RBool false) /\
    RNothing <> RError (Some ErrManagerClosed) /\
    RBool false <> RError (Some ErrManagerClosed).
Proof.
  intros s.
  exists (mkManager [] false true [] true Idle ∅ sample_pool [0%nat] 1%nat
            [Handled (mkItem None (Some 0%nat)) []]).
  repeat split; try (vm_compute; reflexivity); discriminate.
Qed.

(** ** Eviction *)

(** The indices collected by the sweep go up and stay inside the registry. *)
Lemma sweep_rm {O : Type} `{!Output O} (outs : list ptr) :
  forall i en (os : gmap ptr O) pl rm en' os' pl' rm',
    sweep outs i en os pl rm = Some (en', os', pl', rm') ->
    exists new,
      rm' = rm ++ new /\
      StronglySorted Z.lt new /\
      Forall (fun j => i <= j < i + Z.of_nat (length outs)) new.
Proof.
  induction outs as [|p outs IH]; intros i en os pl rm en' os' pl' rm' H;
    cbn [sweep] in H.
  - injection H as _ _ _ <-. exists []. rewrite app_nil_r.
    repeat split; constructor.
  - destruct (os !! p) as [o|]; [|discriminate]. cbn [mbind option_bind] in H.
    destruct (Log o en pl) as [[[[o1 en1] pl1] e]|]; [|discriminate].
    cbn [mbind option_bind] in H.
    apply IH in H as (new & -> & Hs & Hf).
    assert (Hf' : Forall (fun j => i <= j < i + Z.of_nat (length (p :: outs))) new).
    { eapply Forall_impl; [exact Hf|]. cbn [length]. intros j Hj. lia. }
    destruct (decide (e = Some ErrOutputClosed)).
    + exists (i :: new). rewrite <- app_assoc. split; [reflexivity|]. split.
      * constructor; [exact Hs|]. eapply Forall_impl; [exact Hf|]. cbn. lia.
      * constructor; [cbn [length]; lia | exact Hf'].
    + exists new. auto.
Qed.

(** On such indices the compaction stays inside the slice, and the registry
    loses as many places as there are indices. *)
Lemma compact_in_range (rm : list Z) : forall r (outs : list ptr),
  0 <= r ->
  StronglySorted Z.lt rm ->
  Forall (fun j => r <= j < r + Z.of_nat (length outs)) rm ->
  exists outs',
    compact rm r outs = Some outs' /\
    (length outs' + length rm = length outs)%nat.
Proof.
  induction rm as [|i rm IH]; intros r outs Hr Hs Hf; cbn [compact].
  - exists outs. split; [reflexivity | cbn; lia].
  - apply Forall_cons in Hf as [Hi Hf]. apply StronglySorted_inv in Hs as [Hs Hlt].
    assert (Hn : (0 < length outs)%nat) by lia.
    unfold index. destruct (Z.ltb_spec (Z.of_nat (length outs) - 1) 0) as [|_]; [lia|].
    destruct (lookup_lt_is_Some_2 outs (Z.to_nat (Z.of_nat (length outs) - 1)))
      as [x Hx]; [lia|].
    rewrite Hx. cbn [mbind option_bind]. unfold store.
    destruct (Z.leb_spec 0 (i - r)) as [_|]; [|lia].
    destruct (Z.ltb_spec (i - r) (Z.of_nat (length outs))) as [_|]; [|lia].
    cbn [andb mbind option_bind].
    destruct (IH (r + 1)
                (take (Z.to_nat (Z.of_nat (length outs) - 1))
                   (<[Z.to_nat (i - r) := x]> outs))) as (outs' & -> & Hl).
    + lia.
    + exact Hs.
    + rewrite length_take, length_insert.
      rewrite Forall_forall in Hf, Hlt. apply Forall_forall. intros j Hj.
      specialize (Hf j Hj). specialize (Hlt j Hj). lia.
    + exists outs'. split; [reflexivity|].
      rewrite length_take, length_insert in Hl. cbn [length]. lia.
Qed.

(** The worker does not panic in the compaction: when every [Log] call of
    the sweep has returned, so does the pass. *)
Lemma pass_after_sweep {O : Type} `{!Output O} e en (s : manager O) r :
  entry e = Some en ->
  sweep (outputs s) 0 en (objs s) (pool s) [] = Some r ->
  is_Some (pass e s).
Proof.
  intros He Hsw. unfold pass. rewrite He, Hsw.
  destruct r as [[[en' os] pl] rm]. cbn [mbind option_bind].
  apply sweep_rm in Hsw as (new & Hrm & Hs & Hf). cbn in Hrm. subst rm.
  destruct (compact_in_range new 0 (outputs s)) as (outs' & -> & _);
    [lia | exact Hs | exact Hf | cbn; eauto].
Qed.

(** With one index the compaction is a removal: what is left is the registry
    without the output at that index, up to order. *)
Lemma compact_one (i : Z) (outs outs' : list ptr) x :
  outs !! Z.to_nat i = Some x -> 0 <= i ->
  compact [i] 0 outs = Some outs' ->
  outs ≡ₚ x :: outs'.
Proof.
  intros Hx Hi. cbn [compact]. rewrite Z.sub_0_r.
  destruct outs as [|a outs0] using rev_ind; [discriminate|]. clear IHouts0.
  rewrite length_app. cbn [length].
  replace (Z.of_nat (length outs0 + 1) - 1) with (Z.of_nat (length outs0)) by lia.
  unfold index. destruct (Z.ltb_spec (Z.of_nat (length outs0)) 0) as [|_]; [lia|].
  rewrite Nat2Z.id, lookup_app_r, Nat.sub_diag by lia. cbn [lookup list_lookup mbind option_bind].
  unfold store. destruct (Z.leb_spec 0 i) as [_|]; [|lia].
  rewrite length_app. cbn [length].
  destruct (Z.ltb_spec i (Z.of_nat (length outs0 + 1))) as [Hlt|]; [|discriminate].
  cbn [andb mbind option_bind]. intros [= <-].
  destruct (decide (Z.to_nat i = length outs0)) as [Heq|Hne].
  - rewrite Heq in *. rewrite lookup_app_r, Nat.sub_diag in Hx by lia.
    injection Hx as <-.
    rewrite insert_app_r_alt, Nat.sub_diag by lia. cbn.
    rewrite take_app_length. apply (Permutation_app_comm outs0 [a]).
  - assert (Z.to_nat i < length outs0)%nat by lia.
    rewrite lookup_app_l in Hx by lia.
    rewrite insert_app_l by lia.
    rewrite take_app_length' by (rewrite length_insert; reflexivity).
    apply list_elem_of_split_length in Hx as (l1 & l2 & -> & Hl).
    rewrite Hl, insert_app_r_alt, Nat.sub_diag by lia. cbn.
    rewrite <- app_assoc. cbn.
    transitivity (x :: l1 ++ l2 ++ [a]).
    { symmetry. apply Permutation_middle. }
    apply perm_skip, Permutation_app_head.
    apply (Permutation_app_comm l2 [a]).
Qed.

(** C2 fails on the code: with three outputs registered, of which the first
    two answer [ErrOutputClosed] and the third delivers, the pass leaves the
    second one (torn down) in the registry and drops the third (alive). *)
Theorem handle_evicts_live_output :
  let os : gmap ptr outputWrapper :=
    list_to_map [(0%nat, closed_output); (1%nat, closed_output);
                 (2%nat, text_output)] in
  let en := sample_entry "hello" in
  (s ← addOutput 0%nat (newManager os sample_pool);
   s ← addOutput 1%nat s;
   s ← addOutput 2%nat s;
   '(_, _, _, rm) ← of_option (sweep (outputs s) 0 en (objs s) (pool s) []);
   s' ← of_option (handle (mkItem (Some en) None) s);
   Returns (outputs s, rm, outputs s'))
  = Returns ([0%nat; 1%nat; 2%nat], [0; 1], [1%nat]).
Proof. vm_compute. reflexivity. Qed.

(** ** Closing *)

Section CallFacts.
Context {O : Type} `{!Output O}.
Implicit Types s : manager O.

Lemma wait_signalled n d s : d ∈ signalled s -> wait n d s = Returns s.
Proof. intros H. destruct n; cbn; rewrite decide_True; auto. Qed.

Lemma wait_step n d s :
  d ∉ signalled s -> wait (S n) d s = (s' ← work (recv s); wait n d s').
Proof. intros H. cbn. rewrite decide_False; auto. Qed.

Lemma wait_marker outs (os : gmap ptr O) pl sg nc h :
  nc ∉ sg ->
  wait 1 nc
    (mkManager outs false true [mkItem None (Some nc)] true Idle os pl sg
       (S nc) h)
  = Returns
      (mkManager outs false true [] true Idle os pl (sg ++ [nc]) (S nc)
         (h ++ [Handled (mkItem None (Some nc)) []])).
Proof.
  intros Hf. rewrite wait_step by exact Hf.
  change (work (recv (mkManager outs false true [mkItem None (Some nc)] true
                        Idle os pl sg (S nc) h)))
    with (Returns
            (mkManager outs false true [] true Idle os pl (sg ++ [nc]) (S nc)
               (h ++ [Handled (mkItem None (Some nc)) []]))).
  cbn [mbind outcome_bind]. apply wait_signalled. cbn.
  apply elem_of_app. right. apply list_elem_of_here.
Qed.

(** [Close] on an open manager at rest: the marker goes through, then every
    registered output is closed. *)
Lemma Close_at_rest outs (os : gmap ptr O) pl sg nc h :
  nc ∉ sg ->
  Close (mkManager outs false false [] false Idle os pl sg nc h) =
    (s ← of_option
       (close_all outs
          (mkManager outs false true [] true Idle os pl (sg ++ [nc]) (S nc)
             (h ++ [Handled (mkItem None (Some nc)) []])));
     Returns (set_outputs s [], None)).
Proof.
  intros Hf.
  change (Close (mkManager outs false false [] false Idle os pl sg nc h))
    with (s1 ← wait 1 nc
                  (mkManager outs false true [mkItem None (Some nc)] true Idle
                     os pl sg (S nc) h);
          if mu s1 then Blocks
          else s2 ← of_option (close_all (outputs s1) s1);
               Returns (set_outputs s2 [], @None error)).
  rewrite wait_marker by exact Hf. reflexivity.
Qed.

(** It calls [LogClose] once on every registered output, in the order of the
    registry, whatever the calls answer, and answers nil itself. *)
Lemma Close_at_rest_closes_all outs (os : gmap ptr O) pl sg nc h s' r :
  nc ∉ sg ->
  Close (mkManager outs false false [] false Idle os pl sg nc h)
    = Returns (s', r) ->
  r = None /\ outputs s' = [] /\
  exists errs,
    length errs = length outs /\
    history s' =
      h ++ Handled (mkItem None (Some nc)) [] :: zip_with Closed outs errs.
Proof.
  intros Hf. rewrite Close_at_rest by exact Hf. intros H.
  apply outcome_bind_Returns in H as (s2 & H2 & H). injection H as <- <-.
  apply of_option_Returns, close_all_spec in H2
    as (_ & _ & _ & errs & Hl & Hh).
  split; [reflexivity|]. split; [reflexivity|].
  exists errs. split; [exact Hl|]. cbn in *. rewrite Hh, <- app_assoc.
  reflexivity.
Qed.

Lemma addOutput_open p o outs (os : gmap ptr O) pl sg nc h c cc wk :
  os !! p = Some o ->
  addOutput p (mkManager outs false false c cc wk os pl sg nc h) =
    Returns (mkManager (outs ++ [p]) false false c cc wk (<[p := OnAdd o]> os)
               pl sg nc (h ++ [Added p])).
Proof.
  intros Hp. unfold addOutput, add_locked. cbn. rewrite Hp. reflexivity.
Qed.
(** *** The calls as runs

    On a manager at rest (open, unlocked, nothing in the channel, the worker
    idle) a blocking [log] and [Close] are these runs of single actions. *)

Lemma finish_set_worker e cs s w :
  finish e cs (set_worker s w) = finish e cs s.
Proof. unfold finish. destruct (done e); reflexivity. Qed.

Lemma log_blocking_at_rest en outs (os : gmap ptr O) pl sg nc h :
  nc ∉ sg ->
  let e := mkItem (Some en) (Some nc) in
  let s := mkManager outs false false [] false Idle os pl sg nc h in
  log (Some en) true s =
    (s' ← of_option (exec [LSend e; LRecv; LPass; LFinish; LReturn nc] s);
     Returns (s', None)).
Proof.
  intros Hf e s.
  set (s1 := mkManager outs false false [] false (Holding e) os pl sg (S nc) h).
  change (log (Some en) true s) with
    (s2 ← wait 1 nc (mkManager outs false false [e] false Idle os pl sg (S nc) h);
     Returns (s2, @None error)).
  rewrite wait_step by exact Hf.
  change (work (recv (mkManager outs false false [e] false Idle os pl sg (S nc) h)))
    with (of_option (handle e s1)).
  assert (Hrun : exec [LSend e; LRecv; LPass; LFinish; LReturn nc] s =
                 (s2 ← ('(s2, cs) ← pass e s1;
                        Some (set_worker s2 (Delivered e cs)));
                  exec [LFinish; LReturn nc] s2)).
  { change (exec [LSend e; LRecv; LPass; LFinish; LReturn nc] s) with
      (s2 ← (if decide (nc = nc)
             then Some (mkManager outs false false [e] false Idle os pl sg
                          (S nc) h)
             else None);
       exec [LRecv; LPass; LFinish; LReturn nc] s2).
    rewrite decide_True by reflexivity. reflexivity. }
  rewrite Hrun. clear Hrun.
  unfold handle. destruct (pass e s1) as [[s2 cs]|] eqn:Hp; [|reflexivity].
  cbn [mbind option_bind of_option outcome_bind].
  assert (Hsig : nc ∈ signalled (finish e cs s2)).
  { destruct (finish_spec e cs s2) as (_ & _ & _ & _ & _ & _ & _ & -> & _).
    apply elem_of_app. right. apply list_elem_of_here. }
  rewrite wait_signalled by exact Hsig.
  cbn [exec step worker set_worker mbind option_bind].
  rewrite finish_set_worker, decide_True by exact Hsig. reflexivity.
Qed.

Lemma Close_at_rest_run outs (os : gmap ptr O) pl sg nc h :
  nc ∉ sg ->
  let e := mkItem None (Some nc) in
  let s := mkManager outs false false [] false Idle os pl sg nc h in
  Close s =
    (s' ← of_option
       (exec [LStore; LSend e; LCloseChan; LRecv; LPass; LFinish; LReturn nc;
              LCloseOutputs] s);
     Returns (s', None)).
Proof.
  intros Hf e s. unfold s. rewrite Close_at_rest by exact Hf.
  set (s3 := mkManager outs false true [] true Idle os pl (sg ++ [nc]) (S nc)
               (h ++ [Handled e []])).
  assert (Hrun : exec [LStore; LSend e; LCloseChan; LRecv; LPass; LFinish;
                       LReturn nc; LCloseOutputs]
                   (mkManager outs false false [] false Idle os pl sg nc h) =
                 (s' ← close_all outs s3; Some (set_outputs s' []))).
  { change (exec [LStore; LSend e; LCloseChan; LRecv; LPass; LFinish;
                  LReturn nc; LCloseOutputs]
              (mkManager outs false false [] false Idle os pl sg nc h)) with
      (s2 ← (if decide (nc = nc)
             then Some (mkManager outs false true [e] false Idle os pl sg
                          (S nc) h)
             else None);
       exec [LCloseChan; LRecv; LPass; LFinish; LReturn nc; LCloseOutputs] s2).
    rewrite decide_True by reflexivity. cbn [mbind option_bind].
    change (exec [LCloseChan; LRecv; LPass; LFinish; LReturn nc; LCloseOutputs]
              (mkManager outs false true [e] false Idle os pl sg (S nc) h)) with
      (s2 ← (if decide (nc ∈ sg ++ [nc]) then Some s3 else None);
       exec [LCloseOutputs] s2).
    rewrite decide_True
      by (apply elem_of_app; right; apply list_elem_of_here).
    cbn [mbind option_bind exec step].
    change (mu s3) with false. change (outputs s3) with outs. cbn iota.
    destruct (close_all outs s3); reflexivity. }
  rewrite Hrun. unfold s3. destruct (close_all outs _); reflexivity.
Qed.

End CallFacts.

(** C3 fails on the code: [Close] calls [LogClose] on the registered output,
    whose writer fails to close, and still answers nil. *)
Theorem Close_drops_close_error :
  let os : gmap ptr outputWrapper := {[ 0%nat := failing_output ]} in
  (s ← addOutput 0%nat (newManager os sample_pool);
   '(s', r) ← Close s;
   Returns (r, history s', closes ∘ ow_w <$> objs s' !! 0%nat))
  = Returns (None,
             [Added 0%nat; Handled (mkItem None (Some 0%nat)) [];
              Closed 0%nat (Some (ErrOther "close failed"))],
             Some 1%nat).
Proof. vm_compute. reflexivity. Qed.

(** ** Reference counting *)

(** C8: an [outputWrapper] that has been added twice gives up its writer on
    the second [LogClose] only: the first one lowers the count, answers nil
    and leaves the writer alone, the second one calls the close function on
    it.  One [Close] of a manager that holds the output under two
    registrations calls [LogClose] once for each of them, and so gets to the
    close function. *)
Theorem twice_added_closes_on_second (o : outputWrapper) closeFunc
    (os : gmap ptr outputWrapper) pl p :
  ow_add o = 0 ->
  ow_CloseFunc o = Some closeFunc ->
  os !! p = Some o ->
  let r1 := LogClose (OnAdd (OnAdd o)) in
  let r2 := LogClose r1.1 in
  (r1.2 = None /\ ow_w r1.1 = ow_w o /\ ow_add r1.1 = 1) /\
  (ow_w r2.1, r2.2) = closeFunc (ow_w o) (ow_close o) /\
  exists s,
    (s1 ← addOutput p (newManager os pl); s2 ← addOutput p s1; Close s2)
      = Returns (s, None) /\
    outputs s = [] /\
    history s = [Added p; Added p; Handled (mkItem None (Some 0%nat)) [];
                 Closed p r1.2; Closed p r2.2] /\
    objs s !! p = Some r2.1.
Proof.
  intros Hadd Hcf Hp r1 r2.
  assert (E1 : r1 = (set_add (OnAdd (OnAdd o)) 1, None)).
  { unfold r1. cbn. unfold outputWrapper_LogClose, outputWrapper_OnAdd. cbn.
    rewrite Hadd. reflexivity. }
  assert (E2 : r2 = (let '(w, e) := closeFunc (ow_w o) (ow_close o) in
                     (set_w r1.1 w, e))).
  { unfold r2. rewrite E1. cbn. unfold outputWrapper_LogClose. cbn.
    rewrite Hcf. reflexivity. }
  split; [|split].
  - rewrite E1. cbn. auto.
  - rewrite E2. destruct (closeFunc _ _). reflexivity.
  - assert (Hr1 : LogClose (OnAdd (OnAdd o)) = r1) by reflexivity.
    assert (Hr2 : LogClose r1.1 = r2) by reflexivity.
    clearbody r1 r2. clear E1 E2.
    unfold newManager.
    rewrite (addOutput_open p o) by exact Hp. cbn [mbind outcome_bind].
    rewrite (addOutput_open p (OnAdd o)) by apply lookup_insert_eq.
    cbn [mbind outcome_bind app].
    rewrite Close_at_rest by apply not_elem_of_nil.
    cbn [close_all objs]. rewrite lookup_insert_eq. cbn [mbind option_bind].
    rewrite Hr1. destruct r1 as [o3 e1].
    cbn [objs set_objs record]. rewrite lookup_insert_eq.
    cbn [mbind option_bind]. cbn [fst] in Hr2. rewrite Hr2.
    destruct r2 as [o4 e2].
    eexists. split; [reflexivity|].
    split; [reflexivity|]. split; [reflexivity|].
    cbn [objs set_objs record set_outputs fst]. apply lookup_insert_eq.
Qed.

Lemma twice_added_closes_on_second_witness :
  let o := text_output in
  let os : gmap ptr outputWrapper := {[ 0%nat := o ]} in
  let r1 := LogClose (OnAdd (OnAdd o)) in
  let r2 := LogClose r1.1 in
  ow_add o = 0 /\ ow_CloseFunc o = Some DefaultCloseFunc /\
  os !! 0%nat = Some o /\
  r1.2 = None /\ closes (ow_w r1.1) = 0%nat /\
  closes (ow_w r2.1) = 1%nat /\ r2.2 = None.
Proof.
  intros o os r1 r2.
  assert (Ha : ow_add o = 0) by reflexivity.
  assert (Hc : ow_CloseFunc o = Some DefaultCloseFunc) by reflexivity.
  assert (Hp : os !! 0%nat = Some o) by apply lookup_singleton_eq.
  destruct (twice_added_closes_on_second o DefaultCloseFunc os sample_pool
              0%nat Ha Hc Hp) as [(H1 & Hw & _) [Hsnd _]].
  fold r1 in H1, Hw, Hsnd. fold r2 in Hsnd.
  split; [exact Ha|]. split; [exact Hc|]. split; [exact Hp|].
  split; [exact H1|]. split; [rewrite Hw; reflexivity|].
  pose proof (f_equal fst Hsnd) as Hw2. pose proof (f_equal snd Hsnd) as He2.
  change (ow_w r2.1 = (DefaultCloseFunc (ow_w o) (ow_close o)).1) in Hw2.
  change (r2.2 = (DefaultCloseFunc (ow_w o) (ow_close o)).2) in He2.
  split; [rewrite Hw2 | rewrite He2]; reflexivity.
Defined.

(** * Further properties *)

(** ** Flag words *)

Lemma has_lor_l (f a x : Z) : has (Z.lor f a) x = has f x || has a x.
Proof.
  unfold has. rewrite Z.land_lor_distr_l, <- negb_andb. f_equal.
  apply eq_true_iff_eq.
  rewrite andb_true_iff, !Z.eqb_eq, Z.lor_eq_0_iff. reflexivity.
Qed.

Lemma has_lor_r (f a x : Z) : has f (Z.lor a x) = has f a || has f x.
Proof.
  unfold has. rewrite Z.land_lor_distr_r, <- negb_andb. f_equal.
  apply eq_true_iff_eq.
  rewrite andb_true_iff, !Z.eqb_eq, Z.lor_eq_0_iff. reflexivity.
Qed.

(** ** Thresholds *)

(** X1: a threshold permits itself and everything above it; [Lower] gives a
    threshold that permits at least as much, [Restrict] one that permits at
    most as much; both stay within Debug..Fatal; [Lower] stops at Debug and
    [Restrict] at Error, so that restricting a threshold never gives Fatal
    unless it was Fatal, and a threshold lowered from Fatal does not come
    back. *)
Theorem threshold_order (l level : LogLevel) :
  L_Debug <= l <= L_Fatal ->
  Permits l l = true /\
  (forall level', Permits l level = true -> level <= level' ->
                  Permits l level' = true) /\
  (Permits l level = true -> Permits (Lower l) level = true) /\
  (Permits (Restrict l) level = true -> Permits l level = true) /\
  L_Debug <= Lower l <= L_Fatal /\ L_Debug <= Restrict l <= L_Fatal /\
  (Restrict l = L_Fatal -> l = L_Fatal) /\
  (l < L_Error -> Lower (Restrict l) = l) /\
  Restrict (Lower L_Fatal) = L_Error.
Proof.
  unfold Permits, Lower, Restrict, L_Debug, L_Error, L_Fatal. intros Hl.
  repeat split;
    repeat match goal with
           | |- context [?a <=? ?b] => destruct (Z.leb_spec a b)
           | |- context [?a <? ?b] => destruct (Z.ltb_spec a b)
           | H : context [?a <=? ?b] |- _ => destruct (Z.leb_spec a b)
           | H : context [?a <? ?b] |- _ => destruct (Z.ltb_spec a b)
           | |- _ -> _ => intro
           end; try reflexivity; try discriminate; try lia.
Qed.

Lemma threshold_order_witness :
  L_Debug <= L_Warn <= L_Fatal /\
  (Permits L_Warn L_Error = true -> Permits (Lower L_Warn) L_Error = true).
Proof.
  assert (H : L_Debug <= L_Warn <= L_Fatal) by (unfold L_Debug, L_Warn, L_Fatal; lia).
  split; [exact H|].
  exact (proj1 (proj2 (proj2 (threshold_order L_Warn L_Error H)))).
Defined.

(** ** The cache, again *)

Lemma find_compiled_app flags outputType cs c :
  find_compiled flags outputType (cs ++ [c]) =
    match find_compiled flags outputType cs with
    | Some x => Some x
    | None =>
        if (Flag c =? flags) && (OutputTypeOf c =? outputType)
        then Some c else None
    end.
Proof.
  induction cs as [|v cs IH]; cbn; [reflexivity|].
  destruct ((Flag v =? flags) && (OutputTypeOf v =? outputType)); auto.
Qed.

(** X2: with caching on, a lookup right after [AddCompiled] answers the
    buffer that was cached first under this key if there was one, and the
    buffer just added otherwise; the lookups under every other key are as
    before. *)
Theorem GetCompiled_after_AddCompiled flags outputType buf entry pool :
  has flags F_NotSave = false ->
  let entry' := (AddCompiled flags outputType buf entry pool).1 in
  GetCompiled flags outputType entry' =
    Some (default buf (GetCompiled flags outputType entry)) /\
  (forall flags' outputType',
     (flags', outputType') <> (flags, outputType) ->
     GetCompiled flags' outputType' entry' =
       GetCompiled flags' outputType' entry).
Proof.
  intros Hns entry'. unfold entry', AddCompiled, GetCompiled. rewrite Hns.
  destruct (find_compiled flags outputType (CompiledOf entry)) as [c|] eqn:Hf;
    cbn [fst].
  - rewrite Hf. cbn. split; [reflexivity|]. reflexivity.
  - split.
    + cbn. rewrite find_compiled_app, Hf. cbn. rewrite !Z.eqb_refl. reflexivity.
    + intros flags' outputType' Hne.
      destruct (has flags' F_NotSave); [reflexivity|].
      cbn. rewrite find_compiled_app.
      destruct (find_compiled flags' outputType' (CompiledOf entry)); [reflexivity|].
      cbn. destruct (Z.eqb_spec flags flags'); destruct (Z.eqb_spec outputType outputType');
        cbn; try reflexivity. subst. congruence.
Qed.

Lemma GetCompiled_after_AddCompiled_witness :
  let entry := sample_entry "hello" in
  let buf := mkBuf 3 "rendered" in
  has F_Std F_NotSave = false /\
  GetCompiled F_Std T_Text (AddCompiled F_Std T_Text buf entry sample_pool).1
    = Some buf.
Proof.
  intros entry buf.
  assert (H : has F_Std F_NotSave = false) by reflexivity.
  split; [exact H|].
  exact (proj1 (GetCompiled_after_AddCompiled F_Std T_Text buf entry sample_pool H)).
Defined.

(** ** Numbers in the text renderer *)

Lemma byte_of_digit (k : Z) :
  0 <= k <= 9 -> Z.of_N (N_of_ascii (byte_of (48 + k))) = 48 + k.
Proof.
  intros Hk. unfold byte_of. rewrite N_ascii_embedding.
  - rewrite Z2N.id; [|apply Z.mod_pos_bound; lia]. apply Z.mod_small. lia.
  - apply N2Z.inj_lt. rewrite Z2N.id; [|apply Z.mod_pos_bound; lia].
    change (Z.of_N 256) with 256. apply Z.mod_pos_bound. lia.
Qed.

Lemma digits_value_from_app s1 : forall acc s2,
  digits_value_from acc (s1 ++ s2)%string =
    digits_value_from (digits_value_from acc s1) s2.
Proof.
  induction s1 as [|c s1 IH]; intros acc s2; [reflexivity|].
  change (digits_value_from (10 * acc + (Z.of_N (N_of_ascii c) - 48))
            (s1 ++ s2)%string
          = digits_value_from
              (digits_value_from (10 * acc + (Z.of_N (N_of_ascii c) - 48)) s1) s2).
  apply IH.
Qed.

Lemma all_digits_app s1 s2 :
  all_digits (s1 ++ s2)%string = all_digits s1 && all_digits s2.
Proof.
  induction s1 as [|c s1 IH]; [reflexivity|].
  change (is_digit c && all_digits (s1 ++ s2)%string
          = is_digit c && all_digits s1 && all_digits s2).
  rewrite IH. apply andb_assoc.
Qed.

Lemma length_str_app s1 s2 :
  String.length (s1 ++ s2)%string = (String.length s1 + String.length s2)%nat.
Proof.
  induction s1 as [|c s1 IH]; [reflexivity|].
  change (S (String.length (s1 ++ s2)%string)
          = S (String.length s1 + String.length s2)). now rewrite IH.
Qed.

(** What the loop of [appendInt] leaves in [b], for a number that is not
    negative. *)
Lemma appendInt_loop_digits (room : nat) : forall n w acc s,
  0 <= n ->
  - 2 ^ 63 + Z.of_nat room <= w < 2 ^ 63 ->
  appendInt_loop room n w acc = Some s ->
  exists ds,
    s = (ds ++ acc)%string /\
    all_digits ds = true /\
    digits_value ds = n /\
    Z.max w 1 <= len ds /\
    (Z.max w 1 < len ds -> str_index ds 0 <> Some "0"%char).
Proof.
  induction room as [|room IH]; intros n w acc s Hn Hrange H;
    cbn [appendInt_loop] in H; [discriminate|].
  destruct ((10 <=? n) || (1 <? w)) eqn:Hc.
  - assert (Hq : Z.quot n 10 = n / 10) by (apply Z.quot_div_nonneg; lia).
    rewrite Hq, wrap64_small in H by lia.
    replace (48 + n - n / 10 * 10) with (48 + n mod 10) in H
      by (rewrite Z.mod_eq by lia; lia).
    assert (Hm : 0 <= n mod 10 <= 9) by (pose proof (Z.mod_pos_bound n 10); lia).
    apply IH in H as (ds & -> & Hd & Hv & Hlen & Hmin);
      [|apply Z.div_pos; lia|lia].
    exists (ds ++ String (byte_of (48 + n mod 10)) "")%string.
    split; [now rewrite <- str_app_assoc|].
    split; [|split; [|split]].
    + rewrite all_digits_app, Hd. cbn. unfold is_digit.
      rewrite byte_of_digit by exact Hm.
      destruct (Z.leb_spec 48 (48 + n mod 10)); [|lia].
      destruct (Z.leb_spec (48 + n mod 10) 57); [reflexivity|lia].
    + unfold digits_value in *. rewrite digits_value_from_app, Hv. cbn.
      rewrite byte_of_digit by exact Hm.
      rewrite (Z.div_mod n 10) at 3 by lia. lia.
    + unfold len in *. rewrite length_str_app. cbn [String.length]. lia.
    + unfold len in *. rewrite length_str_app. cbn [String.length]. intros Hlong.
      assert (Hne : ds <> ""%string).
      { intros ->. cbn in Hlen. lia. }
      destruct ds as [|c ds]; [congruence|].
      change (Some c <> Some "0"%char).
      change (Z.max (w - 1) 1 < len (String c ds) -> Some c <> Some "0"%char)
        in Hmin.
      destruct (Z.lt_ge_cases (Z.max (w - 1) 1) (len (String c ds))) as [Hl|Hl];
        [exact (Hmin Hl)|].
      unfold len in Hl. cbn [String.length] in *.
      assert (Hw : w <= 1) by lia.
      assert (Hds : ds = ""%string).
      { destruct ds; [reflexivity|]. cbn [String.length] in Hl. lia. }
      subst ds. intros [= ->].
      unfold digits_value in Hv. cbn in Hv.
      apply orb_true_iff in Hc as [Hc|Hc];
        [apply Z.leb_le in Hc | apply Z.ltb_lt in Hc; lia].
      assert (1 <= n / 10) by (apply Z.div_le_lower_bound; lia). lia.
  - apply orb_false_iff in Hc as [Hc1 Hc2].
    apply Z.leb_gt in Hc1. apply Z.ltb_ge in Hc2.
    injection H as <-.
    exists (String (byte_of (48 + n)) "").
    split; [reflexivity|]. split; [|split; [|split]].
    + cbn. unfold is_digit. rewrite byte_of_digit by lia.
      destruct (Z.leb_spec 48 (48 + n)); [|lia].
      destruct (Z.leb_spec (48 + n) 57); [reflexivity|lia].
    + unfold digits_value. cbn. rewrite byte_of_digit by lia. lia.
    + unfold len. cbn. lia.
    + unfold len. cbn. lia.
Qed.

(** X3: for a number that is not negative and a width from 0 to 20,
    [appendInt] appends its decimal digits, padded with zeros on the left to
    the width asked for and no further: what is appended consists of digits,
    reads back as the number, is at least [w] long, and starts with a zero
    only if it is no longer than [w] (or is the single digit 0). *)
Theorem appendInt_decimal buf n w :
  0 <= n < 2 ^ 63 -> 0 <= w <= 20 ->
  exists ds,
    appendInt buf n w = Some (append buf ds) /\
    all_digits ds = true /\
    digits_value ds = n /\
    Z.max w 1 <= len ds /\
    (Z.max w 1 < len ds -> str_index ds 0 <> Some "0"%char).
Proof.
  intros Hn Hw.
  destruct (appendInt_Some buf n w) as [b Hb]; [lia | lia |].
  unfold appendInt in *.
  destruct (appendInt_loop 20 n w "") as [s|] eqn:Hs; [|discriminate].
  apply appendInt_loop_digits in Hs as (ds & -> & H); [|lia|lia].
  exists ds. split; [|exact H].
  cbn. f_equal. f_equal.
  clear. induction ds as [|c ds IH]; [reflexivity|].
  change (String c (ds ++ "")%string = String c ds). now rewrite IH.
Qed.

Lemma appendInt_decimal_witness :
  0 <= 7 < 2 ^ 63 /\ 0 <= 2 <= 20 /\
  exists ds,
    appendInt (mkBuf 0 "") 7 2 = Some (append (mkBuf 0 "") ds) /\
    digits_value ds = 7 /\ 2 <= len ds.
Proof.
  assert (H1 : 0 <= 7 < 2 ^ 63) by lia. assert (H2 : 0 <= 2 <= 20) by lia.
  split; [exact H1|]. split; [exact H2|].
  destruct (appendInt_decimal (mkBuf 0 "") 7 2 H1 H2)
    as (ds & Hds & _ & Hv & Hl & _).
  exists ds. auto.
Defined.

(** ** Newlines *)






(** ** Flags that make no difference *)

(** The writer that [TextLogFunc] leaves does not depend on the flag word
    but through the tests the function makes. *)
Lemma TextLogFunc_writer_ext buf entry f1 f2 w pool :
  has f1 (Z.lor F_Time F_Micro) = has f2 (Z.lor F_Time F_Micro) ->
  has f1 F_Micro = has f2 F_Micro ->
  has f1 (Z.lor F_Prefix F_LastPrefix) = has f2 (Z.lor F_Prefix F_LastPrefix) ->
  has f1 F_LastPrefix = has f2 F_LastPrefix ->
  has f1 F_Level = has f2 F_Level ->
  has f1 F_NewLine = has f2 F_NewLine ->
  rendered_writer <$> TextLogFunc buf entry f1 w pool =
  rendered_writer <$> TextLogFunc buf entry f2 w pool.
Proof.
  intros H1 H2 H3 H4 H5 H6. unfold TextLogFunc, Text_time, Text_newline.
  rewrite H1, H2, H3, H4, H5, H6.
  destruct (if has f2 (Z.lor F_Time F_Micro) then _ else Some buf) as [b1|];
    [|reflexivity].
  cbn [mbind option_bind].
  match goal with
  | |- context [if has f2 F_NewLine then ?x else ?y] =>
      destruct (if has f2 F_NewLine then x else y) as [b2|]; [|reflexivity]
  end.
  cbn [mbind option_bind].
  destruct (AddCompiled f1 _ _ _ _) as [e1 p1].
  destruct (AddCompiled f2 _ _ _ _) as [e2 p2].
  destruct (Write w (bytes b2)) as [w' err]. reflexivity.
Qed.

(** X5: [F_LastPrefix] overrides [F_Prefix]: with [F_LastPrefix] set, setting
    [F_Prefix] as well changes neither the bytes the text renderer writes nor
    the object the JSON renderer builds. *)
Theorem LastPrefix_overrides_Prefix buf entry flags w pool :
  has flags F_LastPrefix = true ->
  rendered_writer <$> TextLogFunc buf entry (Z.lor flags F_Prefix) w pool =
  rendered_writer <$> TextLogFunc buf entry flags w pool /\
  JSONLogFunc_m entry (Z.lor flags F_Prefix) = JSONLogFunc_m entry flags.
Proof.
  intros Hl.
  assert (Hboth : has flags (Z.lor F_Prefix F_LastPrefix) = true)
    by (rewrite has_lor_r, Hl; apply orb_true_r).
  assert (Hboth' : has (Z.lor flags F_Prefix) (Z.lor F_Prefix F_LastPrefix) = true)
    by (rewrite has_lor_l, Hboth; reflexivity).
  assert (Hother : forall x, has F_Prefix x = false ->
                             has (Z.lor flags F_Prefix) x = has flags x)
    by (intros x Hx; rewrite has_lor_l, Hx; apply orb_false_r).
  split.
  - apply TextLogFunc_writer_ext;
      try (apply Hother; reflexivity). now rewrite Hboth, Hboth'.
  - unfold JSONLogFunc_m, JSON_head, JSON_fields.
    rewrite Hboth, Hboth'.
    rewrite !(Hother F_Time), !(Hother F_LastPrefix), !(Hother F_Level),
      !(Hother F_Fields_A), !(Hother F_Fields), !(Hother F_Fields_B),
      !(Hother (Z.lor F_Fields (Z.lor F_Fields_A F_Fields_B))) by reflexivity.
    reflexivity.
Qed.

Lemma LastPrefix_overrides_Prefix_witness :
  let entry := mkEntry sample_time ["api"; "db"] L_Info "hello" [] [] in
  let w := mkWriter [] None false None 0 in
  has F_LastPrefix F_LastPrefix = true /\
  JSONLogFunc_m entry (Z.lor F_LastPrefix F_Prefix)
    = [("prefix", VString "db"); ("msg", VString "hello")].
Proof.
  intros entry w.
  assert (H : has F_LastPrefix F_LastPrefix = true) by reflexivity.
  split; [exact H|].
  rewrite (proj2 (LastPrefix_overrides_Prefix (mkBuf 0 "") entry F_LastPrefix w
                    sample_pool H)).
  reflexivity.
Defined.

(** X6: [F_Micro] assumes [F_Time] in the text renderer, which writes the
    same bytes whether [F_Time] is set beside it or not, and is ignored by
    the JSON renderer, which builds the same object with and without it. *)
Theorem Micro_assumes_Time buf entry flags w pool :
  has flags F_Micro = true ->
  rendered_writer <$> TextLogFunc buf entry (Z.lor flags F_Time) w pool =
  rendered_writer <$> TextLogFunc buf entry flags w pool /\
  JSONLogFunc_m entry (Z.land flags (Z.lnot F_Micro)) = JSONLogFunc_m entry flags.
Proof.
  intros Hm.
  assert (Hany : has flags (Z.lor F_Time F_Micro) = true)
    by (rewrite has_lor_r, Hm; apply orb_true_r).
  assert (Hany' : has (Z.lor flags F_Time) (Z.lor F_Time F_Micro) = true)
    by (rewrite has_lor_l, Hany; reflexivity).
  assert (Hother : forall x, has F_Time x = false ->
                             has (Z.lor flags F_Time) x = has flags x)
    by (intros x Hx; rewrite has_lor_l, Hx; apply orb_false_r).
  split.
  - apply TextLogFunc_writer_ext;
      try (apply Hother; reflexivity). now rewrite Hany, Hany'.
  - assert (Hclr : forall x, Z.land F_Micro x = 0 ->
                             has (Z.land flags (Z.lnot F_Micro)) x = has flags x).
    { intros x Hx. unfold has. f_equal. f_equal.
      apply Z.bits_inj'. intros n Hn.
      apply (f_equal (fun z => Z.testbit z n)) in Hx.
      rewrite Z.land_spec, Z.bits_0 in Hx.
      rewrite !Z.land_spec, Z.lnot_spec by exact Hn.
      destruct (Z.testbit F_Micro n), (Z.testbit x n), (Z.testbit flags n);
        cbn in *; congruence. }
    unfold JSONLogFunc_m, JSON_head, JSON_fields.
    rewrite !(Hclr F_Time), !(Hclr (Z.lor F_Prefix F_LastPrefix)),
      !(Hclr F_LastPrefix), !(Hclr F_Level), !(Hclr F_Fields_A),
      !(Hclr F_Fields), !(Hclr F_Fields_B),
      !(Hclr (Z.lor F_Fields (Z.lor F_Fields_A F_Fields_B))) by reflexivity.
    reflexivity.
Qed.

Lemma Micro_assumes_Time_witness :
  let entry := sample_entry "hello" in
  let w := mkWriter [] None false None 0 in
  has F_Micro F_Micro = true /\
  written <$> (rendered_writer <$>
                 TextLogFunc (mkBuf 0 "") entry (Z.lor F_Micro F_Time) w
                   sample_pool)
  = Some ["02/01/2024 03:04:05.000000 hello"].
Proof.
  intros entry w.
  assert (H : has F_Micro F_Micro = true) by reflexivity.
  split; [exact H|].
  rewrite (proj1 (Micro_assumes_Time (mkBuf 0 "") entry F_Micro w sample_pool H)).
  vm_compute. reflexivity.
Defined.

(** ** The JSON renderer, whole *)


(** ** Outputs and the cache *)

Lemma TextLogFunc_inv buf entry flags w pool entry' pool' w' err :
  TextLogFunc buf entry flags w pool = Some (entry', pool', w', err) ->
  exists bf,
    AddCompiled flags T_Text bf entry pool = (entry', pool') /\
    w' = (Write w (bytes bf)).1 /\ err = write_err w.
Proof.
  unfold TextLogFunc. intros H.
  destruct (Text_time _ _ _) as [b1|]; [|discriminate].
  cbn [mbind option_bind] in H.
  destruct (Text_newline _ _ _) as [b2|]; [|discriminate].
  cbn [mbind option_bind] in H. exists b2.
  destruct (AddCompiled flags T_Text b2 entry pool) as [en pl].
  cbn [Write] in *. injection H as <- <- <- <-. auto.
Qed.

Lemma GetCompiled_AddCompiled_same flags outputType buf entry pool :
  has flags F_NotSave = false ->
  GetCompiled flags outputType (AddCompiled flags outputType buf entry pool).1 =
    Some (default buf (GetCompiled flags outputType entry)).
Proof.
  intros Hns. unfold AddCompiled, GetCompiled. rewrite Hns.
  destruct (find_compiled flags outputType (CompiledOf entry)) as [c|] eqn:Hf;
    cbn [fst].
  - rewrite Hf. reflexivity.
  - cbn. rewrite find_compiled_app, Hf. cbn. rewrite !Z.eqb_refl. reflexivity.
Qed.

(** X8: a text output writes one chunk for a record at or above its
    threshold and hands back the writer's error; for a record below the
    threshold it does nothing at all: the writer, the entry and the pool are
    as before and the answer is nil. *)
Theorem text_output_threshold o entry pool o' entry' pool' err :
  ow_LogFunc o = Some TextLogFunc ->
  outputWrapper_Log o entry pool = Some (o', entry', pool', err) ->
  if Permits (ow_logLevel o) (Level entry)
  then (exists chunk, written (ow_w o') = written (ow_w o) ++ [chunk]) /\
       err = write_err (ow_w o)
  else o' = o /\ entry' = entry /\ pool' = pool /\ err = None.
Proof.
  intros Hlf. unfold outputWrapper_Log. rewrite Hlf.
  destruct (Permits (ow_logLevel o) (Level entry)).
  - destruct (GetCompiled _ _ _) as [buf|].
    + cbn [Write]. intros [= <- <- <- <-]. cbn. eauto.
    + destruct (getBuf pool) as [b p1].
      destruct (TextLogFunc b entry (ow_flags o) (ow_w o) p1)
        as [[[[e1 p2] w1] er]|] eqn:Ht; [|discriminate].
      cbn [mbind option_bind]. intros [= <- <- <- <-].
      apply TextLogFunc_inv in Ht as (bf & _ & -> & ->). cbn. eauto.
  - intros [= <- <- <- <-]. auto.
Qed.

Lemma text_output_threshold_witness :
  let o := set_logLevel text_output L_Warn in
  let entry := sample_entry "hello" in
  ow_LogFunc o = Some TextLogFunc /\
  outputWrapper_Log o entry sample_pool = Some (o, entry, sample_pool, None) /\
  Permits (ow_logLevel o) (Level entry) = false.
Proof.
  intros o entry.
  assert (Hl : ow_LogFunc o = Some TextLogFunc) by reflexivity.
  assert (Hr : outputWrapper_Log o entry sample_pool
               = Some (o, entry, sample_pool, None)) by reflexivity.
  split; [exact Hl|]. split; [exact Hr|].
  pose proof (text_output_threshold o entry sample_pool o entry sample_pool None
                Hl Hr) as H.
  destruct (Permits (ow_logLevel o) (Level entry)); [|reflexivity].
  destruct H as [[chunk Hc] _]. exfalso.
  apply (f_equal length) in Hc. rewrite length_app in Hc. cbn in Hc. lia.
Defined.

(** X9: two outputs with the same flags and the text type share one
    rendering: once a text output has delivered a record, with caching on, a
    second output with these flags writes the very chunk the first one wrote,
    whatever its own render function is, and leaves the entry and the pool as
    they are, taking no buffer and rendering nothing. *)
Theorem same_key_outputs_share o1 o2 logFunc entry pool o1' entry' pool' e1 :
  ow_LogFunc o1 = Some TextLogFunc -> ow_outputType o1 = T_Text ->
  has (ow_flags o1) F_NotSave = false ->
  Permits (ow_logLevel o1) (Level entry) = true ->
  ow_LogFunc o2 = Some logFunc -> ow_outputType o2 = T_Text ->
  ow_flags o2 = ow_flags o1 ->
  Permits (ow_logLevel o2) (Level entry) = true ->
  outputWrapper_Log o1 entry pool = Some (o1', entry', pool', e1) ->
  exists chunk,
    written (ow_w o1') = written (ow_w o1) ++ [chunk] /\
    outputWrapper_Log o2 entry' pool' =
      Some (set_w o2 (Write (ow_w o2) chunk).1, entry', pool',
            write_err (ow_w o2)).
Proof.
  intros Hlf1 Ht1 Hns Hp1 Hlf2 Ht2 Hfl Hp2.
  assert (Hhit : forall en buf pl,
            GetCompiled (ow_flags o1) T_Text en = Some buf ->
            Permits (ow_logLevel o2) (Level en) = true ->
            outputWrapper_Log o2 en pl =
              Some (set_w o2 (Write (ow_w o2) (bytes buf)).1, en, pl,
                    write_err (ow_w o2))).
  { intros en buf pl Hg Hp. unfold outputWrapper_Log.
    rewrite Hlf2, Hp, Ht2, Hfl, Hg. reflexivity. }
  unfold outputWrapper_Log at 1. rewrite Hlf1, Hp1, Ht1.
  destruct (GetCompiled (ow_flags o1) T_Text entry) as [buf|] eqn:Hg.
  - cbn [Write]. intros [= <- <- <- <-]. exists (bytes buf).
    split; [reflexivity|]. apply Hhit; assumption.
  - destruct (getBuf pool) as [b p1].
    destruct (TextLogFunc b entry (ow_flags o1) (ow_w o1) p1)
      as [[[[en1 p2] w1] er]|] eqn:Ht; [|discriminate].
    cbn [mbind option_bind]. intros [= <- <- <- <-].
    apply TextLogFunc_inv in Ht as (bf & Ha & -> & ->).
    exists (bytes bf). split; [reflexivity|].
    pose proof (GetCompiled_AddCompiled_same (ow_flags o1) T_Text bf entry p1 Hns)
      as Hsame.
    rewrite Ha, Hg in Hsame. cbn [fst default] in Hsame.
    apply Hhit; [exact Hsame|].
    replace (Level en1) with (Level entry); [exact Hp2|].
    unfold AddCompiled in Ha. rewrite Hns in Ha.
    destruct (find_compiled _ _ _); injection Ha as <- _; reflexivity.
Qed.

Lemma same_key_outputs_share_witness :
  let o1 := set_logLevel text_output L_Debug in
  let o2 := NewOutputWrapper sample_writer false F_Std T_Text L_Info
              (Some closedLogFunc) None in
  let entry := sample_entry "hello" in
  exists o1' entry' pool' e1 chunk,
    outputWrapper_Log o1 entry sample_pool = Some (o1', entry', pool', e1) /\
    outputWrapper_Log o2 entry' pool' =
      Some (set_w o2 (Write (ow_w o2) chunk).1, entry', pool',
            write_err (ow_w o2)).
Proof.
  intros o1 o2 entry.
  destruct (outputWrapper_Log o1 entry sample_pool)
    as [[[[o1' entry'] pool'] e1]|] eqn:Hlog.
  - destruct (same_key_outputs_share o1 o2 closedLogFunc entry sample_pool
                o1' entry' pool' e1) as (chunk & _ & H);
      try reflexivity; [exact Hlog|].
    exists o1', entry', pool', e1, chunk. auto.
  - exfalso.
    assert (Hs : is_Some (outputWrapper_Log o1 entry sample_pool)).
    { apply (proj1 (bool_decide_spec _)). vm_compute. reflexivity. }
    rewrite Hlog in Hs. destruct Hs as [? Hx]. discriminate Hx.
Defined.

(** X10: with [F_NotSave] in its flags a text output never touches the cache
    of the entry; the buffer it renders into is handed back to the pool
    before its bytes are written, so that the chunk written is what the
    first buffer of the pool holds afterwards. *)
Theorem NotSave_never_caches o entry pool o' entry' pool' err :
  ow_LogFunc o = Some TextLogFunc ->
  has (ow_flags o) F_NotSave = true ->
  Permits (ow_logLevel o) (Level entry) = true ->
  outputWrapper_Log o entry pool = Some (o', entry', pool', err) ->
  entry' = entry /\
  exists bf rest,
    free pool' = bf :: rest /\
    written (ow_w o') = written (ow_w o) ++ [bytes bf].
Proof.
  intros Hlf Hns Hp. unfold outputWrapper_Log, GetCompiled.
  rewrite Hlf, Hp, Hns.
  destruct (getBuf pool) as [b p1].
  destruct (TextLogFunc b entry (ow_flags o) (ow_w o) p1)
    as [[[[en1 p2] w1] er]|] eqn:Ht; [|discriminate].
  cbn [mbind option_bind]. intros [= <- <- <- <-].
  apply TextLogFunc_inv in Ht as (bf & Ha & -> & ->).
  unfold AddCompiled in Ha. rewrite Hns in Ha. injection Ha as <- <-.
  split; [reflexivity|]. exists bf, (free p1). auto.
Qed.

Lemma NotSave_never_caches_witness :
  let o := set_flags (set_logLevel text_output L_Debug) (Z.lor F_Level F_NotSave) in
  let entry := sample_entry "hello" in
  ow_LogFunc o = Some TextLogFunc /\
  has (ow_flags o) F_NotSave = true /\
  Permits (ow_logLevel o) (Level entry) = true /\
  exists o' entry' pool' err,
    outputWrapper_Log o entry sample_pool = Some (o', entry', pool', err) /\
    entry' = entry.
Proof.
  intros o entry.
  assert (H1 : ow_LogFunc o = Some TextLogFunc) by reflexivity.
  assert (H2 : has (ow_flags o) F_NotSave = true) by reflexivity.
  assert (H3 : Permits (ow_logLevel o) (Level entry) = true) by reflexivity.
  split; [exact H1|]. split; [exact H2|]. split; [exact H3|].
  destruct (outputWrapper_Log o entry sample_pool)
    as [[[[o' entry'] pool'] err]|] eqn:Hlog.
  - exists o', entry', pool', err. split; [reflexivity|].
    exact (proj1 (NotSave_never_caches o entry sample_pool o' entry' pool' err
                    H1 H2 H3 Hlog)).
  - exfalso.
    assert (Hs : is_Some (outputWrapper_Log o entry sample_pool)).
    { apply (proj1 (bool_decide_spec _)). vm_compute. reflexivity. }
    rewrite Hlog in Hs. destruct Hs as [? Hx]. discriminate Hx.
Defined.

(** X11: an output made by [NewOutputWrapper] is keyed as text in the cache
    whatever output type it was made with: when the entry holds a text
    rendering for its flags, it writes those bytes and does not call its own
    render function. *)
Theorem NewOutputWrapper_keyed_as_text w close flags output logLevel logFunc
    closeFunc entry pool buf :
  GetCompiled flags T_Text entry = Some buf ->
  Permits logLevel (Level entry) = true ->
  let o := NewOutputWrapper w close flags output logLevel (Some logFunc)
             closeFunc in
  GetOutputType o = T_Text /\
  outputWrapper_Log o entry pool =
    Some (set_w o (Write w (bytes buf)).1, entry, pool, write_err w).
Proof.
  intros Hg Hp o. split; [reflexivity|].
  unfold outputWrapper_Log, o, NewOutputWrapper. cbn [ow_LogFunc ow_logLevel
    ow_flags ow_outputType ow_w].
  rewrite Hp. change 0 with T_Text. rewrite Hg. reflexivity.
Qed.

Lemma NewOutputWrapper_keyed_as_text_witness :
  let buf := mkBuf 0 "[INFO] hello" in
  let entry :=
    mkEntry sample_time [] L_Info "hello" [] [mkCompiled F_Level T_Text buf] in
  let o := NewOutputWrapper sample_writer false F_Level T_JSON L_Info
             (Some closedLogFunc) None in
  GetCompiled F_Level T_Text entry = Some buf /\
  Permits L_Info (Level entry) = true /\
  (fun r => written (ow_w r.1.1.1)) <$> outputWrapper_Log o entry sample_pool
    = Some ["[INFO] hello"].
Proof.
  intros buf entry o.
  assert (H1 : GetCompiled F_Level T_Text entry = Some buf) by reflexivity.
  assert (H2 : Permits L_Info (Level entry) = true) by reflexivity.
  split; [exact H1|]. split; [exact H2|].
  unfold o.
  rewrite (proj2 (NewOutputWrapper_keyed_as_text sample_writer false F_Level
                    T_JSON L_Info closedLogFunc None entry sample_pool buf H1 H2)).
  reflexivity.
Defined.

Lemma TextLogFunc_is_Some buf entry flags w pool :
  Time_ok (Time_ entry) -> Msg entry <> "" ->
  is_Some (TextLogFunc buf entry flags w pool).
Proof.
  intros Ht Hm. unfold TextLogFunc.
  destruct (Text_time_Some buf (Time_ entry) flags Ht) as [b1 ->].
  cbn [mbind option_bind]. unfold Text_newline.
  destruct (last_byte_in_range _ Hm) as [c ->].
  destruct (has flags F_NewLine); cbn [mbind option_bind];
    destruct (AddCompiled _ _ _ _ _); cbn [Write]; eauto.
Qed.

(** ** Counting registrations *)

Lemma LogClose_times_spec (k : nat) : forall (o : outputWrapper) (a : nat),
  ow_add o = Z.of_nat a ->
  ow_CloseFunc o = Some DefaultCloseFunc ->
  ow_close o = true -> closer (ow_w o) = true ->
  closes (ow_w (LogClose_times k o).1) = (closes (ow_w o) + (k - (a - 1)))%nat /\
  (LogClose_times k o).2 =
    repeat None (Nat.min k (a - 1)) ++ repeat (close_err (ow_w o)) (k - (a - 1)).
Proof.
  induction k as [|k IH]; intros o a Ha Hcf Hcl Hcr.
  - cbn. split; [lia|reflexivity].
  - cbn [LogClose_times]. unfold outputWrapper_LogClose.
    destruct (Z.ltb_spec 1 (ow_add o)) as [Hlt|Hle].
    + destruct (IH (set_add o (ow_add o - 1)) (a - 1)%nat) as [IH1 IH2];
        [cbn; lia|exact Hcf|exact Hcl|exact Hcr|].
      destruct (LogClose_times k (set_add o (ow_add o - 1))) as [o2 es].
      cbn [fst snd] in *. change (ow_w (set_add o (ow_add o - 1))) with (ow_w o) in *.
      rewrite IH1, IH2. split; [lia|].
      replace (Nat.min (S k) (a - 1)) with (S (Nat.min k (a - 1 - 1))) by lia.
      replace (S k - (a - 1))%nat with (k - (a - 1 - 1))%nat by lia.
      reflexivity.
    + rewrite Hcf. unfold DefaultCloseFunc. rewrite Hcl, Hcr. cbn [andb Writer_Close].
      set (w1 := mkWriter _ _ _ _ _).
      destruct (IH (set_w o w1) a) as [IH1 IH2];
        [exact Ha|exact Hcf|exact Hcl|exact Hcr|].
      destruct (LogClose_times k (set_w o w1)) as [o2 es].
      cbn [fst snd] in *. change (ow_w (set_w o w1)) with w1 in *.
      rewrite IH1, IH2. unfold w1. cbn [closes close_err].
      replace (a - 1)%nat with 0%nat by lia.
      split; [lia|]. rewrite !Nat.sub_0_r, !Nat.min_0_r. reflexivity.
Qed.

Lemma iter_OnAdd_add (n : nat) (o : outputWrapper) :
  ow_add (Nat.iter n outputWrapper_OnAdd o) = ow_add o + Z.of_nat n /\
  ow_w (Nat.iter n outputWrapper_OnAdd o) = ow_w o /\
  ow_CloseFunc (Nat.iter n outputWrapper_OnAdd o) = ow_CloseFunc o /\
  ow_close (Nat.iter n outputWrapper_OnAdd o) = ow_close o.
Proof.
  induction n as [|n (IH1 & IH2 & IH3 & IH4)].
  - cbn. repeat split; lia.
  - rewrite Nat.iter_succ. unfold outputWrapper_OnAdd at 1 3 5 7.
    cbn [ow_add ow_w ow_CloseFunc ow_close set_add].
    rewrite IH1. repeat split; try assumption. lia.
Qed.

(** X12: an output registered [n] times and closed by the default close
    function leaves its writer alone during the first [n - 1] calls of
    [LogClose], which answer nil; from the [n]-th call on every call closes
    the writer again, the count staying at one. An output that was never
    registered is closed by the first call. *)
Theorem LogClose_counts_registrations (o : outputWrapper) (n k : nat) :
  ow_add o = 0 ->
  ow_CloseFunc o = Some DefaultCloseFunc ->
  ow_close o = true -> closer (ow_w o) = true ->
  let r := LogClose_times k (Nat.iter n outputWrapper_OnAdd o) in
  closes (ow_w r.1) = (closes (ow_w o) + (k - (n - 1)))%nat /\
  r.2 = repeat None (Nat.min k (n - 1)) ++
        repeat (close_err (ow_w o)) (k - (n - 1)).
Proof.
  intros Ha Hcf Hcl Hcr r.
  destruct (iter_OnAdd_add n o) as (E1 & E2 & E3 & E4).
  destruct (LogClose_times_spec k (Nat.iter n outputWrapper_OnAdd o) n)
    as [H1 H2].
  - rewrite E1, Ha. lia.
  - rewrite E3. exact Hcf.
  - rewrite E4. exact Hcl.
  - rewrite E2. exact Hcr.
  - rewrite E2 in H1, H2. auto.
Qed.

Lemma LogClose_counts_registrations_witness :
  let o := NewTextOutput sample_writer F_Std true in
  let r := LogClose_times 5 (Nat.iter 3 outputWrapper_OnAdd o) in
  closes (ow_w r.1) = 3%nat /\ r.2 = [None; None; None; None; None].
Proof.
  intros o r.
  exact (LogClose_counts_registrations o 3 5 eq_refl eq_refl eq_refl eq_refl).
Defined.

(** ** Removal by swapping in the last element *)

(** What [l[i] = l[len(l)-1]; l = l[:len(l)-1]] makes of a slice, by the
    place of [i]. *)
Lemma swap_remove_last {A : Type} (l1 : list A) (e : A) :
  (x ← index (l1 ++ [e]) (Z.of_nat (length (l1 ++ [e])) - 1);
   l' ← store (l1 ++ [e]) (Z.of_nat (length l1)) x;
   Some (take (Z.to_nat (Z.of_nat (length (l1 ++ [e])) - 1)) l')) = Some l1.
Proof.
  rewrite length_app. cbn [length].
  replace (Z.of_nat (length l1 + 1) - 1) with (Z.of_nat (length l1)) by lia.
  unfold index, store.
  destruct (Z.ltb_spec (Z.of_nat (length l1)) 0) as [|_]; [lia|].
  rewrite Nat2Z.id, lookup_app_r, Nat.sub_diag by lia.
  cbn [lookup list_lookup mbind option_bind].
  destruct (Z.leb_spec 0 (Z.of_nat (length l1))) as [_|]; [|lia].
  rewrite length_app. cbn [length].
  destruct (Z.ltb_spec (Z.of_nat (length l1)) (Z.of_nat (length l1 + 1)))
    as [_|]; [|lia].
  cbn [andb mbind option_bind].
  rewrite insert_app_r_alt, Nat.sub_diag by lia. cbn [insert list_insert].
  rewrite take_app_length. reflexivity.
Qed.

Lemma swap_remove_inner {A : Type} (l1 l2 : list A) (e z : A) :
  (x ← index (l1 ++ e :: l2 ++ [z])
         (Z.of_nat (length (l1 ++ e :: l2 ++ [z])) - 1);
   l' ← store (l1 ++ e :: l2 ++ [z]) (Z.of_nat (length l1)) x;
   Some (take (Z.to_nat (Z.of_nat (length (l1 ++ e :: l2 ++ [z])) - 1)) l'))
  = Some (l1 ++ z :: l2).
Proof.
  assert (Hlen : length (l1 ++ e :: l2 ++ [z]) = S (length (l1 ++ e :: l2))).
  { rewrite !length_app. cbn [length]. rewrite length_app. cbn [length]. lia. }
  rewrite Hlen.
  replace (Z.of_nat (S (length (l1 ++ e :: l2))) - 1)
    with (Z.of_nat (length (l1 ++ e :: l2))) by lia.
  unfold index, store.
  destruct (Z.ltb_spec (Z.of_nat (length (l1 ++ e :: l2))) 0) as [|_]; [lia|].
  rewrite Nat2Z.id.
  replace (l1 ++ e :: l2 ++ [z]) with ((l1 ++ e :: l2) ++ [z])
    by (rewrite <- app_assoc; reflexivity).
  rewrite lookup_app_r, Nat.sub_diag by lia.
  cbn [lookup list_lookup mbind option_bind].
  destruct (Z.leb_spec 0 (Z.of_nat (length l1))) as [_|]; [|lia].
  assert (Hl1 : (length l1 < length (l1 ++ e :: l2))%nat).
  { rewrite length_app. cbn [length]. lia. }
  destruct (Z.ltb_spec (Z.of_nat (length l1))
              (Z.of_nat (length ((l1 ++ e :: l2) ++ [z])))) as [_|Hge].
  2:{ rewrite length_app in Hge. lia. }
  cbn [andb mbind option_bind]. rewrite Nat2Z.id.
  rewrite insert_app_l by exact Hl1.
  rewrite take_app_length' by (rewrite length_insert; reflexivity).
  rewrite insert_app_r_alt, Nat.sub_diag by lia. reflexivity.
Qed.

(** ** The ordered map *)

Lemma find_key_spec (key : string) (m : M) : forall i,
  match find_key key m i with
  | Some (j, e) =>
      exists l1 l2, m = l1 ++ e :: l2 /\ Key e = key /\
        Forall (fun x => Key x <> key) l1 /\ j = i + Z.of_nat (length l1)
  | None => Forall (fun x => Key x <> key) m
  end.
Proof.
  induction m as [|x m IH]; intros i; cbn [find_key].
  - constructor.
  - destruct (decide (Key x = key)) as [Hk|Hk].
    + exists [], m. cbn. repeat split; auto. lia.
    + specialize (IH (i + 1)). destruct (find_key key m (i + 1)) as [[j e]|].
      * destruct IH as (l1 & l2 & -> & He & Hf & ->).
        exists (x :: l1), l2. cbn [length app]. repeat split; auto. lia.
      * constructor; assumption.
Qed.

(** X13: [Remove] takes out the first entry with the key and hands it back,
    and puts the last entry of the map in its place, so that the entries
    after it do not keep their order; a map without the key is left as it
    is; no slice access goes out of range. *)
Theorem Remove_first_occurrence (m : M) (key : string) :
  (Forall (fun x => Key x <> key) m -> Remove m key = Some (m, None)) /\
  (forall l1 e l2,
     m = l1 ++ e :: l2 -> Key e = key -> Forall (fun x => Key x <> key) l1 ->
     Remove m key =
       Some (match reverse l2 with
             | [] => l1
             | z :: l2' => l1 ++ z :: reverse l2'
             end, Some e)).
Proof.
  split.
  - intros Hf. unfold Remove. pose proof (find_key_spec key m 0) as H.
    destruct (find_key key m 0) as [[j e]|]; [|reflexivity].
    destruct H as (l1 & l2 & -> & He & _). exfalso.
    rewrite Forall_app, Forall_cons in Hf. tauto.
  - intros l1 e l2 -> He Hf. unfold Remove.
    pose proof (find_key_spec key (l1 ++ e :: l2) 0) as H.
    destruct (find_key key (l1 ++ e :: l2) 0) as [[j e']|].
    + destruct H as (k1 & k2 & Heq & He' & Hf' & ->).
      assert (Hk : k1 = l1 /\ e' = e /\ k2 = l2).
      { clear -Heq He He' Hf Hf'. revert k1 Heq Hf'.
        induction l1 as [|a l1 IH]; intros [|c k1] Heq Hf'; cbn in Heq.
        - injection Heq as H1 H2. subst. auto.
        - injection Heq as H1 H2. subst. apply Forall_cons in Hf' as [Hc _].
          contradiction.
        - injection Heq as H1 H2. subst. apply Forall_cons in Hf as [Ha _].
          contradiction.
        - injection Heq as H1 Heq. subst. apply Forall_cons in Hf as [_ Hf].
          apply Forall_cons in Hf' as [_ Hf'].
          destruct (IH Hf k1 Heq Hf') as (-> & -> & ->). auto. }
      destruct Hk as (-> & -> & ->). rewrite Z.add_0_l.
      destruct l2 as [|z l2 _] using rev_ind.
      * cbn [reverse rev_append]. pose proof (swap_remove_last l1 e) as Hs.
        cbv zeta.
        destruct (index _ _) as [x|]; [|discriminate Hs].
        cbn [mbind option_bind] in *.
        destruct (store _ _ _) as [l'|]; [|discriminate Hs].
        cbn [mbind option_bind] in *. injection Hs as ->. reflexivity.
      * rewrite reverse_app, reverse_singleton. cbn [app].
        rewrite reverse_involutive.
        pose proof (swap_remove_inner l1 l2 e z) as Hs. cbv zeta.
        destruct (index _ _) as [x|]; [|discriminate Hs].
        cbn [mbind option_bind] in *.
        destruct (store _ _ _) as [l'|]; [|discriminate Hs].
        cbn [mbind option_bind] in *. injection Hs as ->. reflexivity.
    + exfalso. rewrite Forall_app, Forall_cons in H. tauto.
Qed.

Lemma Remove_first_occurrence_witness :
  Remove [("a", VString "1"); ("b", VString "2"); ("a", VString "3");
          ("c", VString "4")] "a"
  = Some ([("c", VString "4"); ("b", VString "2"); ("a", VString "3")],
          Some ("a", VString "1")).
Proof.
  exact (proj2 (Remove_first_occurrence
                  [("a", VString "1"); ("b", VString "2"); ("a", VString "3");
                   ("c", VString "4")] "a")
           [] ("a", VString "1")
           [("b", VString "2"); ("a", VString "3"); ("c", VString "4")]
           eq_refl eq_refl (Forall_nil_2 _)).
Defined.

(** ** The registry *)

Section RegistryFacts.
Context {O : Type} `{!Output O}.
Implicit Types s : manager O.

Lemma position_spec (p : ptr) (outs : list ptr) : forall i,
  match position p outs i with
  | Some j =>
      exists l1 l2, outs = l1 ++ p :: l2 /\ (p ∉ l1) /\
        j = i + Z.of_nat (length l1)
  | None => p ∉ outs
  end.
Proof.
  induction outs as [|v outs IH]; intros i; cbn [position].
  - apply not_elem_of_nil.
  - destruct (decide (v = p)) as [->|Hv].
    + exists [], outs. cbn. split; [reflexivity|].
      split; [apply not_elem_of_nil | lia].
    + specialize (IH (i + 1)). destruct (position p outs (i + 1)) as [j|].
      * destruct IH as (l1 & l2 & -> & Hn & ->). exists (v :: l1), l2.
        cbn [length app]. split; [reflexivity|]. split; [|lia].
        rewrite not_elem_of_cons. auto.
      * rewrite not_elem_of_cons. auto.
Qed.

Lemma remove_locked_absent p s :
  p ∉ outputs s -> remove_locked p s = Some (s, false).
Proof.
  intros Hn. unfold remove_locked. pose proof (position_spec p (outputs s) 0) as H.
  destruct (position p (outputs s) 0); [|reflexivity].
  destruct H as (l1 & l2 & Heq & _). exfalso. apply Hn. rewrite Heq.
  apply elem_of_app. right. apply list_elem_of_here.
Qed.

Lemma remove_locked_present p s l1 l2 :
  outputs s = l1 ++ p :: l2 -> p ∉ l1 ->
  remove_locked p s =
    Some (set_outputs s (match reverse l2 with
                         | [] => l1
                         | z :: l2' => l1 ++ z :: reverse l2'
                         end), true).
Proof.
  intros Heq Hn. unfold remove_locked.
  pose proof (position_spec p (outputs s) 0) as H.
  destruct (position p (outputs s) 0) as [j|].
  - destruct H as (k1 & k2 & Heq' & Hn' & ->).
    assert (Hk : k1 = l1 /\ k2 = l2).
    { rewrite Heq in Heq'. clear -Heq' Hn Hn'. revert k1 Heq' Hn'.
      induction l1 as [|a l1 IH]; intros [|c k1] Heq' Hn'; cbn in Heq'.
      - injection Heq' as H1. subst. auto.
      - injection Heq' as H1 H2. subst. exfalso. apply Hn', list_elem_of_here.
      - injection Heq' as H1 H2. subst. exfalso. apply Hn, list_elem_of_here.
      - injection Heq' as H1 Heq'. subst.
        rewrite not_elem_of_cons in Hn, Hn'.
        destruct (IH (proj2 Hn) k1 Heq' (proj2 Hn')) as [-> ->]. auto. }
    destruct Hk as [-> ->]. rewrite Z.add_0_l, Heq. cbv zeta.
    destruct l2 as [|z l2 _] using rev_ind.
    + cbn [reverse rev_append]. pose proof (swap_remove_last l1 p) as Hs.
      destruct (index _ _) as [x|]; [|discriminate Hs].
      cbn [mbind option_bind] in *.
      destruct (store _ _ _) as [l'|]; [|discriminate Hs].
      cbn [mbind option_bind] in *. injection Hs as ->. reflexivity.
    + rewrite reverse_app, reverse_singleton. cbn [app].
      rewrite reverse_involutive.
      pose proof (swap_remove_inner l1 l2 p z) as Hs.
      destruct (index _ _) as [x|]; [|discriminate Hs].
      cbn [mbind option_bind] in *.
      destruct (store _ _ _) as [l'|]; [|discriminate Hs].
      cbn [mbind option_bind] in *. injection Hs as ->. reflexivity.
  - exfalso. apply H. rewrite Heq. apply elem_of_app. right.
    apply list_elem_of_here.
Qed.

(** X14: [removeOutput] on an unlocked manager answers whether the output
    was registered; it takes out its first registration only, moves the
    last output of the registry into the gap, and touches nothing but the
    registry: no [LogClose] is called and the count of registrations kept by
    the output is not lowered. *)
Theorem removeOutput_first_registration p s :
  mu s = false ->
  (p ∉ outputs s -> removeOutput p s = Returns (s, false)) /\
  (forall l1 l2, outputs s = l1 ++ p :: l2 -> p ∉ l1 ->
     removeOutput p s =
       Returns (set_outputs s (match reverse l2 with
                               | [] => l1
                               | z :: l2' => l1 ++ z :: reverse l2'
                               end), true)).
Proof.
  intros Hmu. unfold removeOutput. rewrite Hmu. split.
  - intros Hn. rewrite remove_locked_absent by exact Hn. reflexivity.
  - intros l1 l2 Heq Hn. rewrite (remove_locked_present p s l1 l2 Heq Hn).
    reflexivity.
Qed.


End RegistryFacts.

Lemma removeOutput_first_registration_witness :
  let s : manager outputWrapper :=
    mkManager [1%nat; 0%nat; 2%nat; 0%nat; 3%nat] false false [] false Idle
      ∅ sample_pool [] 0%nat [] in
  mu s = false /\
  removeOutput 0%nat s =
    Returns (set_outputs s [1%nat; 3%nat; 2%nat; 0%nat], true).
Proof.
  intros s. split; [reflexivity|].
  refine (proj2 (removeOutput_first_registration 0%nat s eq_refl)
            [1%nat] [2%nat; 0%nat; 3%nat] eq_refl _).
  rewrite list_elem_of_singleton. discriminate.
Defined.


(** ** One pass of the worker *)

Lemma compact_subseteq (rm : list Z) : forall r (outs outs' : list ptr),
  compact rm r outs = Some outs' -> outs' ⊆ outs.
Proof.
  induction rm as [|i rm IH]; intros r outs outs'; cbn [compact].
  - intros [= <-]. reflexivity.
  - unfold index.
    destruct (Z.of_nat (length outs) - 1 <? 0); [discriminate|].
    destruct (outs !! Z.to_nat (Z.of_nat (length outs) - 1)) as [x|] eqn:Hx;
      [|discriminate].
    cbn [mbind option_bind]. unfold store.
    destruct ((0 <=? i - r) && (i - r <? Z.of_nat (length outs)));
      [|discriminate].
    cbn [mbind option_bind]. intros Hc. apply IH in Hc.
    intros y Hy. apply Hc, subseteq_take in Hy.
    apply list_elem_of_lookup in Hy as [j Hj].
    apply list_lookup_insert_Some in Hj as [(_ & <- & _)|[_ Hj]].
    + eapply list_elem_of_lookup_2, Hx.
    + eapply list_elem_of_lookup_2, Hj.
Qed.

Lemma closed_at_length (errs : list (option error)) : forall i,
  length (closed_at i errs) =
    length (filter (fun err => err = Some ErrOutputClosed) errs).
Proof.
  induction errs as [|e errs IH]; intros i; [reflexivity|].
  cbn [closed_at]. rewrite length_app, IH, filter_cons.
  destruct (decide (e = Some ErrOutputClosed)); reflexivity.
Qed.

Lemma closed_at_none (errs : list (option error)) : forall i,
  Forall (fun err => err <> Some ErrOutputClosed) errs -> closed_at i errs = [].
Proof.
  induction errs as [|e errs IH]; intros i Hf; [reflexivity|].
  apply Forall_cons in Hf as [He Hf]. cbn [closed_at].
  rewrite decide_False by exact He. cbn [app]. apply IH, Hf.
Qed.

Lemma closed_at_one (errs1 errs2 : list (option error)) : forall i,
  Forall (fun err => err <> Some ErrOutputClosed) errs1 ->
  Forall (fun err => err <> Some ErrOutputClosed) errs2 ->
  closed_at i (errs1 ++ Some ErrOutputClosed :: errs2) =
    [i + Z.of_nat (length errs1)].
Proof.
  induction errs1 as [|e errs1 IH]; intros i Hf1 Hf2.
  - cbn [app closed_at length]. rewrite decide_True by reflexivity.
    rewrite closed_at_none by exact Hf2. cbn. f_equal. lia.
  - apply Forall_cons in Hf1 as [He Hf1]. cbn [app closed_at].
    rewrite decide_False by exact He. cbn [app length].
    rewrite IH by assumption. f_equal. lia.
Qed.

Section PassFacts.
Context {O : Type} `{!Output O}.
Implicit Types s : manager O.

(** The sweep is these calls of [Log], and collects the places of the
    answers that are [ErrOutputClosed], of no other. *)
Lemma sweep_logged (outs : list ptr) :
  forall i en (os : gmap ptr O) pl rm en' os' pl' rm',
    sweep outs i en os pl rm = Some (en', os', pl', rm') ->
    exists errs,
      logged_in_turn outs en os pl en' os' pl' errs /\
      rm' = rm ++ closed_at i errs.
Proof.
  induction outs as [|p outs IH]; intros i en os pl rm en' os' pl' rm' H;
    cbn [sweep] in H.
  - injection H as <- <- <- <-. exists []. split; [constructor|].
    cbn. now rewrite app_nil_r.
  - destruct (os !! p) as [o|] eqn:Hp; [|discriminate].
    cbn [mbind option_bind] in H.
    destruct (Log o en pl) as [[[[o1 en1] pl1] e]|] eqn:Hlog; [|discriminate].
    cbn [mbind option_bind] in H.
    apply IH in H as (errs & Hl & ->). exists (e :: errs).
    split; [econstructor; eassumption|]. cbn [closed_at].
    destruct (decide (e = Some ErrOutputClosed)); [|reflexivity].
    now rewrite <- app_assoc.
Qed.

Lemma logged_sweep (outs : list ptr) en (os : gmap ptr O) pl en' os' pl' errs :
  logged_in_turn outs en os pl en' os' pl' errs ->
  forall i rm,
    sweep outs i en os pl rm = Some (en', os', pl', rm ++ closed_at i errs).
Proof.
  induction 1 as [en os pl|p outs en os pl o o' en1 pl1 e en' os' pl' errs
                          Hp Hlog _ IH]; intros i rm; cbn [sweep closed_at].
  - now rewrite app_nil_r.
  - rewrite Hp. cbn [mbind option_bind]. rewrite Hlog.
    cbn [mbind option_bind]. rewrite IH.
    destruct (decide (e = Some ErrOutputClosed)); [|reflexivity].
    now rewrite <- app_assoc.
Qed.

Lemma logged_length (outs : list ptr) en (os : gmap ptr O) pl en' os' pl' errs :
  logged_in_turn outs en os pl en' os' pl' errs -> length errs = length outs.
Proof. induction 1; cbn [length]; congruence. Qed.

(** X16: when the worker has called [Log] on every registered output and
    every call has returned, its pass goes through without a panic in the
    compaction.  The registry loses as many places as there were answers
    [ErrOutputClosed], and gains none; when no answer is [ErrOutputClosed],
    whatever other errors there are, the registry stays as it is; and when
    one answer is, what is left is the registry without the output that
    gave it, up to order. *)
Theorem pass_evicts_by_count e en s en' (os : gmap ptr O) pl errs :
  entry e = Some en ->
  logged_in_turn (outputs s) en (objs s) (pool s) en' os pl errs ->
  exists s',
    pass e s = Some (s', CompiledOf en') /\
    objs s' = os /\ pool s' = pl /\
    (length (outputs s') +
     length (filter (fun err => err = Some ErrOutputClosed) errs)
     = length (outputs s))%nat /\
    outputs s' ⊆ outputs s /\
    (Forall (fun err => err <> Some ErrOutputClosed) errs ->
     outputs s' = outputs s) /\
    (forall l1 p l2 errs1 errs2,
       outputs s = l1 ++ p :: l2 ->
       errs = errs1 ++ Some ErrOutputClosed :: errs2 ->
       length errs1 = length l1 ->
       Forall (fun err => err <> Some ErrOutputClosed) errs1 ->
       Forall (fun err => err <> Some ErrOutputClosed) errs2 ->
       outputs s ≡ₚ p :: outputs s').
Proof.
  intros He Hlog.
  pose proof (logged_sweep _ _ _ _ _ _ _ _ Hlog 0 []) as Hsw.
  cbn [app] in Hsw.
  unfold pass. rewrite He, Hsw. cbn [mbind option_bind].
  pose proof Hsw as Hrm. apply sweep_rm in Hrm as (new & Hnew & Hs & Hf).
  cbn [app] in Hnew. subst new.
  destruct (compact_in_range (closed_at 0 errs) 0 (outputs s))
    as (outs' & Hc & Hl); [lia | exact Hs | exact Hf |].
  rewrite Hc. cbn [mbind option_bind]. eexists. split; [reflexivity|].
  cbn [objs pool outputs record set_pool set_objs set_outputs].
  split; [reflexivity|]. split; [reflexivity|].
  split; [rewrite <- closed_at_length with (i := 0); exact Hl|].
  split; [exact (compact_subseteq _ _ _ _ Hc)|]. split.
  - intros Hnone. rewrite closed_at_none in Hc by exact Hnone.
    cbn in Hc. congruence.
  - intros l1 p l2 errs1 errs2 Hout -> Hlen Hf1 Hf2.
    rewrite closed_at_one in Hc by assumption.
    rewrite Z.add_0_l, Hlen in Hc.
    apply (compact_one (Z.of_nat (length l1)) (outputs s) outs' p);
      [|lia|exact Hc].
    rewrite Nat2Z.id, Hout. apply list_lookup_middle. reflexivity.
Qed.

End PassFacts.

Lemma pass_evicts_by_count_witness :
  let os : gmap ptr outputWrapper := {[ 0%nat := closed_output ]} in
  let s := mkManager [0%nat] false false [] false Idle os sample_pool []
             0%nat [] in
  exists s',
    fst <$> pass (mkItem (Some (sample_entry "hello")) None) s = Some s' /\
    outputs s' = [].
Proof.
  intros os s.
  assert (Hlog : logged_in_turn (outputs s) (sample_entry "hello") (objs s)
                   (pool s) (sample_entry "hello")
                   (<[0%nat := closed_output]> os) (mkPool [] 1)
                   [Some ErrOutputClosed]).
  { eapply logged_cons; [apply lookup_singleton_eq | reflexivity |].
    apply logged_nil. }
  destruct (pass_evicts_by_count (mkItem (Some (sample_entry "hello")) None)
              (sample_entry "hello") s _ _ _ _ eq_refl Hlog)
    as (s' & Hp & _ & _ & _ & _ & _ & H1).
  exists s'. rewrite Hp. split; [reflexivity|].
  specialize (H1 [] 0%nat [] [] [] eq_refl eq_refl eq_refl
                (Forall_nil_2 _) (Forall_nil_2 _)).
  apply Permutation_length in H1. cbn in H1.
  destruct (outputs s'); [reflexivity | cbn in H1; lia].
Defined.

(** ** Calls on a manager that is not at rest *)

Section QueueFacts.
Context {O : Type} `{!Output O}.
Implicit Types s : manager O.

Lemma send_room e s :
  ch_closed s = false -> (length (ch s) < capacity)%nat ->
  send e s = Returns (enqueue e s).
Proof.
  intros Hcc Hl. unfold send. rewrite Hcc.
  destruct (Nat.ltb_spec (length (ch s)) capacity); [reflexivity|lia].
Qed.

Lemma log_nonblocking_open en s :
  b s = false -> ch_closed s = false -> (length (ch s) < capacity)%nat ->
  log en false s = Returns (enqueue (mkItem en None) s, None).
Proof.
  intros Hb Hcc Hl. unfold log. rewrite Hb, (send_room _ s Hcc Hl). reflexivity.
Qed.

Lemma log_blocking_open en s :
  b s = false -> ch_closed s = false -> (length (ch s) < capacity)%nat ->
  let d := next_chan s in
  let s1 := enqueue (mkItem en (Some d)) (set_next_chan s (S d)) in
  log en true s = (s' ← wait (pending s1) d s1; Returns (s', None)).
Proof.
  intros Hb Hcc Hl d s1. unfold log, make_chan.
  change (b (set_next_chan s (S (next_chan s)))) with (b s). rewrite Hb.
  rewrite (send_room _ (set_next_chan s (S (next_chan s))) Hcc Hl).
  reflexivity.
Qed.

Lemma Close_open s :
  b s = false -> ch_closed s = false -> (length (ch s) < capacity)%nat ->
  let d := next_chan s in
  let s2 := set_ch_closed
              (enqueue (mkItem None (Some d))
                 (set_b (set_next_chan s (S d)) true)) true in
  Close s =
    (s3 ← wait (pending s2) d s2;
     if mu s3 then Blocks
     else s4 ← of_option (close_all (outputs s3) s3);
          Returns (set_outputs s4 [], None)).
Proof.
  intros Hb Hcc Hl d s2. unfold Close, make_chan. cbn [fst snd].
  change (b (set_next_chan s (S (next_chan s)))) with (b s). rewrite Hb.
  rewrite (send_room _ (set_b (set_next_chan s (S (next_chan s))) true) Hcc Hl).
  cbn [mbind outcome_bind].
  change (ch_closed (enqueue _ _)) with (ch_closed s). rewrite Hcc.
  reflexivity.
Qed.

(** While the mutex is held by a caller, the worker gets through drain
    markers only. *)
Lemma wait_locked d : forall n s,
  mu s = true -> worker s = Idle -> d ∉ signalled s ->
  Forall (fun e => done e = Some d -> is_Some (entry e)) (ch s) ->
  wait n d s = Blocks.
Proof.
  induction n as [|n IH]; intros s Hmu Hw Hd Hf; cbn [wait];
    rewrite decide_False by exact Hd; [reflexivity|].
  unfold recv. rewrite Hw. destruct (ch s) as [|e rest] eqn:Hch.
  - unfold work. rewrite Hw. cbn [mbind outcome_bind]. apply IH; auto.
    rewrite Hch. constructor.
  - apply Forall_cons in Hf as [He Hf].
    unfold work. cbn [worker set_worker]. unfold can_handle.
    cbn [mu set_worker set_ch]. destruct (entry e) as [en|] eqn:Hen.
    + rewrite Hmu. reflexivity.
    + unfold handle, pass. rewrite Hen.
      cbn [mbind option_bind of_option outcome_bind].
      set (s1 := record _ _).
      destruct (finish_spec e [] s1) as (F1 & _ & F3 & _ & _ & _ & F7 & F8 & _).
      apply IH.
      * rewrite F1. exact Hmu.
      * exact F7.
      * rewrite F8. change (signalled s1) with (signalled s).
        rewrite not_elem_of_app. split; [exact Hd|].
        destruct (done e) as [d'|] eqn:Hde; cbn.
        -- rewrite list_elem_of_singleton. intros ->.
           destruct (He eq_refl) as [? Hx]. discriminate Hx.
        -- apply not_elem_of_nil.
      * rewrite F3. exact Hf.
Qed.

Lemma wait_locked_outcome d : forall n s,
  mu s = true -> worker s = Idle ->
  wait n d s = Blocks \/ exists s', wait n d s = Returns s' /\ mu s' = true.
Proof.
  induction n as [|n IH]; intros s Hmu Hw; cbn [wait];
    destruct (decide (d ∈ signalled s)); eauto.
  unfold recv. rewrite Hw. destruct (ch s) as [|e rest] eqn:Hch.
  - unfold work. rewrite Hw. cbn [mbind outcome_bind]. apply IH; auto.
  - unfold work. cbn [worker set_worker]. unfold can_handle.
    cbn [mu set_worker set_ch]. destruct (entry e) as [en|] eqn:Hen.
    + rewrite Hmu. auto.
    + unfold handle, pass. rewrite Hen.
      cbn [mbind option_bind of_option outcome_bind].
      set (s1 := record _ _).
      destruct (finish_spec e [] s1) as (F1 & _ & _ & _ & _ & _ & F7 & _).
      apply IH; [rewrite F1; exact Hmu | exact F7].
Qed.

(** X17: while a caller holds the manager's lock, a non-blocking [log]
    still returns at once, its entry waiting in the channel; a blocking
    [log] with an entry, [Close], [addOutput], [removeOutput], [forEach] and
    a second [Lock] do not return; [Unlock] gives the lock back. *)
Theorem Lock_defers_the_rest en p fn s :
  mu s = true -> b s = false -> ch_closed s = false -> worker s = Idle ->
  (length (ch s) < capacity)%nat ->
  next_chan s ∉ signalled s ->
  Forall (fun e => done e <> Some (next_chan s)) (ch s) ->
  log (Some en) false s =
    Returns (enqueue (mkItem (Some en) None) s, None) /\
  log (Some en) true s = Blocks /\
  Close s = Blocks /\
  addOutput p s = Blocks /\
  removeOutput p s = Blocks /\
  forEach fn s = Blocks /\
  Lock s = Blocks /\
  Unlock s = Returns (set_mu s false).
Proof.
  intros Hmu Hb Hcc Hw Hl Hd Hf.
  split; [apply log_nonblocking_open; assumption|].
  split.
  { rewrite log_blocking_open by assumption. cbv zeta.
    rewrite wait_locked; [reflexivity|exact Hmu|exact Hw|exact Hd|].
    cbn [ch enqueue set_ch set_next_chan]. apply Forall_app. split.
    - eapply Forall_impl; [exact Hf|]. cbn. intros e Hne He. contradiction.
    - constructor; [|constructor]. cbn. eauto. }
  split.
  { rewrite Close_open by assumption. cbv zeta.
    match goal with |- context [wait ?n ?d ?s2] =>
      destruct (wait_locked_outcome d n s2 Hmu Hw) as [->|(s3 & -> & Hmu3)]
    end; [reflexivity|].
    cbn [mbind outcome_bind]. rewrite Hmu3. reflexivity. }
  unfold addOutput, removeOutput, forEach, Lock, Unlock.
  rewrite Hb, Hmu. auto 10.
Qed.

(** X18: on a locked manager whose channel is full and begins with an entry,
    one more non-blocking [log] gets through, the worker taking the first
    item in its hands and stopping at the lock; the next non-blocking [log]
    does not return. *)
Theorem full_channel_blocks en1 en2 e0 rest s :
  mu s = true -> b s = false -> ch_closed s = false -> worker s = Idle ->
  ch s = e0 :: rest -> is_Some (entry e0) ->
  length (ch s) = capacity ->
  exists s1,
    log en1 false s = Returns (s1, None) /\
    worker s1 = Holding e0 /\ ch s1 = rest ++ [mkItem en1 None] /\
    history s1 = history s /\
    log en2 false s1 = Blocks.
Proof.
  intros Hmu Hb Hcc Hw Hch [en0 He0] Hfull.
  set (s1 := enqueue (mkItem en1 None) (set_worker (set_ch s rest) (Holding e0))).
  exists s1.
  assert (Hlog : log en1 false s = Returns (s1, None)).
  { unfold log. rewrite Hb. unfold send. rewrite Hcc.
    destruct (Nat.ltb_spec (length (ch s)) capacity) as [Hlt|_]; [lia|].
    unfold work. rewrite Hw. cbn [mbind outcome_bind].
    unfold recv. rewrite Hw, Hch. reflexivity. }
  split; [exact Hlog|]. split; [reflexivity|]. split; [reflexivity|].
  split; [reflexivity|].
  unfold log. change (b s1) with (b s). rewrite Hb. unfold send.
  change (ch_closed s1) with (ch_closed s). rewrite Hcc.
  change (ch s1) with (rest ++ [mkItem en1 None]).
  destruct (Nat.ltb_spec (length (rest ++ [mkItem en1 None])) capacity)
    as [Hlt|_].
  { rewrite length_app, Hch in *. cbn [length] in *. lia. }
  unfold work. change (worker s1) with (Holding e0).
  unfold can_handle. rewrite He0. change (mu s1) with (mu s). rewrite Hmu.
  reflexivity.
Qed.





End QueueFacts.

(** ** What every run keeps true of the registry *)

Section RunFacts.
Context {O : Type} `{!Output O}.
Implicit Types s : manager O.

Lemma insert_same_dom (os : gmap ptr O) p o o' q :
  os !! p = Some o ->
  is_Some (<[p := o']> os !! q) <-> is_Some (os !! q).
Proof.
  intros Hp. rewrite lookup_insert_is_Some. split.
  - intros [<-|[_ H]]; [eauto | exact H].
  - intros H. destruct (decide (p = q)); auto.
Qed.

Lemma sweep_dom (outs : list ptr) :
  forall i en (os : gmap ptr O) pl rm en' os' pl' rm',
    sweep outs i en os pl rm = Some (en', os', pl', rm') ->
    forall q, is_Some (os' !! q) <-> is_Some (os !! q).
Proof.
  induction outs as [|p outs IH]; intros i en os pl rm en' os' pl' rm' H q;
    cbn [sweep] in H.
  - injection H as _ <- _ _. reflexivity.
  - destruct (os !! p) as [o|] eqn:Hp; [|discriminate].
    cbn [mbind option_bind] in H.
    destruct (Log o en pl) as [[[[o1 en1] pl1] e]|]; [|discriminate].
    cbn [mbind option_bind] in H.
    rewrite (IH _ _ _ _ _ _ _ _ _ H q). eapply insert_same_dom, Hp.
Qed.

Lemma close_all_dom (outs : list ptr) : forall s s',
  close_all outs s = Some s' ->
  forall q, is_Some (objs s' !! q) <-> is_Some (objs s !! q).
Proof.
  induction outs as [|p outs IH]; intros s s' H q; cbn [close_all] in H.
  - injection H as <-. reflexivity.
  - destruct (objs s !! p) as [o|] eqn:Hp; [|discriminate].
    cbn [mbind option_bind] in H. destruct (LogClose o) as [o' err].
    rewrite (IH _ _ H q). cbn [objs record set_objs].
    eapply insert_same_dom, Hp.
Qed.

Lemma close_all_is_Some (outs : list ptr) : forall s,
  (forall p, p ∈ outs -> is_Some (objs s !! p)) ->
  is_Some (close_all outs s).
Proof.
  induction outs as [|p outs IH]; intros s Hall; cbn [close_all]; [eauto|].
  destruct (Hall p (list_elem_of_here _ _)) as [o Hp]. rewrite Hp.
  cbn [mbind option_bind]. destruct (LogClose o) as [o' err].
  apply IH. intros q Hq. cbn [objs record set_objs].
  rewrite (insert_same_dom _ _ _ _ _ Hp).
  apply Hall, list_elem_of_further, Hq.
Qed.

Lemma remove_locked_spec p s s' x :
  remove_locked p s = Some (s', x) ->
  outputs s' ⊆ outputs s /\ objs s' = objs s /\ history s' = history s /\
  ch s' = ch s.
Proof.
  unfold remove_locked. destruct (position p (outputs s) 0) as [i|].
  - cbv zeta. unfold index.
    destruct (Z.of_nat (length (outputs s)) - 1 <? 0); [discriminate|].
    destruct (outputs s !! Z.to_nat (Z.of_nat (length (outputs s)) - 1))
      as [y|] eqn:Hy; [|discriminate].
    cbn [mbind option_bind]. unfold store.
    destruct ((0 <=? i) && (i <? Z.of_nat (length (outputs s))));
      [|discriminate].
    cbn [mbind option_bind]. intros [= <- _].
    cbn [outputs objs history ch set_outputs]. repeat split.
    intros z Hz. apply subseteq_take in Hz.
    apply list_elem_of_lookup in Hz as [j Hj].
    apply list_lookup_insert_Some in Hj as [(_ & <- & _)|[_ Hj]].
    + eapply list_elem_of_lookup_2, Hy.
    + eapply list_elem_of_lookup_2, Hj.
  - intros [= <- _]. repeat split. reflexivity.
Qed.

Lemma well_registered_step (os : gmap ptr O) l s s' :
  well_registered os s -> step l s = Some s' -> well_registered os s'.
Proof.
  intros (Hc & Hr & Hd) Hstep.
  destruct l as [e| | | |d| | | |p|p| |]; cbn [step] in Hstep.
  - destruct (ch_closed s); [discriminate|].
    destruct (Nat.ltb_spec (length (ch s)) capacity) as [Hlt|];
      [|discriminate]. cbn [orb negb] in Hstep.
    assert (Hlen : (length (ch s ++ [e]) <= capacity)%nat).
    { rewrite length_app. cbn [length]. lia. }
    destruct (done e) as [d|].
    + destruct (decide (d = next_chan s)); [|discriminate].
      injection Hstep as <-. split; [exact Hlen|]. split; assumption.
    + injection Hstep as <-. split; [exact Hlen|]. split; assumption.
  - destruct (worker s); try discriminate.
    destruct (ch s) as [|e rest] eqn:Hch; [discriminate|].
    injection Hstep as <-. unfold recv. rewrite Hch.
    destruct (worker s); (split; [|split; assumption]);
      cbn [ch set_worker set_ch]; cbn [length] in Hc; try rewrite Hch;
      cbn [length]; lia.
  - destruct (worker s) as [|e|]; try discriminate.
    destruct (can_handle e s); [|discriminate].
    destruct (pass e s) as [[s1 cs]|] eqn:Hp; [|discriminate].
    cbn [mbind option_bind] in Hstep. injection Hstep as <-.
    unfold well_registered. cbn [ch outputs objs history set_worker].
    unfold pass in Hp. destruct (entry e) as [en|].
    + destruct (sweep _ _ _ _ _ _) as [[[[en' os'] pl] rm]|] eqn:Hsw;
        [|discriminate].
      cbn [mbind option_bind] in Hp.
      destruct (compact rm 0 (outputs s)) as [outs|] eqn:Hcp; [|discriminate].
      cbn [mbind option_bind] in Hp. injection Hp as <- _.
      cbn [ch outputs objs history record set_pool set_objs set_outputs].
      pose proof (sweep_dom _ _ _ _ _ _ _ _ _ _ Hsw) as Hdom.
      split; [exact Hc|]. split.
      * intros p Hin. apply (compact_subseteq _ _ _ _ Hcp) in Hin.
        destruct (Hr p Hin) as [H1 H2]. split; [apply Hdom, H1|].
        apply elem_of_app. left. exact H2.
      * intros p. rewrite Hdom. apply Hd.
    + injection Hp as <- _. cbn [ch outputs objs history record].
      split; [exact Hc|]. split; [|exact Hd].
      intros p Hin. destruct (Hr p Hin) as [H1 H2]. split; [exact H1|].
      apply elem_of_app. left. exact H2.
  - destruct (worker s) as [| |e cs]; try discriminate.
    injection Hstep as <-.
    destruct (finish_spec e cs s) as (_ & _ & F3 & _ & _ & F6 & _ & _ & F9).
    unfold well_registered. rewrite F3, F6, F9.
    assert (Ho : objs (finish e cs s) = objs s).
    { unfold finish. destruct (done e); reflexivity. }
    rewrite Ho. auto.
  - destruct (decide (d ∈ signalled s)); [|discriminate].
    injection Hstep as <-. repeat split; auto; apply Hr || apply Hd; auto.
  - injection Hstep as <-. split; [exact Hc|]. split; assumption.
  - destruct (ch_closed s); [discriminate|]. injection Hstep as <-.
    split; [exact Hc|]. split; assumption.
  - destruct (mu s); [discriminate|].
    destruct (close_all (outputs s) s) as [s1|] eqn:Hca; [|discriminate].
    cbn [mbind option_bind] in Hstep. injection Hstep as <-.
    pose proof (close_all_dom _ _ _ Hca) as Hdom.
    apply close_all_spec in Hca as ((_ & _ & Hch & _) & _).
    unfold well_registered. cbn [ch outputs objs history set_outputs].
    rewrite Hch. split; [exact Hc|]. split.
    + intros p Hin. apply elem_of_nil in Hin. contradiction.
    + intros p. rewrite Hdom. apply Hd.
  - destruct (mu s); [discriminate|]. unfold add_locked in Hstep.
    cbn [objs set_outputs] in Hstep.
    destruct (objs s !! p) as [o|] eqn:Hp; [|discriminate].
    cbn [mbind option_bind] in Hstep. injection Hstep as <-.
    unfold well_registered.
    cbn [ch outputs objs history record set_objs set_outputs].
    split; [exact Hc|]. split.
    + intros q Hin. rewrite (insert_same_dom _ _ _ _ _ Hp).
      apply elem_of_app in Hin as [Hin|Hin].
      * destruct (Hr q Hin) as [H1 H2]. split; [exact H1|].
        apply elem_of_app. left. exact H2.
      * apply list_elem_of_singleton in Hin as ->. split; [eauto|].
        apply elem_of_app. right. apply list_elem_of_here.
    + intros q. rewrite (insert_same_dom _ _ _ _ _ Hp). apply Hd.
  - destruct (mu s); [discriminate|].
    destruct (remove_locked p s) as [[s1 x]|] eqn:Hrm; [|discriminate].
    cbn in Hstep. injection Hstep as <-.
    apply remove_locked_spec in Hrm as (Hsub & Ho & Hh & Hch).
    unfold well_registered. rewrite Ho, Hh, Hch.
    split; [exact Hc|]. split; [|exact Hd].
    intros q Hin. apply Hr, Hsub, Hin.
  - destruct (mu s); [discriminate|]. injection Hstep as <-.
    split; [exact Hc|]. split; assumption.
  - destruct (mu s); [|discriminate]. injection Hstep as <-.
    split; [exact Hc|]. split; assumption.
Qed.

Lemma well_registered_exec (os : gmap ptr O) run : forall s s',
  well_registered os s -> exec run s = Some s' -> well_registered os s'.
Proof.
  induction run as [|l run IH]; intros s s' Hw; cbn [exec].
  - intros [= <-]. exact Hw.
  - destruct (step l s) as [s1|] eqn:Hs; [|discriminate].
    cbn [mbind option_bind]. apply IH.
    exact (well_registered_step os l s s1 Hw Hs).
Qed.

(** X20: in every state that callers and the worker can get to from a new
    manager, in whatever order they take their steps, the channel holds at
    most ten items, every registered pointer has an object behind it and an
    [Added] event on the record, and no object has come or gone; so the
    locked part of [Close] finds no nil output to panic on and can be taken
    as soon as the lock is free. *)
Theorem runs_keep_registry_sound (os : gmap ptr O) pl run s :
  exec run (newManager os pl) = Some s ->
  well_registered os s /\
  (mu s = false -> is_Some (step LCloseOutputs s)).
Proof.
  intros Hrun.
  assert (Hw : well_registered os s).
  { eapply well_registered_exec; [|exact Hrun].
    unfold well_registered, newManager. cbn. split; [unfold capacity; lia|].
    split; [|reflexivity]. intros p Hp. apply elem_of_nil in Hp.
    contradiction. }
  split; [exact Hw|]. intros Hmu. cbn [step]. rewrite Hmu.
  destruct Hw as (_ & Hr & _).
  destruct (close_all_is_Some (outputs s) s) as [s1 ->]; [|cbn; eauto].
  intros p Hp. apply Hr, Hp.
Qed.

End RunFacts.

Lemma runs_keep_registry_sound_witness :
  let os : gmap ptr outputWrapper := {[ 0%nat := text_output ]} in
  let run := [LAdd 0%nat; LSend (mkItem (Some (sample_entry "hello")) None);
              LRecv; LAdd 0%nat; LRemove 0%nat] in
  exists s, exec run (newManager os sample_pool) = Some s /\
            well_registered os s.
Proof.
  intros os run.
  destruct (exec run (newManager os sample_pool)) as [s|] eqn:Hrun.
  - exists s. split; [reflexivity|].
    exact (proj1 (runs_keep_registry_sound os sample_pool run s Hrun)).
  - exfalso.
    assert (Hs : is_Some (outputs <$> exec run (newManager os sample_pool))).
    { apply (proj1 (bool_decide_spec _)). vm_compute. reflexivity. }
    rewrite Hrun in Hs. destruct Hs as [? Hx]. discriminate Hx.
Defined.

Lemma Lock_defers_the_rest_witness :
  let s : manager outputWrapper :=
    mkManager [] true false [] false Idle ∅ sample_pool [] 0%nat [] in
  log (Some (sample_entry "hello")) true s = Blocks /\
  log (Some (sample_entry "hello")) false s =
    Returns (enqueue (mkItem (Some (sample_entry "hello")) None) s, None).
Proof.
  intros s.
  assert (Hl : (length (ch s) < capacity)%nat) by (cbn; unfold capacity; lia).
  destruct (Lock_defers_the_rest (sample_entry "hello") 0%nat (fun _ o => o) s
              eq_refl eq_refl eq_refl eq_refl Hl (not_elem_of_nil _)
              (Forall_nil_2 _)) as (H1 & H2 & _).
  split; [exact H2 | exact H1].
Defined.

Lemma full_channel_blocks_witness :
  let item := mkItem (Some (sample_entry "hello")) None in
  let s : manager outputWrapper :=
    mkManager [] true false (replicate 10 item) false Idle ∅ sample_pool []
      0%nat [] in
  exists s1,
    log None false s = Returns (s1, None) /\ log None false s1 = Blocks.
Proof.
  intros item s.
  destruct (full_channel_blocks None None item (replicate 9 item) s
              eq_refl eq_refl eq_refl eq_refl eq_refl (ex_intro _ _ eq_refl)
              eq_refl) as (s1 & H1 & _ & _ & _ & H2).
  exists s1. split; [exact H1 | exact H2].
Defined.


(** ** Settings for all outputs *)

Section SettingFacts.
Context {O : Type} `{!Output O}.

Lemma forEach_loop_same (f : O -> O) (outs : list ptr) :
  (forall o, f (f o) = f o) ->
  forall i (os : gmap ptr O),
    (forall p, p ∈ outs -> is_Some (os !! p)) ->
    exists os',
      forEach_loop (fun _ => f) outs i os = Some os' /\
      forall q, os' !! q = if decide (q ∈ outs) then f <$> os !! q else os !! q.
Proof.
  intros Hidem. induction outs as [|p outs IH]; intros i os Hall;
    cbn [forEach_loop].
  - exists os. split; [reflexivity|]. intros q.
    rewrite decide_False by apply not_elem_of_nil. reflexivity.
  - destruct (Hall p (list_elem_of_here _ _)) as [o Hp]. rewrite Hp.
    cbn [mbind option_bind].
    destruct (IH (i + 1) (<[p := f o]> os)) as (os' & -> & Hos').
    { intros q Hq. rewrite lookup_insert_is_Some.
      destruct (decide (p = q)); [auto|]. right. split; [assumption|].
      apply Hall, list_elem_of_further, Hq. }
    exists os'. split; [reflexivity|]. intros q. rewrite Hos'.
    destruct (decide (q = p)) as [->|Hne].
    + rewrite lookup_insert_eq, (decide_True (P := p ∈ p :: outs))
        by apply list_elem_of_here.
      rewrite Hp. cbn. rewrite Hidem. destruct (decide (p ∈ outs)); reflexivity.
    + rewrite lookup_insert_ne by congruence.
      destruct (decide (q ∈ outs)) as [Hin|Hnin].
      * rewrite decide_True by (apply list_elem_of_further, Hin). reflexivity.
      * rewrite decide_False; [reflexivity|].
        rewrite not_elem_of_cons. auto.
Qed.

End SettingFacts.

(** X21: [SetLogLevel] and [SetFlags] of a Logger reach every registered
    output, once however often it is registered, and no other object; they
    leave the registry and the record alone, and on a locked manager they do
    not return. *)
Theorem settings_reach_every_output (s : manager outputWrapper) level flags :
  (forall p, p ∈ outputs s -> is_Some (objs s !! p)) ->
  (mu s = true ->
   Logger_SetLogLevel level s = Blocks /\ Logger_SetFlags flags s = Blocks) /\
  (mu s = false ->
   exists os1 os2,
     Logger_SetLogLevel level s = Returns (set_objs s os1) /\
     Logger_SetFlags flags s = Returns (set_objs s os2) /\
     forall q,
       os1 !! q = (if decide (q ∈ outputs s)
                   then (fun o => set_logLevel o level) <$> objs s !! q
                   else objs s !! q) /\
       os2 !! q = (if decide (q ∈ outputs s)
                   then (fun o => set_flags o flags) <$> objs s !! q
                   else objs s !! q)).
Proof.
  intros Hall. unfold Logger_SetLogLevel, Logger_SetFlags, forEach. split.
  - intros ->. auto.
  - intros ->.
    destruct (forEach_loop_same (fun o => set_logLevel o level) (outputs s)
                (fun o => eq_refl) 0 (objs s) Hall) as (os1 & H1 & Hq1).
    destruct (forEach_loop_same (fun o => set_flags o flags) (outputs s)
                (fun o => eq_refl) 0 (objs s) Hall) as (os2 & H2 & Hq2).
    exists os1, os2.
    change (forEach_loop (fun _ o => SetLogLevel o level) (outputs s) 0 (objs s))
      with (forEach_loop (fun _ o => set_logLevel o level) (outputs s) 0 (objs s)).
    change (forEach_loop (fun _ o => SetFlags o flags) (outputs s) 0 (objs s))
      with (forEach_loop (fun _ o => set_flags o flags) (outputs s) 0 (objs s)).
    rewrite H1, H2. split; [reflexivity|]. split; [reflexivity|]. auto.
Qed.

Lemma settings_reach_every_output_witness :
  let os : gmap ptr outputWrapper :=
    list_to_map [(0%nat, text_output); (1%nat, text_output)] in
  let s := mkManager [0%nat; 0%nat] false false [] false Idle os sample_pool
             [] 0%nat [] in
  exists os1,
    Logger_SetLogLevel L_Error s = Returns (set_objs s os1) /\
    ow_logLevel <$> os1 !! 0%nat = Some L_Error /\
    ow_logLevel <$> os1 !! 1%nat = Some L_Info.
Proof.
  intros os s.
  assert (Hall : forall p, p ∈ outputs s -> is_Some (objs s !! p)).
  { intros p Hp. cbn in Hp.
    assert (p = 0%nat) as ->.
    { apply elem_of_cons in Hp as [->|Hp]; [reflexivity|].
      apply list_elem_of_singleton in Hp. exact Hp. }
    eexists. reflexivity. }
  destruct (proj2 (settings_reach_every_output s L_Error 0 Hall) eq_refl)
    as (os1 & os2 & H1 & _ & Hq).
  exists os1. split; [exact H1|].
  destruct (Hq 0%nat) as [Hx _]. destruct (Hq 1%nat) as [Hy _].
  unfold ptr in *. rewrite Hx, Hy. split; reflexivity.
Defined.

(** ** From the Logger to the writer *)

Lemma release_after_AddCompiled flags bf entry pl en1 p1 :
  CompiledOf entry = [] ->
  AddCompiled flags T_Text bf entry pl = (en1, p1) ->
  release (CompiledOf en1) p1 = mkPool (bf :: free pl) (fresh pl).
Proof.
  intros Hc. unfold AddCompiled. rewrite Hc. cbn [find_compiled app].
  destruct (has flags F_NotSave); intros [= <- <-].
  - rewrite Hc. reflexivity.
  - reflexivity.
Qed.

Lemma pass_single_text (e : managerEntry) en p (o : outputWrapper)
    (os : gmap ptr outputWrapper) pl sg nc h wk en1 p1 w1 :
  entry e = Some en ->
  os !! p = Some o ->
  outputWrapper_Log o en pl = Some (set_w o w1, en1, p1, None) ->
  pass e (mkManager [p] false false [] false wk os pl sg nc h) =
    Some (mkManager [p] false false [] false wk (<[p := set_w o w1]> os) p1
            sg nc (h ++ [Handled e [p]]),
          CompiledOf en1).
Proof.
  intros He Hp Hlog. unfold pass. rewrite He.
  cbn [outputs objs pool sweep]. rewrite Hp. cbn [mbind option_bind].
  change (Log o en pl) with (outputWrapper_Log o en pl). rewrite Hlog.
  cbn [mbind option_bind sweep].
  rewrite decide_False by discriminate. reflexivity.
Qed.

(** What [TextLogFunc] writes depends on the bytes of the buffer it is given,
    not on which buffer it is, nor on the pool. *)
Lemma bind_same_bytes (x1 x2 : option bufref) (k1 k2 : bufref -> option bufref) :
  bytes <$> x1 = bytes <$> x2 ->
  (forall a1 a2, bytes a1 = bytes a2 -> bytes <$> k1 a1 = bytes <$> k2 a2) ->
  bytes <$> (x1 ≫= k1) = bytes <$> (x2 ≫= k2).
Proof.
  destruct x1 as [a1|], x2 as [a2|]; cbn; intros H Hk; try discriminate;
    [|reflexivity].
  injection H as H. exact (Hk a1 a2 H).
Qed.

Lemma append_same_bytes b1 b2 str :
  bytes b1 = bytes b2 -> bytes (append b1 str) = bytes (append b2 str).
Proof. intros H. unfold append. cbn [bytes]. now rewrite H. Qed.

Lemma appendInt_same_bytes b1 b2 n w :
  bytes b1 = bytes b2 ->
  bytes <$> appendInt b1 n w = bytes <$> appendInt b2 n w.
Proof.
  intros H. unfold appendInt. destruct (appendInt_loop 20 n w ""); [|reflexivity].
  cbn. f_equal. exact (append_same_bytes b1 b2 _ H).
Qed.

Lemma append_prefixes_same_bytes ps : forall b1 b2,
  bytes b1 = bytes b2 ->
  bytes (append_prefixes b1 ps) = bytes (append_prefixes b2 ps).
Proof.
  induction ps as [|v ps IH]; intros b1 b2 H; cbn [append_prefixes];
    [exact H|].
  apply IH. repeat apply append_same_bytes. exact H.
Qed.

Lemma Text_time_same_bytes b1 b2 t flags :
  bytes b1 = bytes b2 ->
  bytes <$> Text_time b1 t flags = bytes <$> Text_time b2 t flags.
Proof.
  intros H. unfold Text_time.
  destruct (has flags (Z.lor F_Time F_Micro)); [|cbn; now f_equal].
  apply bind_same_bytes; [apply appendInt_same_bytes, H|]. intros a1 a2 H1.
  apply bind_same_bytes;
    [apply appendInt_same_bytes, append_same_bytes, H1|]. intros a3 a4 H2.
  apply bind_same_bytes;
    [apply appendInt_same_bytes, append_same_bytes, H2|]. intros a5 a6 H3.
  apply bind_same_bytes;
    [apply appendInt_same_bytes, append_same_bytes, H3|]. intros a7 a8 H4.
  apply bind_same_bytes;
    [apply appendInt_same_bytes, append_same_bytes, H4|]. intros a9 a10 H5.
  apply bind_same_bytes;
    [apply appendInt_same_bytes, append_same_bytes, H5|]. intros a11 a12 H6.
  apply bind_same_bytes.
  - destruct (has flags F_Micro);
      [apply appendInt_same_bytes, append_same_bytes, H6 | cbn; now f_equal].
  - intros a13 a14 H7. cbn. f_equal. apply append_same_bytes, H7.
Qed.

Lemma TextLogFunc_writer_same_bytes b1 b2 entry flags w p1 p2 :
  bytes b1 = bytes b2 ->
  rendered_writer <$> TextLogFunc b1 entry flags w p1 =
  rendered_writer <$> TextLogFunc b2 entry flags w p2.
Proof.
  intros H. unfold TextLogFunc.
  pose proof (Text_time_same_bytes b1 b2 (Time_ entry) flags H) as Ht.
  destruct (Text_time b1 (Time_ entry) flags) as [a1|],
    (Text_time b2 (Time_ entry) flags) as [a2|]; cbn in Ht;
    try discriminate; [|reflexivity].
  injection Ht as Ha. cbn [mbind option_bind].
  match goal with
  | |- rendered_writer <$> (Text_newline ?x1 _ _ ≫= _) =
       rendered_writer <$> (Text_newline ?x2 _ _ ≫= _) =>
      assert (Hx : bytes x1 = bytes x2);
      [|generalize dependent x1; generalize dependent x2]
  end.
  { apply append_same_bytes.
    assert (Hy : forall y1 y2, bytes y1 = bytes y2 ->
              bytes (if has flags F_Level
                     then append (append (append y1 "[")
                                    (LogLevel_String (Level entry))) "] "
                     else y1) =
              bytes (if has flags F_Level
                     then append (append (append y2 "[")
                                    (LogLevel_String (Level entry))) "] "
                     else y2)).
    { intros y1 y2 Hy. destruct (has flags F_Level);
        [repeat apply append_same_bytes|]; exact Hy. }
    apply Hy.
    destruct (negb (length (Prefixes entry) =? 0)%nat
              && has flags (Z.lor F_Prefix F_LastPrefix)); [|exact Ha].
    destruct (has flags F_LastPrefix);
      [repeat apply append_same_bytes | apply append_prefixes_same_bytes];
      exact Ha. }
  intros x2 x1 Hx. unfold Text_newline.
  destruct (has flags F_NewLine).
  - destruct (str_index (Msg entry) (len (Msg entry) - 1)) as [c|];
      [|reflexivity].
    cbn [mbind option_bind].
    destruct (Ascii.eqb c newline).
    + destruct (AddCompiled flags T_Text x1 entry p1) as [e1 q1].
      destruct (AddCompiled flags T_Text x2 entry p2) as [e2 q2].
      cbn [Write]. rewrite Hx. reflexivity.
    + destruct (AddCompiled flags T_Text _ entry p1) as [e1 q1].
      destruct (AddCompiled flags T_Text _ entry p2) as [e2 q2].
      cbn [Write].
      rewrite (append_same_bytes x1 x2 (String newline "") Hx). reflexivity.
  - cbn [mbind option_bind].
    destruct (AddCompiled flags T_Text x1 entry p1) as [e1 q1].
    destruct (AddCompiled flags T_Text x2 entry p2) as [e2 q2].
    cbn [Write]. rewrite Hx. reflexivity.
Qed.

(** X22: a call of [Log] on a synchronous Logger goes all the way to the
    writer before it returns: on a manager at rest with one text output that
    lets the level through, the call returns the length of the message and
    nil, and by then the output has written one chunk, the line that
    [TextLogFunc] renders for the entry into an empty buffer, whichever
    buffer the pool hands out; the worker has recorded the entry as handled
    and closed the call's done channel; the registry is as before; and the
    buffer with the line is back in the pool.  The state on return is the
    one that the five actions of the caller and the worker lead to, taken
    one at a time: the send, the receive, the pass, the end of the loop
    body, the return from [<-done]. *)
Theorem Sync_Log_delivers_before_return (l : Logger) now level msg p
    (o : outputWrapper) (os : gmap ptr outputWrapper) pl sg nc h :
  os !! p = Some o -> ow_LogFunc o = Some TextLogFunc ->
  Permits (ow_logLevel o) level = true ->
  write_err (ow_w o) = None ->
  Time_ok now -> msg <> "" -> nc ∉ sg ->
  let s := mkManager [p] false false [] false Idle os pl sg nc h in
  let entry := mkEntry now (lg_prefix l) level msg (lg_fields l) [] in
  let item := mkItem (Some entry) (Some nc) in
  exists s' chunk,
    Logger_Log (Sync l) now level msg s = Returns (s', (len msg, None)) /\
    exec [LSend item; LRecv; LPass; LFinish; LReturn nc] s = Some s' /\
    (forall buf pool, bytes buf = "" ->
       rendered_writer <$> TextLogFunc buf entry (ow_flags o) (ow_w o) pool
       = Some (Write (ow_w o) chunk).1) /\
    objs s' = <[p := set_w o (Write (ow_w o) chunk).1]> os /\
    outputs s' = [p] /\
    history s' = h ++ [Handled item [p]] /\
    signalled s' = sg ++ [nc] /\
    ch s' = [] /\ worker s' = Idle /\
    exists bf rest, free (pool s') = bf :: rest /\ bytes bf = chunk.
Proof.
  intros Hp Hlf Hperm Hwe Ht Hm Hnc s entry item.
  assert (Hl : (length (ch s) < capacity)%nat) by (cbn; unfold capacity; lia).
  destruct (getBuf pl) as [b0 pl1] eqn:Hget.
  assert (Hb0 : bytes b0 = "").
  { unfold getBuf, newBuf in Hget. destruct (free pl); injection Hget as <- _;
      reflexivity. }
  destruct (TextLogFunc_is_Some b0 entry (ow_flags o) (ow_w o) pl1 Ht Hm)
    as [[[[en1 p1] w1] e1] Htext].
  pose proof Htext as Hinv.
  apply TextLogFunc_inv in Hinv as (bf & Ha & Hw1 & He1).
  rewrite Hwe in He1. subst e1.
  assert (Hlog : outputWrapper_Log o entry pl = Some (set_w o w1, en1, p1, None)).
  { unfold outputWrapper_Log. rewrite Hlf. change (Level entry) with level.
    rewrite Hperm.
    assert (Hg : GetCompiled (ow_flags o) (ow_outputType o) entry = None).
    { unfold GetCompiled. destruct (has (ow_flags o) F_NotSave); reflexivity. }
    rewrite Hg, Hget, Htext. reflexivity. }
  set (s' := mkManager [p] false false [] false Idle
               (<[p := set_w o (Write (ow_w o) (bytes bf)).1]> os)
               (mkPool (bf :: free pl1) (fresh pl1))
               (sg ++ [nc]) (S nc) (h ++ [Handled item [p]])).
  assert (Hfinal : log (Some entry) true s = Returns (s', None)).
  { unfold s'.
    rewrite (log_blocking_open (Some entry) s eq_refl eq_refl Hl). cbv zeta.
    change (next_chan s) with nc. fold item.
    set (s1 := enqueue item (set_next_chan s (S nc))).
    change (pending s1) with 1%nat.
    rewrite wait_step by exact Hnc.
    set (s0 := mkManager [p] false false [] false (Holding item) os pl sg
                 (S nc) h).
    change (recv s1) with s0.
    change (work s0) with (of_option (handle item s0)).
    unfold handle, s0.
    rewrite (pass_single_text item entry p o os pl sg (S nc) h (Holding item)
               en1 p1 w1 eq_refl Hp Hlog).
    cbn [mbind option_bind of_option outcome_bind].
    unfold finish. cbn [done item pool set_pool].
    rewrite (release_after_AddCompiled (ow_flags o) bf entry pl1 en1 p1
               eq_refl Ha).
    rewrite wait_signalled.
    2:{ cbn. apply elem_of_app. right. apply list_elem_of_here. }
    cbn [mbind outcome_bind]. rewrite Hw1. reflexivity. }
  exists s', (bytes bf). split.
  { unfold Logger_Log. change (lg_block (Sync l)) with true.
    change (lg_prefix (Sync l)) with (lg_prefix l).
    change (lg_fields (Sync l)) with (lg_fields l). fold entry.
    rewrite Hfinal. reflexivity. }
  split.
  { pose proof (log_blocking_at_rest entry [p] os pl sg nc h Hnc) as Hrun.
    cbv zeta in Hrun. fold s item in Hrun. rewrite Hfinal in Hrun.
    destruct (exec [LSend item; LRecv; LPass; LFinish; LReturn nc] s)
      as [s2|]; [|discriminate Hrun].
    cbn in Hrun. congruence. }
  split.
  { intros buf pool Hbuf.
    rewrite (TextLogFunc_writer_same_bytes buf b0 entry (ow_flags o) (ow_w o)
               pool pl1) by congruence.
    rewrite Htext, Hw1. reflexivity. }
  repeat (split; [reflexivity|]). exists bf, (free pl1). auto.
Qed.

Lemma Sync_Log_delivers_before_return_witness :
  let os : gmap ptr outputWrapper := {[ 0%nat := text_output ]} in
  let s := mkManager [0%nat] false false [] false Idle os sample_pool []
             0%nat [] in
  exists s',
    Logger_Log (Sync (AddPrefix NewLogger ["db"])) sample_time L_Warn "hello" s
      = Returns (s', (5, None)) /\
    (written ∘ ow_w) <$> objs s' !! 0%nat =
      Some [("02/01/2024 03:04:05 [db] [WARN] hello" ++ String newline "")%string].
Proof.
  intros os s.
  assert (Ht : Time_ok sample_time) by (unfold Time_ok, is_int; cbn; lia).
  assert (Hm : "hello" <> "") by discriminate.
  destruct (Sync_Log_delivers_before_return (AddPrefix NewLogger ["db"])
              sample_time L_Warn "hello" 0%nat text_output os sample_pool []
              0%nat [] (lookup_singleton_eq _ _) eq_refl eq_refl eq_refl Ht Hm
              (not_elem_of_nil _))
    as (s' & chunk & Hlog & _ & Hchunk & Hobjs & _).
  exists s'. split; [exact Hlog|].
  rewrite Hobjs, lookup_insert_eq.
  cbn [fmap option_fmap option_map compose ow_w set_w].
  assert (Hw : written <$> (rendered_writer <$>
                 TextLogFunc (mkBuf 0 "")
                   (mkEntry sample_time (lg_prefix (AddPrefix NewLogger ["db"]))
                      L_Warn "hello" (lg_fields (AddPrefix NewLogger ["db"])) [])
                   (ow_flags text_output) (ow_w text_output) sample_pool)
               = Some [("02/01/2024 03:04:05 [db] [WARN] hello"
                        ++ String newline "")%string])
    by (vm_compute; reflexivity).
  rewrite (Hchunk (mkBuf 0 "") sample_pool eq_refl) in Hw. exact Hw.
Defined.

(** ** Derived loggers *)



(** ** One output, many registrations, one manager *)

Section ManyFacts.
Context {O : Type} `{!Output O}.

Lemma addOutput_times_spec (p : ptr) (o : O) (os : gmap ptr O) pl (n : nat) :
  os !! p = Some o ->
  addOutput_times n p (newManager os pl) =
    Returns (mkManager (replicate n p) false false [] false Idle
               (<[p := Nat.iter n OnAdd o]> os) pl [] 0%nat
               (replicate n (Added p))).
Proof.
  intros Hp. induction n as [|n IH].
  - cbn. rewrite insert_id by exact Hp. reflexivity.
  - cbn [addOutput_times]. rewrite IH. cbn [mbind outcome_bind].
    rewrite (addOutput_open p (Nat.iter n OnAdd o)) by apply lookup_insert_eq.
    rewrite insert_insert_eq, <- !replicate_S_end. reflexivity.
Qed.

End ManyFacts.

Lemma close_all_replicate (p : ptr) (k : nat) :
  forall (s : manager outputWrapper) (o : outputWrapper),
    objs s !! p = Some o ->
    exists s',
      close_all (replicate k p) s = Some s' /\
      objs s' = <[p := (LogClose_times k o).1]> (objs s) /\
      history s' = history s ++ (Closed p <$> (LogClose_times k o).2).
Proof.
  induction k as [|k IH]; intros s o Hp.
  - exists s. cbn. rewrite insert_id by exact Hp. rewrite app_nil_r. auto.
  - cbn [replicate close_all LogClose_times]. rewrite Hp.
    cbn [mbind option_bind].
    change (LogClose o) with (outputWrapper_LogClose o).
    destruct (outputWrapper_LogClose o) as [o1 e].
    set (s1 := record _ _).
    destruct (IH s1 o1) as (s' & -> & Ho & Hh).
    { apply lookup_insert_eq. }
    exists s'. split; [reflexivity|].
    destruct (LogClose_times k o1) as [o2 es]. cbn [fst snd] in *.
    rewrite Ho, Hh. unfold s1. cbn [objs history record set_objs].
    rewrite insert_insert_eq, <- app_assoc. auto.
Qed.

(** X24: an output registered [n] times, [n] at least one, with one open
    manager is closed once by [Close], which returns nil: [LogClose] is
    called [n] times, the first [n - 1] calls lower the count and the last
    one closes the writer. *)
Theorem Close_closes_once (o : outputWrapper) (os : gmap ptr outputWrapper)
    pl p (n : nat) :
  (1 <= n)%nat ->
  os !! p = Some o ->
  ow_add o = 0 -> ow_CloseFunc o = Some DefaultCloseFunc ->
  ow_close o = true -> closer (ow_w o) = true ->
  exists s,
    (s1 ← addOutput_times n p (newManager os pl); Close s1) = Returns (s, None) /\
    (closes ∘ ow_w) <$> objs s !! p = Some (S (closes (ow_w o))) /\
    history s =
      replicate n (Added p) ++ Handled (mkItem None (Some 0%nat)) [] ::
      (Closed p <$> repeat None (n - 1) ++ [close_err (ow_w o)]).
Proof.
  intros Hn Hp Ha Hcf Hcl Hcr.
  rewrite (addOutput_times_spec p o os pl n Hp). cbn [mbind outcome_bind].
  rewrite Close_at_rest by apply not_elem_of_nil.
  set (s3 := mkManager _ _ _ _ _ _ _ _ _ _ _).
  destruct (close_all_replicate p n s3 (Nat.iter n OnAdd o))
    as (s4 & -> & Ho & Hh).
  { apply lookup_insert_eq. }
  cbn [of_option mbind outcome_bind]. eexists. split; [reflexivity|].
  cbn [objs history set_outputs]. rewrite Ho, Hh.
  destruct (iter_OnAdd_add n o) as (E1 & E2 & E3 & E4).
  change (Nat.iter n OnAdd o) with (Nat.iter n outputWrapper_OnAdd o).
  destruct (LogClose_times_spec n (Nat.iter n outputWrapper_OnAdd o) n)
    as [H1 H2].
  { rewrite E1, Ha. lia. }
  { rewrite E3. exact Hcf. }
  { rewrite E4. exact Hcl. }
  { rewrite E2. exact Hcr. }
  rewrite E2 in H1, H2. split.
  - rewrite lookup_insert_eq. cbn. rewrite H1. f_equal. lia.
  - rewrite H2. unfold s3. cbn [history].
    replace (Nat.min n (n - 1)) with (n - 1)%nat by lia.
    replace (n - (n - 1))%nat with 1%nat by lia.
    rewrite <- app_assoc. reflexivity.
Qed.

Lemma Close_closes_once_witness :
  let os : gmap ptr outputWrapper := {[ 0%nat := text_output ]} in
  exists s,
    (s1 ← addOutput_times 3 0%nat (newManager os sample_pool); Close s1)
      = Returns (s, None) /\
    (closes ∘ ow_w) <$> objs s !! 0%nat = Some 1%nat.
Proof.
  intros os.
  assert (Hn : (1 <= 3)%nat) by lia.
  destruct (Close_closes_once text_output os sample_pool 0%nat 3 Hn
              (lookup_singleton_eq _ _) eq_refl eq_refl eq_refl eq_refl)
    as (s & H1 & H2 & _).
  exists s. split; [exact H1 | exact H2].
Defined.

(** ** The order of delivery *)

Section OrderFacts.
Context {O : Type} `{!Output O}.
Implicit Types s : manager O.

Lemma handled_none (evs : list event) :
  Forall (fun ev => handled [ev] = []) evs -> handled evs = [].
Proof.
  induction 1 as [|ev evs Hev _ IH]; [reflexivity|].
  change (ev :: evs) with ([ev] ++ evs). now rewrite handled_app, Hev, IH.
Qed.

Lemma passes_cons l run s s1 :
  step l s = Some s1 -> passes (l :: run) s = passes [l] s ++ passes run s1.
Proof.
  intros Hstep. cbn [passes]. rewrite Hstep.
  destruct l; try reflexivity. destruct (worker s); reflexivity.
Qed.

Lemma step_handled l s s1 :
  step l s = Some s1 ->
  handled (history s1) =
    handled (history s) ++ ((fun x => x.1.1) <$> passes [l] s).
Proof.
  intros Hstep. destruct (step_history l s s1 Hstep) as (evs & Hh & Hkind).
  rewrite Hh, handled_app. f_equal. cbn [passes]. rewrite Hstep.
  destruct Hkind as [(e & -> & Hw & ->)|Hnone].
  - rewrite Hw. reflexivity.
  - rewrite (handled_none evs Hnone).
    destruct l; try reflexivity.
    destruct (worker s) as [|e|] eqn:Hw; try reflexivity.
    exfalso. cbn [step] in Hstep. rewrite Hw in Hstep.
    destruct (can_handle e s); [|discriminate].
    destruct (pass e s) as [[s2 cs]|] eqn:Hp; [|discriminate].
    cbn [mbind option_bind] in Hstep. injection Hstep as <-.
    apply pass_spec in Hp as (_ & _ & Hh2).
    change (history (set_worker s2 (Delivered e cs))) with (history s2) in Hh.
    rewrite Hh2 in Hh. apply app_inv_head in Hh. subst evs.
    apply Forall_cons in Hnone as [Hev _]. discriminate Hev.
Qed.

(** The items the worker has handled are those of its passes. *)
Lemma passes_handled run : forall s s',
  exec run s = Some s' ->
  handled (history s') =
    handled (history s) ++ ((fun x => x.1.1) <$> passes run s).
Proof.
  induction run as [|l run IH]; intros s s'; cbn [exec].
  - intros [= <-]. cbn. now rewrite app_nil_r.
  - destruct (step l s) as [s1|] eqn:Hstep; [|discriminate].
    cbn [mbind option_bind]. intros Hrun.
    rewrite (passes_cons l run s s1 Hstep), fmap_app, app_assoc.
    rewrite <- (step_handled _ _ _ Hstep). exact (IH _ _ Hrun).
Qed.

(** A pass calls [Log] on every output of the registry. *)
Lemma step_LPass_delivered e s s' :
  worker s = Holding e -> step LPass s = Some s' -> delivered (e, s, s').
Proof.
  intros Hw Hstep. cbn [step] in Hstep. rewrite Hw in Hstep.
  destruct (can_handle e s); [|discriminate].
  destruct (pass e s) as [[s1 cs]|] eqn:Hp; [|discriminate].
  cbn [mbind option_bind] in Hstep. injection Hstep as <-.
  unfold delivered. cbn [fst snd]. unfold pass in Hp.
  destruct (entry e) as [en|].
  - destruct (sweep _ _ _ _ _ _) as [[[[en' os'] pl'] rm]|] eqn:Hsw;
      [|discriminate].
    cbn [mbind option_bind] in Hp.
    destruct (compact rm 0 (outputs s)) as [outs|]; [|discriminate].
    cbn [mbind option_bind] in Hp. injection Hp as <- _.
    apply sweep_logged in Hsw as (errs & Hlog & _).
    exists en', errs. exact Hlog.
  - injection Hp as <- _. reflexivity.
Qed.

Lemma passes_delivered run : forall s, Forall delivered (passes run s).
Proof.
  induction run as [|l run IH]; intros s; cbn [passes]; [constructor|].
  destruct (step l s) as [s1|] eqn:Hstep; [|constructor].
  destruct l; try apply IH.
  destruct (worker s) as [|e|] eqn:Hw; try apply IH.
  constructor; [|apply IH]. exact (step_LPass_delivered e s s1 Hw Hstep).
Qed.

(** X25: take any run of a fresh manager, whatever the callers and the
    worker do in it and in whatever order, in which the items [prior]
    reached the channel before the item [eB] of a blocking call with done
    channel [d].  When the blocking call returns from [<-d], the run has
    been through a moment [s1] at which the worker held [eB] and had made
    its passes for the items of [prior], for no other item, in the order of
    their arrival; the worker's next action was the pass for [eB]; and each
    of these passes called [Log] with the entry of its item on every output
    that was in the registry when the pass began, in the order of the
    registry. *)
Theorem blocking_log_waits_for_prior (os : gmap ptr O) pl run s prior eB later d :
  exec (run ++ [LReturn d]) (newManager os pl) = Some s ->
  sent run = prior ++ eB :: later ->
  done eB = Some d ->
  exists run1 run2 s1 s2,
    run = run1 ++ LPass :: run2 /\
    exec run1 (newManager os pl) = Some s1 /\
    worker s1 = Holding eB /\
    step LPass s1 = Some s2 /\
    (fun x => x.1.1) <$> passes run1 (newManager os pl) = prior /\
    Forall delivered (passes run1 (newManager os pl) ++ [(eB, s1, s2)]).
Proof.
  intros Hexec Hsent HdB.
  rewrite exec_app in Hexec. apply bind_Some in Hexec as (s0 & Hrun & Hret).
  cbn in Hret. destruct (decide (d ∈ signalled s0)) as [Hsig|]; [|discriminate].
  injection Hret as <-.
  destruct (fifo_exec _ _ _ _ Hrun) as (H1 & H2 & _ & H4).
  assert (Hsig' : d ∈ omap done (handled (history s0))).
  { rewrite <- H2. apply elem_of_app. left. exact Hsig. }
  apply list_elem_of_omap in Hsig' as (e & Hin & Hde).
  apply list_elem_of_split in Hin as (l1 & l2 & Hl).
  rewrite Hl, <- app_assoc in H1. cbn in H1.
  rewrite <- H1 in H4.
  rewrite Hsent in H1.
  destruct (unique_place done _ _ _ _ _ _ d H4 H1 Hde HdB) as (-> & -> & _).
  apply handled_split in Hl as (h1 & outs & h2 & Hh & Hh1 & _).
  destruct (history_origin _ _ _ _ _ _ _ _ Hrun Hh)
    as (run1 & run2 & s1 & -> & Hrun1 & Hw & <- & ->).
  rewrite exec_app, Hrun1 in Hrun. cbn [mbind option_bind exec] in Hrun.
  destruct (step LPass s1) as [s2|] eqn:Hstep; [|discriminate].
  exists run1, run2, s1, s2.
  split; [reflexivity|]. split; [exact Hrun1|]. split; [exact Hw|].
  split; [exact Hstep|]. split.
  - pose proof (passes_handled _ _ _ Hrun1) as Hp. cbn in Hp.
    rewrite <- Hp. exact Hh1.
  - apply Forall_app. split; [apply passes_delivered|].
    constructor; [|constructor].
    exact (step_LPass_delivered eB s1 s2 Hw Hstep).
Qed.

End OrderFacts.

Lemma blocking_log_waits_for_prior_witness :
  let os : gmap ptr outputWrapper := {[ 0%nat := text_output ]} in
  let e1 := mkItem (Some (sample_entry "first")) None in
  let eB := mkItem (Some (sample_entry "second")) (Some 0%nat) in
  let run :=
    [LAdd 0%nat; LSend e1; LSend eB; LRecv; LPass; LFinish; LRecv; LPass;
     LFinish] in
  exists s,
    exec (run ++ [LReturn 0%nat]) (newManager os sample_pool) = Some s /\
    sent run = [e1] ++ eB :: [] /\
    done eB = Some 0%nat /\
    exists run1 run2 s1 s2,
      run = run1 ++ LPass :: run2 /\
      exec run1 (newManager os sample_pool) = Some s1 /\
      worker s1 = Holding eB /\
      step LPass s1 = Some s2 /\
      (fun x => x.1.1) <$> passes run1 (newManager os sample_pool) = [e1] /\
      Forall delivered (passes run1 (newManager os sample_pool) ++ [(eB, s1, s2)]).
Proof.
  intros os e1 eB run.
  destruct (exec (run ++ [LReturn 0%nat]) (newManager os sample_pool))
    as [s|] eqn:Hexec.
  - exists s. split; [reflexivity|].
    assert (Hsent : sent run = [e1] ++ eB :: [])
      by reflexivity.
    assert (Hd : done eB = Some 0%nat) by reflexivity.
    split; [exact Hsent|]. split; [exact Hd|].
    exact (blocking_log_waits_for_prior os sample_pool run s [e1] eB [] 0%nat
             Hexec Hsent Hd).
  - exfalso.
    assert (Hsome : is_Some (exec (run ++ [LReturn 0%nat])
                                  (newManager os sample_pool))).
    { apply (proj1 (bool_decide_spec _)). vm_compute. reflexivity. }
    rewrite Hexec in Hsome. destruct Hsome as [? Hx]. discriminate Hx.
Defined.
